(** * Rule-based classification of bank-statement descriptions

    A shallow embedding of [clean_bank_statements.py]: the text normaliser
    [normalize_text], the ordered rule table [raw_rules] / [compiled_rules]
    and the column-wise classifier [apply_rules_vectorized], together with
    the properties of the classifier stated in the specification.

    Python strings are sequences of Unicode code points, so a text is a
    list of code points.  The regular-expression engine, the Unicode
    character database and pandas are collaborators of the program; the
    parts of them the program relies on are modelled below, each next to
    the Python operation it stands for.  The files and the console are
    collaborators of the script; what they answer is an argument of
    [main]. *)

From Stdlib Require Import NArith ZArith Ascii String List Bool Lia.
From Stdlib Require Import DecimalString.
From Stdlib Require DecimalPos.
From Stdlib Require Floats.PrimFloat Floats.SpecFloat Floats.FloatOps.
From stdpp Require Import base option list strings gmap.

Local Open Scope N_scope.

(** ** Texts *)

Module Text.

(** A code point and a Python [str]. *)
Definition char := N.
Definition text := list char.

(** String literals of this file are UTF-8 encoded; [u] decodes one into
    the text it denotes (sequences of one to four bytes). *)
Fixpoint utf8_decode (s : string) : text :=
  match s with
  | EmptyString => []
  | String a s1 =>
    let b := N_of_ascii a in
    if b <? 128 then b :: utf8_decode s1
    else match s1 with
    | EmptyString => [b]
    | String a2 s2 =>
      let c2 := N_of_ascii a2 mod 64 in
      if b <? 224 then ((b mod 32) * 64 + c2) :: utf8_decode s2
      else match s2 with
      | EmptyString => [b]
      | String a3 s3 =>
        let c3 := N_of_ascii a3 mod 64 in
        if b <? 240 then ((b mod 16) * 4096 + c2 * 64 + c3) :: utf8_decode s3
        else match s3 with
        | EmptyString => [b]
        | String a4 s4 =>
          let c4 := N_of_ascii a4 mod 64 in
          ((b mod 8) * 262144 + c2 * 4096 + c3 * 64 + c4) :: utf8_decode s4
        end
      end
    end
  end.

Definition u (s : string) : text := utf8_decode s.

(** The single code point written as a one-character literal. *)
Definition ch (s : string) : char := hd 0 (u s).

(** [s.startswith(p)] *)
Fixpoint startswith (p s : text) : bool :=
  match p, s with
  | [], _ => true
  | _ :: _, [] => false
  | a :: p', b :: s' => (a =? b) && startswith p' s'
  end.

(** [p in s] for strings *)
Fixpoint contains (p s : text) : bool :=
  startswith p s || match s with [] => false | _ :: s' => contains p s' end.

(** [s.replace(old, new)]: every non-overlapping occurrence, left to right.
    [skip] counts the characters of [s] still covered by the occurrence
    found last.  With an empty [old], Python inserts [new] before every
    character and at the end. *)
Fixpoint replace_from (old new : text) (skip : nat) (s : text) : text :=
  match skip with
  | S n => match s with [] => [] | _ :: s' => replace_from old new n s' end
  | O =>
    if startswith old s then
      match old, s with
      | [], [] => new
      | [], c :: s' => new ++ c :: replace_from old new O s'
      | _ :: old', [] => new
      | _ :: old', _ :: s' => new ++ replace_from old new (List.length old') s'
      end
    else match s with [] => [] | c :: s' => c :: replace_from old new O s' end
  end.

Definition replace (old new s : text) : text := replace_from old new O s.

(** [str(n)] for an integer *)
Definition str_of_Z (z : Z) : text := u (NilEmpty.string_of_int (Z.to_int z)).

End Text.
Export Text.

(** ** The string form of a float

    [str(x)] of a float is [repr(x)]: the shortest decimal that reads back
    as [x], in positional notation with at least one digit after the point,
    or in exponent notation when the decimal point would stand more than 16
    places to the right or more than 3 places to the left of the first
    digit.  A float is a binary64 number, as a number of a CSV file is once
    [read_csv] has parsed it. *)

Module PyFloat.

Import SpecFloat.
Local Open Scope Z_scope.

(** The float [m * 2^e] and the decimal [c * 10^q] as quotients of
    integers. *)
Definition bin_num (m e : Z) : Z := if 0 <=? e then m * 2 ^ e else m.
Definition bin_den (e : Z) : Z := if 0 <=? e then 1 else 2 ^ (- e).
Definition dec_num (c q : Z) : Z := if 0 <=? q then c * 10 ^ q else c.
Definition dec_den (q : Z) : Z := if 0 <=? q then 1 else 10 ^ (- q).

(** [c * 10^q] compared with [(a / 4) * 2^e] *)
Definition dec_cmp (c q a e : Z) : comparison :=
  (4 * dec_num c q * bin_den e ?= bin_num a e * dec_den q).

(** The largest [k] with [10^k <= m * 2^e], searched downwards from [k]. *)
Fixpoint floor_log10 (fuel : nat) (k m e : Z) : Z :=
  match fuel with
  | O => k
  | S fuel' =>
    match dec_cmp 1 k (4 * m) e with
    | Gt => floor_log10 fuel' (k - 1) m e
    | _ => k
    end
  end.

(** The decimals that read back as the float [m * 2^e]: those between the
    midpoints to its two neighbours, the midpoints included when [m] is
    even (round half to even).  The lower neighbour is half as far when [m]
    is a power of two. *)
Definition reads_back (m e c q : Z) : bool :=
  let low := if (m =? 2 ^ 52) && (-1074 <? e) then 4 * m - 1 else 4 * m - 2 in
  let high := 4 * m + 2 in
  match dec_cmp c q low e, dec_cmp c q high e with
  | Gt, Lt => true
  | Eq, Lt | Gt, Eq => Z.even m
  | _, _ => false
  end.

(** The shortest decimal that reads back as [m * 2^e], the nearest one when
    there are several: [n] digits are tried before [n + 1], and with 17
    digits the nearest decimal reads back. *)
Fixpoint shortest (fuel : nat) (n k m e : Z) : Z * Z :=
  let q := k - n + 1 in
  let lo := (bin_num m e * dec_den q) / (bin_den e * dec_num 1 q) in
  let hi := lo + 1 in
  let nearer_lo :=
    match dec_cmp (lo + hi) q (8 * m) e with Lt => false | _ => true end in
  match fuel with
  | O => if nearer_lo then (lo, q) else (hi, q)
  | S fuel' =>
    match reads_back m e lo q, reads_back m e hi q with
    | true, true => if nearer_lo then (lo, q) else (hi, q)
    | true, false => (lo, q)
    | false, true => (hi, q)
    | false, false => shortest fuel' (n + 1) k m e
    end
  end.

Definition zeros (n : Z) : text := replicate (Z.to_nat n) 48%N.

Fixpoint rstrip_zeros (rev_digits : text) : text :=
  match rev_digits with
  | 48%N :: t => rstrip_zeros t
  | _ => rev_digits
  end.

(** The text of the positive float whose shortest decimal is [c * 10^q]. *)
Definition format (c q : Z) : text :=
  let all := str_of_Z c in
  let decpt := Z.of_nat (List.length all) + q in
  let ds := rev (rstrip_zeros (rev all)) in
  let n := Z.of_nat (List.length ds) in
  if (decpt <=? -4) || (16 <? decpt) then
    let x := decpt - 1 in
    let xs := str_of_Z (Z.abs x) in
    take 1 ds ++ (if 1 <? n then 46%N :: drop 1 ds else [])
    ++ [101%N; if x <? 0 then 45%N else 43%N]
    ++ (if Z.abs x <? 10 then 48%N :: xs else xs)
  else if decpt <=? 0 then [48%N; 46%N] ++ zeros (- decpt) ++ ds
  else if decpt <? n then
    take (Z.to_nat decpt) ds ++ 46%N :: drop (Z.to_nat decpt) ds
  else ds ++ zeros (decpt - n) ++ [46%N; 48%N].

Definition sign (s : bool) : text := if s then [45%N] else [].

(** The float [m * 2^e], negated when [neg]. *)
Definition of_binary (neg : bool) (m : positive) (e : Z) : PrimFloat.float :=
  FloatOps.SF2Prim (S754_finite neg m e).

(** [repr(x)] *)
Definition repr (x : PrimFloat.float) : text :=
  match FloatOps.Prim2SF x with
  | S754_zero s => sign s ++ [48%N; 46%N; 48%N]
  | S754_infinity s => sign s ++ [105%N; 110%N; 102%N]
  | S754_nan => [110%N; 97%N; 110%N]
  | S754_finite s m e =>
    let m := Z.pos m in
    let k := floor_log10 8 (((Z.log2 m + e + 1) * 30103) / 100000 + 1) m e in
    let '(c, q) := shortest 16 1 k m e in
    sign s ++ format c q
  end.

End PyFloat.

(** ** The Unicode character database

    What the program asks of Python's Unicode tables, through [str.strip],
    [str.lower], [unicodedata] and the character classes of [re] compiled
    with [re.IGNORECASE | re.UNICODE]. *)

Class UnicodeDB := {
  (** [Py_UNICODE_ISSPACE]: the whitespace of [str.strip()] and of [\s] *)
  isspace : char → bool;
  (** [\d] *)
  isdecimal : char → bool;
  (** [\w], which decides [\b] *)
  isword : char → bool;
  (** [ci_eq p c]: the character [c] of the subject matches the literal [p]
      of a pattern compiled with [re.IGNORECASE] *)
  ci_eq : char → char → bool;
  (** [s.lower()] *)
  str_lower : text → text;
  (** [unicodedata.normalize("NFKD", s)] *)
  nfkd : text → text;
  (** [unicodedata.combining(ch)] is not zero *)
  combining : char → bool;
}.

(** ** Regular expressions

    The constructs that the patterns of the program use, and a backtracking
    matcher with the priorities of Python's [re]: greedy repetitions try one
    more iteration first, lazy ones try to stop first, and [search] takes
    the leftmost start at which the pattern matches. *)

Module Re.

Inductive citem :=
| IChr (c : char)     (** a literal inside a class *)
| IDigit              (** [\d] inside a class *)
| ISpace.             (** [\s] inside a class *)

Inductive regex :=
| Empty
| Lit (c : char)                  (** a literal character *)
| Dot                             (** [.] *)
| Cls (items : list citem)        (** [[...]] *)
| Digit                           (** [\d] *)
| Space                           (** [\s] *)
| Bol                             (** [^] *)
| Wordb                           (** [\b] *)
| Cat (r1 r2 : regex)
| Rep (greedy : bool) (lo : nat) (hi : option nat) (r : regex)
                                  (** [r{lo,hi}], [r*], [r+], [r?] and the lazy forms *)
| Group (n : nat) (r : regex).    (** the [n]-th capturing group, from 1 *)

(** A compiled pattern: [source] is the pattern text it was compiled from
    ([pattern.pattern]), [ignorecase] is [re.IGNORECASE], [dotall] the inline
    flag [(?s)]. *)
Record pattern := Pattern {
  source : string;
  ignorecase : bool;
  dotall : bool;
  re : regex;
}.

Fixpoint count_groups (r : regex) : nat :=
  match r with
  | Cat r1 r2 => (count_groups r1 + count_groups r2)%nat
  | Rep _ _ _ r => count_groups r
  | Group _ r => S (count_groups r)
  | _ => O
  end.

(** [pattern.groups] *)
Definition groups (p : pattern) : nat := count_groups (re p).

(** A sequence of expressions. *)
Definition cat (rs : list regex) : regex := foldr Cat Empty rs.

(** The state of a match attempt: the subject before the current position
    (nearest character first), the subject from the current position on,
    and what each group captured last. *)
Record mstate := MState {
  before : text;
  rest : text;
  caps : list (option text);
}.

Definition cont := mstate → option mstate.

Section Matcher.
Context `{UnicodeDB}.

(** A literal [p] against the character [c] of the subject. *)
Definition lit_test (ic : bool) (p c : char) : bool :=
  if ic then ci_eq p c else p =? c.

Definition item_test (ic : bool) (c : char) (i : citem) : bool :=
  match i with
  | IChr p => lit_test ic p c
  | IDigit => isdecimal c
  | ISpace => isspace c
  end.

(** Consume one character that passes [test]. *)
Definition one (test : char → bool) (s : mstate) (k : cont) : option mstate :=
  match rest s with
  | c :: t => if test c then k (MState (c :: before s) t (caps s)) else None
  | [] => None
  end.

Definition word_before (s : mstate) : bool :=
  match before s with c :: _ => isword c | [] => false end.
Definition word_after (s : mstate) : bool :=
  match rest s with c :: _ => isword c | [] => false end.

(** The text consumed between the states [s0] and [s1] of one attempt. *)
Definition consumed (s0 s1 : mstate) : text :=
  rev (firstn (List.length (before s1) - List.length (before s0)) (before s1)).

Definition set_cap (n : nat) (g : text) (s : mstate) : mstate :=
  MState (before s) (rest s) (<[pred n := Some g]> (caps s)).

(** Repetition of the matcher [m], [cnt] iterations done, at most [fuel]
    more allowed. *)
Fixpoint rep_loop (m : mstate → cont → option mstate) (greedy : bool)
    (lo fuel cnt : nat) (s : mstate) (k : cont) : option mstate :=
  match fuel with
  | O => if (lo <=? cnt)%nat then k s else None
  | S fuel' =>
    if greedy then
      match m s (fun s' => rep_loop m greedy lo fuel' (S cnt) s' k) with
      | Some e => Some e
      | None => if (lo <=? cnt)%nat then k s else None
      end
    else
      match (if (lo <=? cnt)%nat then k s else None) with
      | Some e => Some e
      | None => m s (fun s' => rep_loop m greedy lo fuel' (S cnt) s' k)
      end
  end.

(** An unbounded repetition iterates at most once per remaining character
    beyond its minimum: every repeated expression of the program's patterns
    consumes at least one character per iteration. *)
Definition rep_fuel (lo : nat) (hi : option nat) (s : mstate) : nat :=
  match hi with
  | Some h => h
  | None => (lo + List.length (rest s))%nat
  end.

Fixpoint mtch (ic fl : bool) (r : regex) (s : mstate) (k : cont) {struct r}
    : option mstate :=
  match r with
  | Empty => k s
  | Lit p => one (lit_test ic p) s k
  | Dot => one (fun c => fl || negb (c =? 10)) s k
  | Cls items => one (fun c => existsb (item_test ic c) items) s k
  | Digit => one isdecimal s k
  | Space => one isspace s k
  | Bol => match before s with [] => k s | _ :: _ => None end
  | Wordb => if xorb (word_before s) (word_after s) then k s else None
  | Cat r1 r2 => mtch ic fl r1 s (fun s' => mtch ic fl r2 s' k)
  | Rep greedy lo hi r1 =>
    rep_loop (mtch ic fl r1) greedy lo (rep_fuel lo hi s) O s k
  | Group n r1 => mtch ic fl r1 s (fun s' => k (set_cap n (consumed s s') s'))
  end.

(** [pattern.match] at the position of [s]. *)
Definition match_at (p : pattern) (bef rst : text) : option mstate :=
  mtch (ignorecase p) (dotall p) (re p) (MState bef rst (replicate (groups p) None)) Some.

(** [pattern.search(t)]: the first position from which the pattern matches. *)
Fixpoint search_from (p : pattern) (bef rst : text) : option mstate :=
  match match_at p bef rst with
  | Some e => Some e
  | None =>
    match rst with
    | [] => None
    | c :: rst' => search_from p (c :: bef) rst'
    end
  end.

Definition search (p : pattern) (t : text) : option mstate :=
  search_from p [] t.

(** [re.sub(p, repl, t)] for a replacement without group references:
    matches are taken left to right without overlap; [skip] counts the
    characters still inside the match found last.  An empty match is
    replaced too and the scan moves on by one character. *)
Fixpoint sub_from (p : pattern) (repl : text) (skip : nat) (bef rst : text)
    : text :=
  match skip with
  | S n =>
    match rst with
    | [] => []
    | c :: rst' => sub_from p repl n (c :: bef) rst'
    end
  | O =>
    match match_at p bef rst with
    | Some e =>
      match rst with
      | [] => repl
      | c :: rst' =>
        match (List.length rst - List.length (rest e))%nat with
        | O => repl ++ c :: sub_from p repl O (c :: bef) rst'
        | S n => repl ++ sub_from p repl n (c :: bef) rst'
        end
      end
    | None =>
      match rst with
      | [] => []
      | c :: rst' => c :: sub_from p repl O (c :: bef) rst'
      end
    end
  end.

Definition sub (p : pattern) (repl t : text) : text := sub_from p repl O [] t.

End Matcher.

(** *** Compiling a pattern

    [re.compile] on the syntax that the patterns of the program are written
    in: literals and escaped punctuation, [.], [^], [\d], [\s], [\b],
    classes of literals and of [\d] and [\s], capturing and non-capturing
    groups, the quantifiers [*], [+], [?], [{m}], [{m,n}], [{m,}] and their
    lazy forms, and the inline flag [(?s)] at the start.  Anything else
    (alternation, ranges and negation in classes, other escapes) is left
    out: such a pattern, like an invalid one, does not compile. *)

Definition at_chr (s : string) (c : char) : bool := c =? ch s.
Definition is_digit (c : char) : bool := (48 <=? c) && (c <=? 57).
Definition is_alnum (c : char) : bool :=
  is_digit c || ((65 <=? c) && (c <=? 90)) || ((97 <=? c) && (c <=? 122)).

Fixpoint read_digits (acc : nat) (s : text) : nat * text :=
  match s with
  | c :: s' =>
    if is_digit c then read_digits (acc * 10 + N.to_nat (c - 48)) s' else (acc, s)
  | [] => (acc, [])
  end.

Definition read_number (s : text) : option (nat * text) :=
  match s with
  | c :: _ => if is_digit c then Some (read_digits 0 s) else None
  | [] => None
  end.

(** A quantifier is lazy when a question mark follows it. *)
Definition with_laziness (mk : bool → regex) (s : text) : regex * text :=
  match s with
  | c :: s' => if at_chr "?" c then (mk false, s') else (mk true, s)
  | [] => (mk true, [])
  end.

(** The quantifier that may follow the expression [a]. *)
Definition parse_quant (a : regex) (s : text) : option (regex * text) :=
  match s with
  | [] => Some (a, [])
  | c :: s' =>
    if at_chr "*" c then Some (with_laziness (fun g => Rep g 0 None a) s')
    else if at_chr "+" c then Some (with_laziness (fun g => Rep g 1 None a) s')
    else if at_chr "?" c then Some (with_laziness (fun g => Rep g 0 (Some 1%nat) a) s')
    else if at_chr "{" c then
      '(lo, s1) ← read_number s';
      match s1 with
      | d :: s2 =>
        if at_chr "}" d then Some (with_laziness (fun g => Rep g lo (Some lo) a) s2)
        else if at_chr "," d then
          match read_number s2 with
          | Some (hi, e :: s3) =>
            if at_chr "}" e
            then Some (with_laziness (fun g => Rep g lo (Some hi) a) s3)
            else None
          | Some (_, []) => None
          | None =>
            match s2 with
            | e :: s3 =>
              if at_chr "}" e
              then Some (with_laziness (fun g => Rep g lo None a) s3)
              else None
            | [] => None
            end
          end
        else None
      | [] => None
      end
    else Some (a, s)
  end.

(** The items of a class, after its opening bracket. *)
Fixpoint parse_class (s : text) : option (list citem * text) :=
  match s with
  | [] => None
  | c :: s' =>
    if at_chr "]" c then Some ([], s')
    else if at_chr "\" c then
      match s' with
      | e :: s'' =>
        '(items, s3) ← parse_class s'';
        if at_chr "d" e then Some (IDigit :: items, s3)
        else if at_chr "s" e then Some (ISpace :: items, s3)
        else if is_alnum e then None
        else Some (IChr e :: items, s3)
      | [] => None
      end
    else
      match s' with
      | d :: e :: _ =>
        if at_chr "-" d && negb (at_chr "]" e) then None
        else '(items, s3) ← parse_class s'; Some (IChr c :: items, s3)
      | _ => '(items, s3) ← parse_class s'; Some (IChr c :: items, s3)
      end
  end.

(** A sequence of quantified expressions, up to the end of the pattern or
    to the parenthesis that closes the group it is in; [n] counts the
    capturing groups opened so far. *)
Fixpoint parse_seq (fuel : nat) (s : text) (n : nat)
    : option (list regex * text * nat) :=
  match fuel with
  | O => None
  | S fuel' =>
    match s with
    | [] => Some ([], [], n)
    | c :: s' =>
      if at_chr ")" c then Some ([], s, n)
      else
        '(a, s1, n1) ← parse_atom fuel' c s' n;
        '(a', s2) ← parse_quant a s1;
        '(items, s3, n3) ← parse_seq fuel' s2 n1;
        Some (a' :: items, s3, n3)
    end
  end
with parse_atom (fuel : nat) (c : char) (s : text) (n : nat)
    : option (regex * text * nat) :=
  match fuel with
  | O => None
  | S fuel' =>
    if at_chr "(" c then
      match s with
      | q :: s' =>
        if at_chr "?" q then
          match s' with
          | k :: s'' =>
            if at_chr ":" k then
              '(items, s1, n1) ← parse_seq fuel' s'' n;
              match s1 with
              | e :: s2 => if at_chr ")" e then Some (cat items, s2, n1) else None
              | [] => None
              end
            else None
          | [] => None
          end
        else
          '(items, s1, n1) ← parse_seq fuel' s (S n);
          match s1 with
          | e :: s2 =>
            if at_chr ")" e then Some (Group (S n) (cat items), s2, n1) else None
          | [] => None
          end
      | [] => None
      end
    else if at_chr "[" c then
      match s with
      | q :: _ =>
        if at_chr "^" q || at_chr "]" q then None
        else '(items, s1) ← parse_class s; Some (Cls items, s1, n)
      | [] => None
      end
    else if at_chr "\" c then
      match s with
      | e :: s' =>
        if at_chr "d" e then Some (Digit, s', n)
        else if at_chr "s" e then Some (Space, s', n)
        else if at_chr "b" e then Some (Wordb, s', n)
        else if is_alnum e then None
        else Some (Lit e, s', n)
      | [] => None
      end
    else if at_chr "." c then Some (Dot, s, n)
    else if at_chr "^" c then Some (Bol, s, n)
    else if at_chr "*" c || at_chr "+" c || at_chr "?" c || at_chr "{" c
            || at_chr "|" c || at_chr "$" c then None
    else Some (Lit c, s, n)
  end.

(** [re.compile(pat, flags)], [flags] being [re.UNICODE] with or without
    [re.IGNORECASE]; [None] stands for [re.error]. *)
Definition re_compile (pat : string) (ignorecase : bool) : option pattern :=
  let s := u pat in
  let '(fl, s) :=
    if startswith (u "(?s)") s then (true, drop 4 s) else (false, s) in
  match parse_seq (2 * List.length s + 2) s 0 with
  | Some (items, [], _) => Some (Pattern pat ignorecase fl (cat items))
  | _ => None
  end.

(** A pattern written in the program text: the program does not run if it
    does not compile. *)
Definition compiled (pat : string) (ignorecase : bool) : pattern :=
  default (Pattern pat ignorecase false Empty) (re_compile pat ignorecase).

End Re.
Export Re.

(** ** The program *)

Module Bank.

Definition DESCRIPTION_COL : string := "Descripción".

(** A value of a data-frame column, as [read_csv] and the function put
    them there: a missing value ([None] or NaN), a string, an integer, a
    boolean or a float that is not NaN. *)
Inductive cell :=
| CNone
| CStr (t : text)
| CInt (z : Z)
| CBool (b : bool)
| CFloat (x : PrimFloat.float) (number : PrimFloat.is_nan x = false).

(** The exceptions that the script can end with; [OtherError] is any
    exception of another class, by the name of its class. *)
Inductive error :=
| ValueError (msg : string)
| KeyError (name : string)
| OtherError (class : string).

(** Failing computations: [inl e] is the exception [e] raised. *)
#[global] Instance error_bind : MBind (sum error) :=
  fun A B f x => match x with inl e => inl e | inr a => f a end.

(** [str(x)] where the conversion returns *)
Definition str (c : cell) : text :=
  match c with
  | CNone => u "None"
  | CStr t => t
  | CInt z => str_of_Z z
  | CBool true => u "True"
  | CBool false => u "False"
  | CFloat x _ => PyFloat.repr x
  end.

(** [sys.int_info.default_max_str_digits]: the bound that CPython puts by
    default on the digits of an integer that is converted to a string. *)
Definition int_max_str_digits : Z := 4300.

Definition int_str_error : error :=
  ValueError ("Exceeds the limit (4300 digits) for integer string "
              +:+ "conversion; use sys.set_int_max_str_digits() "
              +:+ "to increase the limit").

(** Where [str(x)] raises instead: for an integer of more digits than
    [int_max_str_digits]. *)
Definition str_error (c : cell) : option error :=
  match c with
  | CInt z =>
    if (10 ^ int_max_str_digits <=? Z.abs z)%Z then Some int_str_error else None
  | _ => None
  end.

(** [pd.isna(x)] *)
Definition isna (c : cell) : bool :=
  match c with CNone => true | _ => false end.

(** [column.fillna(v)] *)
Definition fillna (v : text) (col : list cell) : list cell :=
  (fun c => if isna c then CStr v else c) <$> col.

(** [column.astype(str)]: the string form of every value, or the exception
    of the first conversion that raises. *)
Fixpoint astype_str (col : list cell) : error + list text :=
  match col with
  | [] => inr []
  | c :: col' =>
    match str_error c with
    | Some e => inl e
    | None => ts ← astype_str col'; inr (str c :: ts)
    end
  end.

(** A data frame: the length of its index and its columns by name. *)
Record frame := Frame { nrows : nat; cols : gmap string (list cell) }.

(** [df[name] = col] *)
Definition set_col (name : string) (col : list cell) (df : frame) : frame :=
  Frame (nrows df) (<[name := col]> (cols df)).

(** The column [name] of [df], if there is one *)
Definition get_col (name : string) (df : frame) : option (list cell) :=
  cols df !! name.

(** [df[name]], a [KeyError] when the column is missing *)
Definition getitem (name : string) (df : frame) : error + list cell :=
  match get_col name df with
  | Some col => inr col
  | None => inl (KeyError name)
  end.

Section Classifier.
Context `{UnicodeDB}.

(** [s.strip()] *)
Fixpoint lstrip (s : text) : text :=
  match s with
  | c :: s' => if isspace c then lstrip s' else s
  | [] => []
  end.
Definition rstrip (s : text) : text := rev (lstrip (rev s)).
Definition strip (s : text) : text := rstrip (lstrip s).

(** The patterns of the three [re.sub] and [str.replace] calls; the last
    one is compiled with [flags=re.IGNORECASE]. *)
Definition re_spaces : pattern := compiled "\s+" false.
Definition re_pipe : pattern := compiled "\s*\|\s*" false.
Definition re_cargo_prefix : pattern :=
  compiled "Cargo a cuenta por deposito con cheque .*?\|" true.

Definition normalize_text (s : cell) : text :=
  match s with
  | CNone => []
  | _ =>
    let s := str s in
    let s := nfkd s in
    let s := filter (fun c => negb (combining c)) s in
    let s := replace (u ":") (u " ") s in
    str_lower (strip (sub re_spaces (u " ") s))
  end.

Definition build_label (label : text) (g : option text) : text :=
  match g with
  | None => label
  | Some g =>
    let gstr := strip g in
    let gstr := sub re_pipe (u " ") gstr in
    let gstr := strip (sub re_spaces (u " ") gstr) in
    if contains (u "****") label then replace (u "****") gstr label
    else if startswith (u "spei enviado") (str_lower label)
            || startswith (u "spei recibido") (str_lower label)
    then label ++ u ": " ++ gstr
    else if startswith (u "devolución de spei") (str_lower label)
    then label ++ u ": " ++ gstr
    else if startswith (u "retiro de recursos") (str_lower label)
    then label ++ u " Beneficiario " ++ gstr
    else if startswith (u "entrega de recursos") (str_lower label)
    then label ++ u " " ++ gstr
    else label ++ u " " ++ gstr
  end.


(** *** The rule table *)

Definition raw_rules : list (string * string * string) := [
  ("\(\d{1,3}(?:,\d{3})*\.\d{2}\)\s*mxn\s*Nro\.?\s*Ref/Docto\.?\s*#\s*\d{7}",
   "RAW_MATCH",
   "RAW_PATTERN_AMOUNT_REF_7");
  ("TRASPASO\s+DE\s+SALDOS\s",
   "TRASPASO DE SALDOS",
   "TRASPASO DE SALDOS");
  ("\scuota\s+obrero\s+patronal\s",
   "CUOTA OBRERO PATRONAL",
   "CUOTA OBRERO PATRONAL");
  ("mxn\s+numero\s+de\s+cheque.*\|\s*(\d{4})\s*\|",
   "CHEQUE ****",
   "mxn numero de cheque con dígitos");
  ("(?s)spei\s+enviado[:\s]*\|.*?beneficiario:\s*(.*?)\s*\(dato\s+no\s+verificado",
   "SPEI Enviado",
   "SPEI Enviado con Beneficiario");
  ("(?s)spei\s+recibido[:\s]*\|.*?ordenante:\s*(.*?)\s*cuenta\s+ordenante",
   "SPEI Recibido",
   "SPEI Recibido con Ordenante");
  ("(?s)devoluci[oó]n\s+de\s+spei[:\s]*\|.*?ordenante:\s*(.+?)\s*cuenta\s+ordenante",
   "Devolución de SPEI",
   "Devolución de SPEI con Ordenante");
  ("(?s)retiro\s+de\s+recursos.*?beneficiario\s*(?:\|\s*)?(.*?)\s*\|\s*hora:",
   "Retiro de Recursos",
   "Retiro de Recursos con Beneficiario");
  ("(?s)entrega\s+de\s+recursos\s+por.*?ordenante\s*\|?\s*(.+?)\s*\|\s*hora:",
   "Entrega de Recursos",
   "Entrega de Recursos con Ordenante");
  ("^\s*comision\s*\|\s*dispersion\s+grupo\b.*por\s*\(?[\d,]+\.\d{2}\)?\s*mxn.*recibo\s*#\s*\d+",
   "Comisión",
   "Comisión | Dispersion Grupo con monto y Recibo");
  ("^\s*comision\s*\|\s*numero\s+de\s+referencia\b.*",
   "Comisión",
   "Comisión | Número de Referencia (exacto)");
  ("^\s*comisi[oó]n\s+por\b",
   "Comisión",
   "^Comisión por");
  ("dep[oó]sito\s+en\s+efectivo\b",
   "Depósito en Efectivo",
   "Depósito en Efectivo");
  ("dep[oó]sito\s+negocios\s+afiliados\b",
   "Depósito Negocios Afiliados",
   "Depósito Negocios Afiliados");
  ("dep[oó]sito\s+sbc\s+de\s+cobro\s+inmediato\b",
   "Depósito SBC de Cobro Inmediato",
   "Depósito SBC de Cobro Inmediato");
  ("^\s*deposito\s+para\s+eliminacion\s+de\s+sobregiro\s+por\s*\(?[\d,]+\.\d{2}\)?\s*mxn\b.*",
   "Depósito para Eliminación de Sobregiro",
   "Depósito para Eliminación de Sobregiro con monto");
  ("^\s*(spei enviado)[:\s]?.*",
   "SPEI Enviado",
   "SPEI Enviado");
  ("^\s*(spei recibido)[:\s]?.*",
   "SPEI Recibido",
   "SPEI Recibido");
  ("^\s*devoluci[oó]n\s+de\s+spei[:\s]?.*",
   "Devolución de SPEI",
   "Devolución de SPEI");
  ("^\s*entrega\s+de\s+recursos\s+por",
   "Entrega de Recursos",
   "Entrega de Recursos");
  ("^\s*retiro\s+de\s+recursos\s+por",
   "Retiro de Recursos",
   "Retiro de Recursos");
  ("^\s*iva\s+comision\s+por\s+administracion\s*.*",
   "IVA",
   "IVA");
  ("^\s*iva\s+comision\s+por\s+penalizacion\s*.*",
   "IVA",
   "IVA");
  ("^\s*iva\s+comision\s+por\s+transferencia\s*.*",
   "IVA",
   "IVA");
  ("^\s*iva\s+comision\b.*numero\s+de\s+autorizacion\b.*",
   "IVA",
   "IVA");
  ("telefono-?telmex",
   "Pago de Servicios TELMEX EN LINEA",
   "Pago de Servicios TELMEX EN LINEA");
  ("n[oó]mina\b",
   "Nómina",
   "Nómina");
  ("por\s*\(?[\d,]+\.\d{2}\)?\s*mxn\s*\|\s*recibo\s*#\s*\d+\b",
   "por *",
   "por (monto) mxn | Recibo # (caso general estricto)");
  ("por\s*\(?[\d,]+\.\d{2}\)?\s*mxn\s*cargo",
   "__RAW__por_mxn_cargo",
   "por (xx) mxn Cargo")
].

(** [compiled_rules]: each pattern compiled with
    [re.IGNORECASE | re.UNICODE]. *)
Definition compiled_rules : list (pattern * text * text) :=
  (fun '(pat, label, debug) => (compiled pat true, u label, u debug)) <$> raw_rules.

(** *** The classifier *)

(** [RAW_LABEL_SET] *)
Definition RAW_LABEL_SET : gset text := {[ u "por *"; u "__RAW__por_mxn_cargo" ]}.

(** A row of [column.str.extract(pattern, expand=True)]: one value per
    group, missing where the group took no part or nothing matched. *)
Definition row := list (option text).

Definition str_extract (p : pattern) (t : text) : row :=
  match search p t with
  | Some e => caps e
  | None => replicate (groups p) None
  end.

(** [column.str.contains(pattern, na=False)] *)
Definition str_contains (p : pattern) (t : text) : bool :=
  bool_decide (is_Some (search p t)).

(** [df.loc[mask, col].str.extract(pattern, expand=True)]: the rows of the
    selected records, at their index; [None] where the record is not
    selected. *)
Definition extract_loc (p : pattern) (mask : list bool) (col : list text)
    : list (option row) :=
  zip_with (fun (m : bool) t => if m then Some (str_extract p t) else None) mask col.

(** the row survives [dropna(how="all")] *)
Definition row_kept (r : row) : bool := existsb (fun g => bool_decide (is_Some g)) r.

Definition kept (o : option row) : bool :=
  match o with Some r => row_kept r | None => false end.

(** [extracted.dropna(how="all").empty] *)
Definition dropna_empty (extracted : list (option row)) : bool :=
  forallb (fun o => negb (kept o)) extracted.

Definition map3 {A B C D} (f : A → B → C → D) (la : list A) (lb : list B)
    (lc : list C) : list D :=
  zip_with (fun g c => g c) (zip_with f la lb) lc.

(** One turn of the loop over [compiled_rules], on the columns it works
    with: the normalised texts, the raw texts and the labels. *)
Definition apply_rule (rule : pattern * text * text) (norm raw : list text)
    (labels : list cell) : list cell :=
  let '(pattern, label, debug) := rule in
  let mask_unassigned := isna <$> labels in
  let has_group := (0 <? groups pattern)%nat in
  if has_group then
    let extracted := extract_loc pattern mask_unassigned raw in
    let extracted :=
      if dropna_empty extracted then extract_loc pattern mask_unassigned norm
      else extracted in
    zip_with (fun ex l =>
                if kept ex then CStr (build_label label (hd None (default [] ex)))
                else l)
             extracted labels
  else if bool_decide (label ∈ RAW_LABEL_SET) then
    map3 (fun (m : bool) t l =>
            if m && str_contains pattern t then
              let fixed := t in
              let fixed :=
                if bool_decide (label = u "__RAW__por_mxn_cargo")
                then sub re_cargo_prefix [] fixed else fixed in
              CStr (strip fixed)
            else l)
         mask_unassigned raw labels
  else
    map3 (fun (m : bool) t l =>
            if m && str_contains pattern t then CStr label else l)
         mask_unassigned norm labels.

(** The loop, with its [break] once no label is missing. *)
Fixpoint run_rules (rules : list (pattern * text * text)) (norm raw : list text)
    (labels : list cell) : list cell :=
  match rules with
  | [] => labels
  | rule :: rules' =>
    if negb (existsb isna labels) then labels
    else run_rules rules' norm raw (apply_rule rule norm raw labels)
  end.

(** From the working columns to the label column: the loop and the final
    [fillna("UNKNOWN")]. *)
Definition classify_columns (rules : list (pattern * text * text))
    (norm raw : list text) (labels : list cell) : list cell :=
  fillna (u "UNKNOWN") (run_rules rules norm raw labels).

(** The function is written for any rule table; the program runs it on
    [compiled_rules].  The working columns are written to the frame and
    read back from it, as the loop does. *)
Definition apply_rules_with (rules : list (pattern * text * text)) (df : frame)
    (text_col : string) : error + frame :=
  let df := set_col "label" (replicate (nrows df) CNone) df in
  let norm_col := (text_col +:+ "_norm")%string in
  let raw_col := (text_col +:+ "_raw")%string in
  col ← getitem text_col df;
  texts ← astype_str (fillna [] col);
  let df :=
    set_col norm_col (CStr <$> ((fun t => normalize_text (CStr t)) <$> texts)) df in
  col ← getitem text_col df;
  texts ← astype_str (fillna [] col);
  let df := set_col raw_col (CStr <$> texts) df in
  labels ← getitem "label" df;
  norm ← getitem norm_col df;
  raw ← getitem raw_col df;
  inr (set_col "label" (classify_columns rules (str <$> norm) (str <$> raw) labels) df).

Definition apply_rules_vectorized (df : frame) (text_col : string)
    : error + frame :=
  apply_rules_with compiled_rules df text_col.

(** *** The script *)

(** What the files and the console answer to the script: the frame that
    [pd.read_csv(INPUT_FILE, encoding="latin1")] returns or the exception
    it raises, and the exception, if any, that [df.to_csv(OUTPUT_FILE, ...)]
    raises for a frame and that the final [print] raises. *)
Record world := World {
  read_csv : error + frame;
  to_csv : frame → option error;
  print : option error;
}.

(** [name in df.columns] *)
Definition has_col (name : string) (df : frame) : bool :=
  bool_decide (is_Some (cols df !! name)).

(** [df.drop(columns=names)], every name being a column of [df] *)
Definition drop_cols (names : list string) (df : frame) : frame :=
  Frame (nrows df) (foldr delete (cols df) names).

(** [main]: the exception that the script ends with, or the frame that it
    has written when it ends without one. *)
Definition main (w : world) : error + frame :=
  df ← read_csv w;
  if negb (has_col DESCRIPTION_COL df) then
    inl (ValueError ("La columna '" +:+ DESCRIPTION_COL
                     +:+ "' no existe en el archivo CSV"))
  else
    df ← apply_rules_vectorized df DESCRIPTION_COL;
    let norm_col := (DESCRIPTION_COL +:+ "_norm")%string in
    let raw_col := (DESCRIPTION_COL +:+ "_raw")%string in
    let df := drop_cols (filter (fun c => has_col c df) [norm_col; raw_col]) df in
    match to_csv w df with
    | Some e => inl e
    | None =>
      match print w with
      | Some e => inl e
      | None => inr df
      end
    end.

End Classifier.
End Bank.
Export Bank.


(** ** The Unicode tables on Latin-1

    [main] reads the statement with [encoding="latin1"], so every character
    of a description is a code point below 256.  The instance below gives
    Python's answers on these code points and on the ones their NFKD
    decompositions add (combining marks, U+03BC, U+2044). *)

Module Latin1.

Definition in_range (lo hi c : char) : bool := (lo <=? c) && (c <=? hi).

(** Whitespace: the complete list of [str.isspace]. *)
Definition isspace (c : char) : bool :=
  in_range 9 13 c || in_range 28 32 c || (c =? 133) || (c =? 160)
  || (c =? 5760) || in_range 8192 8202 c || (c =? 8232) || (c =? 8233)
  || (c =? 8239) || (c =? 8287) || (c =? 12288).

Definition isdecimal (c : char) : bool := in_range 48 57 c.

(** Letters, digits, the numeric characters of Latin-1 and the underscore. *)
Definition isword (c : char) : bool :=
  in_range 48 57 c || in_range 65 90 c || (c =? 95) || in_range 97 122 c
  || (c =? 170) || (c =? 178) || (c =? 179) || (c =? 181) || (c =? 185)
  || (c =? 186) || in_range 188 190 c || in_range 192 214 c
  || in_range 216 246 c || in_range 248 255 c || (c =? 956).

Definition lower (c : char) : char :=
  if in_range 65 90 c || in_range 192 214 c || in_range 216 222 c then c + 32
  else c.

(** Case-insensitive comparison as [re] does it: equal after lowering, where
    U+0130 and U+212A lower to [i] and [k], or paired by one of the
    equivalences [i]/U+0131, [s]/U+017F, U+00B5/U+03BC. *)
Definition re_lower (c : char) : char :=
  if c =? 304 then 105 else if c =? 8490 then 107 else lower c.

Definition re_class (c : char) : char :=
  if c =? 305 then 105 else if c =? 383 then 115 else if c =? 956 then 181
  else re_lower c.

Definition ci_eq (p c : char) : bool := re_class p =? re_class c.

Definition acute := 769.
Definition grave := 768.
Definition circumflex := 770.
Definition tilde := 771.
Definition macron := 772.
Definition diaeresis := 776.
Definition ring := 778.
Definition cedilla := 807.

(** The compatibility decompositions of Latin-1, by code point. *)
Definition decompositions : list (char * text) := [
  (160, [32]); (168, [32; diaeresis]); (170, [97]); (175, [32; macron]);
  (178, [50]); (179, [51]); (180, [32; acute]); (181, [956]);
  (184, [32; cedilla]); (185, [49]); (186, [111]);
  (188, [49; 8260; 52]); (189, [49; 8260; 50]); (190, [51; 8260; 52]);
  (192, [65; grave]); (193, [65; acute]); (194, [65; circumflex]);
  (195, [65; tilde]); (196, [65; diaeresis]); (197, [65; ring]);
  (199, [67; cedilla]);
  (200, [69; grave]); (201, [69; acute]); (202, [69; circumflex]);
  (203, [69; diaeresis]);
  (204, [73; grave]); (205, [73; acute]); (206, [73; circumflex]);
  (207, [73; diaeresis]);
  (209, [78; tilde]);
  (210, [79; grave]); (211, [79; acute]); (212, [79; circumflex]);
  (213, [79; tilde]); (214, [79; diaeresis]);
  (217, [85; grave]); (218, [85; acute]); (219, [85; circumflex]);
  (220, [85; diaeresis]); (221, [89; acute]);
  (224, [97; grave]); (225, [97; acute]); (226, [97; circumflex]);
  (227, [97; tilde]); (228, [97; diaeresis]); (229, [97; ring]);
  (231, [99; cedilla]);
  (232, [101; grave]); (233, [101; acute]); (234, [101; circumflex]);
  (235, [101; diaeresis]);
  (236, [105; grave]); (237, [105; acute]); (238, [105; circumflex]);
  (239, [105; diaeresis]);
  (241, [110; tilde]);
  (242, [111; grave]); (243, [111; acute]); (244, [111; circumflex]);
  (245, [111; tilde]); (246, [111; diaeresis]);
  (249, [117; grave]); (250, [117; acute]); (251, [117; circumflex]);
  (252, [117; diaeresis]); (253, [121; acute]); (255, [121; diaeresis])
].

Fixpoint decompose (table : list (char * text)) (c : char) : text :=
  match table with
  | [] => [c]
  | (k, d) :: table' => if k =? c then d else decompose table' c
  end.

Definition nfkd (s : text) : text := s ≫= decompose decompositions.

(** The combining marks U+0300..U+036F; U+034F has combining class 0. *)
Definition combining (c : char) : bool := in_range 768 879 c && negb (c =? 847).

#[global] Instance db : UnicodeDB :=
  Build_UnicodeDB isspace isdecimal isword ci_eq (fmap lower) nfkd combining.

(** What [normalize_text] makes of one character before it looks at colons
    and whitespace: its decomposition without the combining marks, and that
    lower-cased. *)
Definition unmarked (c : char) : text :=
  filter (fun d => negb (combining d)) (decompose decompositions c).
Definition folded (c : char) : text := lower <$> unmarked c.

(** The code points of Latin-1. *)
Definition chars : list char := N.of_nat <$> seq 0 256.

(** The lower-case form of [d] is left alone by decomposition, the removal
    of marks and lower-casing, and it is whitespace or a colon exactly when
    [d] is. *)
Definition stable (d : char) : bool :=
  let o := lower d in
  bool_decide (unmarked o = [o]) && (lower o =? o)
  && eqb (isspace o) (isspace d) && eqb (o =? 58) (d =? 58).

End Latin1.

(** ** The specification's vocabulary

    Definitions that follow the words of the specification, to state its
    claims with and to compare with the program's. *)

Module Spec.
Section Spec.
Context `{UnicodeDB}.

(** The raw text of a record: its description as a string, the empty
    string when the description is missing. *)
Definition raw_text (d : cell) : text := str (if isna d then CStr [] else d).

(** The normalised text of a record. *)
Definition norm_text (d : cell) : text := normalize_text (CStr (raw_text d)).

(** The label column of a column of descriptions once the loop has gone
    through [rules]. *)
Definition labels_after (rules : list (pattern * text * text))
    (descriptions : list cell) : list cell :=
  run_rules rules (norm_text <$> descriptions) (raw_text <$> descriptions)
            (replicate (List.length descriptions) CNone).

(** [classify(records, rules)]: the labels of a column of descriptions. *)
Definition classify (rules : list (pattern * text * text))
    (descriptions : list cell) : list cell :=
  classify_columns rules (norm_text <$> descriptions) (raw_text <$> descriptions)
                   (replicate (List.length descriptions) CNone).

(** The description column as the function reads it: after the label
    column has been reset. *)
Definition read_descriptions (df : frame) (text_col : string) : option (list cell) :=
  get_col text_col (set_col "label" (replicate (nrows df) CNone) df).

(** Every colon becomes a space. *)
Definition replace_colons (s : text) : text :=
  (fun c => if c =? 58 then 32 else c) <$> s.

(** Every run of whitespace becomes one space; [in_run] tells that the
    character before was whitespace. *)
Fixpoint collapse_from (in_run : bool) (s : text) : text :=
  match s with
  | [] => []
  | c :: s' =>
    if isspace c then
      if in_run then collapse_from true s' else 32 :: collapse_from true s'
    else c :: collapse_from false s'
  end.

Definition collapse_ws (s : text) : text := collapse_from false s.


(** The cleaning of a captured fragment. *)
Definition clean_fragment (g : text) : text :=
  strip (sub re_spaces (u " ") (sub re_pipe (u " ") (strip g))).

(** The families of templates that a label with a fragment is built for. *)
Inductive template_kind :=
| Placeholder      (** the template contains the token *)
| Transfer         (** SPEI sent or received *)
| Refund           (** refund of a transfer *)
| Withdrawal       (** withdrawal of funds *)
| Other.

Definition kind_of (label : text) : template_kind :=
  let low := str_lower label in
  if contains (u "****") label then Placeholder
  else if startswith (u "spei enviado") low || startswith (u "spei recibido") low
  then Transfer
  else if startswith (u "devolución de spei") low then Refund
  else if startswith (u "retiro de recursos") low then Withdrawal
  else Other.

Definition label_of (label fragment : text) : text :=
  match kind_of label with
  | Placeholder => replace (u "****") fragment label
  | Transfer | Refund => label ++ u ": " ++ fragment
  | Withdrawal => label ++ u " Beneficiario " ++ fragment
  | Other => label ++ u " " ++ fragment
  end.

(** The kinds of rule. *)
Definition has_group (p : pattern) : bool := (0 <? groups p)%nat.
Definition is_raw (label : text) : bool := bool_decide (label ∈ RAW_LABEL_SET).

(** The raw text as a raw-passthrough rule with this label rewrites it. *)
Definition passthrough (label raw : text) : text :=
  strip (if bool_decide (label = u "__RAW__por_mxn_cargo")
         then sub re_cargo_prefix [] raw else raw).

(** The label that a rule gives to one unset record with normalised text
    [n] and raw text [r], if it gives one; [fallback] tells that a
    group-bearing rule extracts from the normalised text. *)
Definition rule_label (rule : pattern * text * text) (fallback : bool)
    (n r : text) : option text :=
  let '(p, label, _) := rule in
  if has_group p then
    let row := str_extract p (if fallback then n else r) in
    if row_kept row then Some (build_label label (hd None row)) else None
  else if is_raw label then
    if str_contains p r then Some (passthrough label r) else None
  else
    if str_contains p n then Some label else None.

(** The raw-text pass of a group-bearing pattern captures nothing in the
    whole unset subset. *)
Definition raw_pass_empty (p : pattern) (raw : list text) (labels : list cell)
    : bool :=
  dropna_empty (extract_loc p (isna <$> labels) raw).

(** What the label [l] of a record with normalised text [n] and raw text [r]
    can come from. *)
Inductive outcome (rules : list (pattern * text * text)) (n r : text)
    : text → Prop :=
| Literal p label debug :
    (p, label, debug) ∈ rules →
    outcome rules n r label
| Templated p label debug t g :
    (p, label, debug) ∈ rules → has_group p = true →
    t = n ∨ t = r → hd None (str_extract p t) = Some g →
    outcome rules n r (build_label label (Some g))
| Passthrough p label debug :
    (p, label, debug) ∈ rules → has_group p = false → is_raw label = true →
    str_contains p r = true →
    outcome rules n r (passthrough label r)
| Unknown :
    outcome rules n r (u "UNKNOWN").

(** The rule of the program's table at position [k], from 0, and its
    pattern. *)
Definition rule_at (k : nat) : pattern * text * text :=
  nth k compiled_rules (Pattern "" true false Empty, [], []).
Definition pattern_at (k : nat) : pattern := (rule_at k).1.1.

(** A label with property [P], or no label yet. *)
Definition unset_or (P : text → Prop) (l : cell) : Prop :=
  l = CNone ∨ ∃ t, l = CStr t ∧ P t.

(** The template starts with a character other than the one the token
    starts with. *)
Definition starts_plain (label : text) : bool :=
  match label with
  | c :: _ => negb (c =? 42)
  | [] => false
  end.

(** The literal that an expression starts with, when it starts with one. *)
Fixpoint first_lit (r : regex) : option char :=
  match r with
  | Lit c => Some c
  | Cat r1 _ => first_lit r1
  | _ => None
  end.

(** A rule whose labels are not empty by their form: a template that
    starts with a plain character, or a passthrough of a raw text in which
    a pattern starting with the letter p was found.  The amount-and-cargo
    rule is set apart. *)
Definition label_form_ok (rule : pattern * text * text) : bool :=
  let '(p, label, _) := rule in
  if has_group p then starts_plain label
  else if is_raw label then
    bool_decide (label = u "__RAW__por_mxn_cargo")
    || (ignorecase p && bool_decide (first_lit (re p) = Some (ch "p")))
  else starts_plain label.

(** A rule that cannot give a label to a record with normalised text [n]
    and raw text [r], whichever text it extracts from. *)
Definition cannot_label (n r : text) (rule : pattern * text * text) : bool :=
  bool_decide (rule_label rule false n r = None)
  && bool_decide (rule_label rule true n r = None).

(** An expression that takes at least one character whenever it matches. *)
Fixpoint consuming (r : regex) : bool :=
  match r with
  | Lit _ | Dot | Cls _ | Digit | Space => true
  | Cat r1 r2 => consuming r1 || consuming r2
  | Rep _ lo _ r1 => (0 <? lo)%nat && consuming r1
  | Group _ r1 => consuming r1
  | Empty | Bol | Wordb => false
  end.

(** Every repeated expression takes at least one character per iteration. *)
Fixpoint well_repeated (r : regex) : bool :=
  match r with
  | Cat r1 r2 => well_repeated r1 && well_repeated r2
  | Rep _ _ _ r1 => consuming r1 && well_repeated r1
  | Group _ r1 => well_repeated r1
  | _ => true
  end.

(** A matcher that reaches its continuation only where no more of the
    subject is left than at its start, respectively where less is left. *)
Definition local (m : mstate → cont → option mstate) : Prop :=
  ∀ s k k',
    (∀ s', (List.length (rest s') ≤ List.length (rest s))%nat → k s' = k' s') →
    m s k = m s k'.
Definition shrinks (m : mstate → cont → option mstate) : Prop :=
  ∀ s k k',
    (∀ s', (List.length (rest s') < List.length (rest s))%nat → k s' = k' s') →
    m s k = m s k'.

(** The patterns of the program. *)
Definition program_patterns : list pattern :=
  [re_spaces; re_pipe; re_cargo_prefix]
  ++ ((fun rule : pattern * text * text => rule.1.1) <$> compiled_rules).

(** The length of the run of whitespace that a text starts with. *)
Fixpoint span_ws (s : text) : nat :=
  match s with
  | c :: s' => if isspace c then S (span_ws s') else O
  | [] => O
  end.

(** The first label that the rules of a table, in order, give to a record
    on the text each of them examines first. *)
Fixpoint first_label (rules : list (pattern * text * text)) (n r : text)
    : option text :=
  match rules with
  | [] => None
  | rule :: rules' =>
    match rule_label rule false n r with
    | Some t => Some t
    | None => first_label rules' n r
    end
  end.

(** No group-bearing rule of the table captures from the normalised text
    of the record without capturing from its raw text. *)
Definition raw_first (rules : list (pattern * text * text)) (n r : text) : Prop :=
  ∀ p label debug,
    (p, label, debug) ∈ rules → has_group p = true →
    row_kept (str_extract p n) = true → row_kept (str_extract p r) = true.

(** The loop without its [break]. *)
Definition fold_rules (rules : list (pattern * text * text)) (norm raw : list text)
    (labels : list cell) : list cell :=
  foldl (fun labels rule => apply_rule rule norm raw labels) labels rules.

(** A text that neither starts nor ends with whitespace. *)
Definition starts_tight (s : text) : bool :=
  match s with
  | c :: _ => negb (isspace c)
  | [] => true
  end.
Definition tight (s : text) : bool := starts_tight s && starts_tight (rev s).

(** A text without two whitespace characters in a row. *)
Fixpoint spaced (s : text) : bool :=
  match s with
  | a :: s' =>
    match s' with
    | b :: _ => negb (isspace a && isspace b)
    | [] => true
    end && spaced s'
  | [] => true
  end.

(** A text as [main] reads it: decoded from Latin-1. *)
Definition latin1_text (s : text) : Prop := Forall (fun c => c < 256) s.

(** No value of the column makes [str] raise. *)
Definition printable (col : list cell) : Prop :=
  Forall (fun c => str_error c = None) col.

(** The function [f] on characters keeps what the cleaning steps look at:
    whether the character [d] is whitespace and whether it is a colon. *)
Definition keeps (f : char → char) (d : char) : Prop :=
  isspace (f d) = isspace d ∧ (f d =? 58) = (d =? 58).

End Spec.
End Spec.
Export Spec.

(** ** The loop, one record at a time *)

Section LoopFacts.
Context `{UnicodeDB}.
Implicit Types (rule : pattern * text * text) (rules : list (pattern * text * text)).
Implicit Types (norm raw : list text) (labels : list cell) (i j : nat).
Implicit Types (p : pattern) (l : cell) (n r t : text).

Lemma lookup_map3 {A B C D} (f : A → B → C → D) (la : list A) (lb : list B)
    (lc : list C) i a b c :
  la !! i = Some a → lb !! i = Some b → lc !! i = Some c →
  map3 f la lb lc !! i = Some (f a b c).
Proof.
  intros Ha Hb Hc. unfold map3.
  rewrite !lookup_zip_with, Ha, Hb, Hc. reflexivity.
Qed.

Lemma length_map3 {A B C D} (f : A → B → C → D) (la : list A) (lb : list B)
    (lc : list C) :
  List.length la = List.length lc → List.length lb = List.length lc →
  List.length (map3 f la lb lc) = List.length lc.
Proof.
  intros Ha Hb. unfold map3. rewrite !length_zip_with. lia.
Qed.

Lemma dropna_empty_true (ex : list (option row)) :
  dropna_empty ex = true ↔ ∀ j o, ex !! j = Some o → kept o = false.
Proof.
  unfold dropna_empty. rewrite forallb_forall. split.
  - intros Hall j o Hj. apply negb_true_iff, Hall.
    apply list_elem_of_In, list_elem_of_lookup. eauto.
  - intros Hall o Hin. apply list_elem_of_In, list_elem_of_lookup in Hin.
    destruct Hin as [j Hj]. apply negb_true_iff. eauto.
Qed.

Lemma lookup_extract_loc p (mask : list bool) (col : list text) j (m : bool) t :
  mask !! j = Some m → col !! j = Some t →
  extract_loc p mask col !! j = Some (if m then Some (str_extract p t) else None).
Proof.
  intros Hm Ht. unfold extract_loc. rewrite lookup_zip_with, Hm, Ht. reflexivity.
Qed.

(** The raw-text pass is empty exactly when no unset record has a capture
    in its raw text. *)
Lemma raw_pass_empty_true p raw labels :
  raw_pass_empty p raw labels = true ↔
  ∀ j r, labels !! j = Some CNone → raw !! j = Some r →
         row_kept (str_extract p r) = false.
Proof.
  unfold raw_pass_empty. rewrite dropna_empty_true. split.
  - intros Hall j r Hl Hr.
    apply (Hall j (Some (str_extract p r))).
    erewrite lookup_extract_loc; [| rewrite list_lookup_fmap, Hl; reflexivity | exact Hr].
    reflexivity.
  - intros Hall j o Hj. unfold extract_loc in Hj.
    apply lookup_zip_with_Some in Hj as (m & t & -> & Hm & Ht).
    rewrite list_lookup_fmap in Hm.
    destruct (labels !! j) as [l|] eqn:Hl; [| discriminate].
    injection Hm as <-. destruct l; simpl; try reflexivity. eauto.
Qed.

Lemma raw_pass_empty_false p raw labels j r :
  labels !! j = Some CNone → raw !! j = Some r →
  row_kept (str_extract p r) = true →
  raw_pass_empty p raw labels = false.
Proof.
  intros Hl Hr Hk. apply not_true_iff_false. intros He.
  unfold raw_pass_empty in He. rewrite dropna_empty_true in He.
  specialize (He j (Some (str_extract p r))).
  erewrite lookup_extract_loc in He;
    [| rewrite list_lookup_fmap, Hl; reflexivity | exact Hr].
  simpl in He. rewrite He in Hk; [discriminate | reflexivity].
Qed.

(** One turn of the loop at one record: a record with a label keeps it, an
    unset record takes the label the rule gives it, if any. *)
Lemma apply_rule_lookup rule norm raw labels i l n r :
  labels !! i = Some l → norm !! i = Some n → raw !! i = Some r →
  apply_rule rule norm raw labels !! i =
  Some (if isna l
        then from_option CStr l
               (rule_label rule (raw_pass_empty (rule.1.1) raw labels) n r)
        else l).
Proof.
  intros Hl Hn Hr. destruct rule as [[p label] debug].
  unfold apply_rule, rule_label, has_group, is_raw, passthrough, raw_pass_empty.
  simpl. destruct (0 <? groups p)%nat.
  - rewrite lookup_zip_with.
    destruct (dropna_empty _).
    + erewrite lookup_extract_loc;
        [| rewrite list_lookup_fmap, Hl; reflexivity | exact Hn].
      simpl. rewrite Hl. simpl.
      destruct (isna l); simpl; [| reflexivity].
      destruct (row_kept _); reflexivity.
    + erewrite lookup_extract_loc;
        [| rewrite list_lookup_fmap, Hl; reflexivity | exact Hr].
      simpl. rewrite Hl. simpl.
      destruct (isna l); simpl; [| reflexivity].
      destruct (row_kept _); reflexivity.
  - destruct (bool_decide (label ∈ RAW_LABEL_SET)).
    + erewrite lookup_map3;
        [| rewrite list_lookup_fmap, Hl; reflexivity | exact Hr | exact Hl].
      destruct (isna l); simpl; [| reflexivity].
      destruct (str_contains p r); reflexivity.
    + erewrite lookup_map3;
        [| rewrite list_lookup_fmap, Hl; reflexivity | exact Hn | exact Hl].
      destruct (isna l); simpl; [| reflexivity].
      destruct (str_contains p n); reflexivity.
Qed.

Lemma length_apply_rule rule norm raw labels :
  List.length norm = List.length labels → List.length raw = List.length labels →
  List.length (apply_rule rule norm raw labels) = List.length labels.
Proof.
  intros Hn Hr. destruct rule as [[p label] debug]. unfold apply_rule.
  destruct (0 <? groups p)%nat.
  - destruct (dropna_empty _); unfold extract_loc;
      rewrite !length_zip_with, length_fmap; lia.
  - destruct (bool_decide _); apply length_map3; rewrite ?length_fmap; lia.
Qed.

Lemma length_run_rules rules norm raw labels :
  List.length norm = List.length labels → List.length raw = List.length labels →
  List.length (run_rules rules norm raw labels) = List.length labels.
Proof.
  revert labels. induction rules as [|rule rules IH]; intros labels Hn Hr; simpl.
  - reflexivity.
  - destruct (negb (existsb isna labels)); [reflexivity |].
    rewrite IH; rewrite length_apply_rule; auto.
Qed.

(** A loop that finds no unset record changes nothing. *)
Lemma run_rules_done rules norm raw labels :
  existsb isna labels = false → run_rules rules norm raw labels = labels.
Proof.
  intros Hdone. destruct rules; simpl; [reflexivity |]. rewrite Hdone. reflexivity.
Qed.

(** The loop over a table is the loop over its first rules, then over the
    rest. *)
Lemma run_rules_app rules1 rules2 norm raw labels :
  run_rules (rules1 ++ rules2) norm raw labels =
  run_rules rules2 norm raw (run_rules rules1 norm raw labels).
Proof.
  revert labels. induction rules1 as [|rule rules1 IH]; intros labels; simpl.
  - reflexivity.
  - destruct (existsb isna labels) eqn:Hany; simpl.
    + apply IH.
    + symmetry. apply run_rules_done. exact Hany.
Qed.

(** A record with a label keeps it to the end of the loop. *)
Lemma run_rules_keeps rules norm raw labels i l :
  List.length norm = List.length labels → List.length raw = List.length labels →
  labels !! i = Some l → isna l = false →
  run_rules rules norm raw labels !! i = Some l.
Proof.
  revert labels. induction rules as [|rule rules IH]; intros labels Hn Hr Hl Hna; simpl.
  - exact Hl.
  - destruct (negb (existsb isna labels)); [exact Hl |].
    destruct (lookup_lt_is_Some_2 norm i) as [n Hni].
    { rewrite Hn. eapply lookup_lt_Some, Hl. }
    destruct (lookup_lt_is_Some_2 raw i) as [r Hri].
    { rewrite Hr. eapply lookup_lt_Some, Hl. }
    apply IH; rewrite ?length_apply_rule; auto.
    erewrite apply_rule_lookup by eauto. rewrite Hna. reflexivity.
Qed.

Lemma lookup_fillna v labels i l :
  labels !! i = Some l →
  fillna v labels !! i = Some (if isna l then CStr v else l).
Proof. intros Hl. unfold fillna. rewrite list_lookup_fmap, Hl. reflexivity. Qed.

End LoopFacts.

(** ** Labels and where they come from *)

Section OutcomeFacts.
Context `{UnicodeDB}.
Implicit Types (rule : pattern * text * text) (rules : list (pattern * text * text)).
Implicit Types (norm raw : list text) (labels : list cell) (i j : nat).
Implicit Types (p : pattern) (l d : cell) (n r t : text).

Lemma rule_label_outcome rules rule fallback n r t :
  rule ∈ rules → rule_label rule fallback n r = Some t → outcome rules n r t.
Proof.
  intros Hin. destruct rule as [[p label] debug]. unfold rule_label.
  destruct (has_group p) eqn:Hg.
  - destruct (row_kept _); [| discriminate]. intros [= <-].
    destruct (hd None _) as [g|] eqn:Hhd.
    + eapply Templated with (t := if fallback then n else r); eauto.
      destruct fallback; auto.
    + simpl. eapply Literal; eauto.
  - destruct (is_raw label) eqn:Hraw.
    + destruct (str_contains p r) eqn:Hc; [| discriminate]. intros [= <-].
      eapply Passthrough; eauto.
    + destruct (str_contains p n); [| discriminate]. intros [= <-].
      eapply Literal; eauto.
Qed.

(** Through the loop every label comes from a rule of the table. *)
Lemma run_rules_outcome (P : text → text → text → Prop) rules norm raw labels :
  List.length norm = List.length labels → List.length raw = List.length labels →
  (∀ rule fallback n r t,
     rule ∈ rules → rule_label rule fallback n r = Some t → P n r t) →
  (∀ i l n r, labels !! i = Some l → norm !! i = Some n → raw !! i = Some r →
              unset_or (P n r) l) →
  ∀ i l n r, run_rules rules norm raw labels !! i = Some l →
             norm !! i = Some n → raw !! i = Some r → unset_or (P n r) l.
Proof.
  revert labels. induction rules as [|rule rules IH]; intros labels Hn Hr HP Hinv; simpl.
  - exact Hinv.
  - destruct (negb (existsb isna labels)); [exact Hinv |].
    apply IH; rewrite ?length_apply_rule; auto.
    + intros rule' fb n r t Hin. apply HP. right. exact Hin.
    + intros i l n r Hl Hni Hri.
      destruct (lookup_lt_is_Some_2 labels i) as [l0 Hl0].
      { rewrite <- Hn. eapply lookup_lt_Some, Hni. }
      erewrite apply_rule_lookup in Hl by eauto. injection Hl as <-.
      destruct (isna l0) eqn:Hna; [| eauto].
      destruct (rule_label _ _ n r) as [t|] eqn:Ht; simpl.
      * right. exists t. split; [reflexivity |]. eapply HP; [left | exact Ht].
      * eauto.
Qed.

Lemma lookup_classify_columns rules norm raw labels i l :
  run_rules rules norm raw labels !! i = Some l →
  classify_columns rules norm raw labels !! i
  = Some (if isna l then CStr (u "UNKNOWN") else l).
Proof. intros Hl. unfold classify_columns. apply lookup_fillna, Hl. Qed.

Lemma length_classify rules (ds : list cell) :
  List.length (classify rules ds) = List.length ds.
Proof.
  unfold classify, classify_columns, fillna.
  rewrite length_fmap, length_run_rules; rewrite ?length_fmap, length_replicate; reflexivity.
Qed.

(** The label of a record after classification is a string with property
    [P] as soon as [P] holds of what each rule can give and of the
    sentinel. *)
Lemma classify_outcome (P : text → text → text → Prop) rules (ds : list cell) i d :
  (∀ rule fallback n r t,
     rule ∈ rules → rule_label rule fallback n r = Some t → P n r t) →
  (∀ n r, P n r (u "UNKNOWN")) →
  ds !! i = Some d →
  ∃ t, classify rules ds !! i = Some (CStr t) ∧ P (norm_text d) (raw_text d) t.
Proof.
  intros HP Hunk Hd.
  pose proof (length_run_rules rules (norm_text <$> ds) (raw_text <$> ds)
                (replicate (List.length ds) CNone)) as Hlen.
  rewrite !length_fmap, length_replicate in Hlen.
  specialize (Hlen eq_refl eq_refl).
  destruct (lookup_lt_is_Some_2 (run_rules rules (norm_text <$> ds) (raw_text <$> ds)
              (replicate (List.length ds) CNone)) i) as [l Hl].
  { rewrite Hlen. eapply lookup_lt_Some, Hd. }
  unfold classify. erewrite lookup_classify_columns by exact Hl.
  eapply (run_rules_outcome P) in Hl.
  - destruct Hl as [-> | (t & -> & Ht)]; simpl; eauto.
  - rewrite length_fmap, length_replicate. reflexivity.
  - rewrite length_fmap, length_replicate. reflexivity.
  - exact HP.
  - intros j l0 n r Hj _ _. apply lookup_replicate in Hj as [-> _]. left. reflexivity.
  - rewrite list_lookup_fmap, Hd. reflexivity.
  - rewrite list_lookup_fmap, Hd. reflexivity.
Qed.

End OutcomeFacts.

(** ** Texts, trimming and the patterns of the helpers *)

Section TextFacts.
Context `{UnicodeDB}.
Implicit Types (s t old new : text) (c x : char) (p : pattern).

Lemma lstrip_nil s : lstrip s = [] → ∀ x, x ∈ s → isspace x = true.
Proof.
  induction s as [|c s IH]; simpl; intros Hs x Hx.
  - inversion Hx.
  - destruct (isspace c) eqn:Hc; [| discriminate].
    apply elem_of_cons in Hx as [-> | Hx]; auto.
Qed.

Lemma lstrip_elem s x : x ∈ s → isspace x = false → x ∈ lstrip s.
Proof.
  induction s as [|c s IH]; simpl; intros Hx Hsp; [exact Hx |].
  destruct (isspace c) eqn:Hc; [| exact Hx].
  apply elem_of_cons in Hx as [-> | Hx]; [congruence | auto].
Qed.

Lemma elem_of_rev s x : x ∈ rev s ↔ x ∈ s.
Proof. rewrite !list_elem_of_In. symmetry. apply in_rev. Qed.

(** Trimming keeps every character that is not whitespace. *)
Lemma strip_elem s x : x ∈ s → isspace x = false → x ∈ strip s.
Proof.
  intros Hx Hsp. unfold strip, rstrip.
  apply elem_of_rev, lstrip_elem; [| exact Hsp].
  apply elem_of_rev, lstrip_elem; assumption.
Qed.

Lemma strip_nonempty s x : x ∈ s → isspace x = false → strip s ≠ [].
Proof.
  intros Hx Hsp Hnil. pose proof (strip_elem s x Hx Hsp) as Hin.
  rewrite Hnil in Hin. inversion Hin.
Qed.

(** Replacing one character by another is a map. *)
Lemma replace_colon s : replace (u ":") (u " ") s = replace_colons s.
Proof.
  unfold replace. change (u ":") with [58]. change (u " ") with [32].
  induction s as [|c s IH]; [reflexivity |].
  change (replace_from [58] [32] 0 (c :: s))
    with (if (58 =? c) && true then [32] ++ replace_from [58] [32] 0 s
          else c :: replace_from [58] [32] 0 s).
  change (replace_colons (c :: s))
    with ((if c =? 58 then 32 else c) :: replace_colons s).
  rewrite IH, andb_true_r, N.eqb_sym. destruct (c =? 58); reflexivity.
Qed.

(** A replacement starts where the text does unless an occurrence starts
    there. *)
Lemma replace_head old new c s :
  startswith old (c :: s) = false →
  replace old new (c :: s) = c :: replace old new s.
Proof. intros Hs. unfold replace. simpl. rewrite Hs. reflexivity. Qed.

(** A label built from a template that starts with anything but the first
    character of the token starts like the template. *)
Lemma build_label_head c s g :
  c ≠ 42 → ∃ rest, build_label (c :: s) g = c :: rest.
Proof.
  intros Hc. destruct g as [g|]; [| simpl; eauto]. unfold build_label.
  repeat match goal with |- context [if ?b then _ else _] => destruct b end;
    try (simpl; eauto; fail).
  rewrite replace_head; [eauto |].
  change (u "****") with [42; 42; 42; 42].
  change (startswith [42; 42; 42; 42] (c :: s))
    with ((42 =? c) && startswith [42; 42; 42] s).
  destruct (42 =? c) eqn:E; [apply N.eqb_eq in E; congruence | reflexivity].
Qed.

End TextFacts.

Section FuelFacts.
Context `{UnicodeDB}.
Implicit Types (m : mstate → cont → option mstate) (s : mstate) (k : cont).
Implicit Types (r : regex).

(** The bound on iterations

    The matcher bounds the iterations of an unbounded repetition by the
    length of what is left of the subject.  For a repeated expression that
    takes at least one character per iteration, as all those of the program
    do, the bound is never reached before the repetition stops by itself:
    any larger bound gives the same result. *)

Lemma shrinks_local m : shrinks m → local m.
Proof. intros Hm s k k' Hk. apply Hm. intros s' Hs'. apply Hk. lia. Qed.

Lemma one_shrinks test : shrinks (one test).
Proof.
  intros s k k' Hk. unfold one. destruct (rest s) as [|c t] eqn:Hr; [reflexivity |].
  destruct (test c); [| reflexivity]. apply Hk. simpl. lia.
Qed.

Lemma rep_loop_local m greedy lo fuel cnt :
  local m → local (rep_loop m greedy lo fuel cnt).
Proof.
  intros Hm. revert cnt. induction fuel as [|fuel IH]; intros cnt s k k' Hk; simpl.
  - rewrite (Hk s) by lia. reflexivity.
  - rewrite (Hk s) by lia.
    rewrite (Hm s (fun s' => rep_loop m greedy lo fuel (S cnt) s' k)
                  (fun s' => rep_loop m greedy lo fuel (S cnt) s' k')).
    + reflexivity.
    + intros s' Hs'. apply IH. intros s'' Hs''. apply Hk. lia.
Qed.

Lemma rep_loop_shrinks m greedy lo fuel cnt :
  shrinks m → (cnt < lo)%nat → shrinks (rep_loop m greedy lo fuel cnt).
Proof.
  intros Hm Hcnt s k k' Hk.
  assert (Hlo : (lo <=? cnt)%nat = false) by (apply Nat.leb_gt; lia).
  destruct fuel as [|fuel]; simpl; rewrite Hlo; [reflexivity |].
  rewrite (Hm s (fun s' => rep_loop m greedy lo fuel (S cnt) s' k)
                (fun s' => rep_loop m greedy lo fuel (S cnt) s' k')).
  - reflexivity.
  - intros s' Hs'. apply rep_loop_local; [apply shrinks_local, Hm |].
    intros s'' Hs''. apply Hk. lia.
Qed.

Lemma mtch_local ic fl r : local (mtch ic fl r).
Proof.
  induction r; simpl;
    try (apply shrinks_local, one_shrinks);
    try (intros s k k' Hk; rewrite (Hk s) by lia; reflexivity).
  - intros s k k' Hk. apply IHr1. intros s' Hs'. apply IHr2.
    intros s'' Hs''. apply Hk. lia.
  - intros s k k' Hk. apply rep_loop_local; assumption.
  - intros s k k' Hk. apply IHr. intros s' Hs'. apply Hk. exact Hs'.
Qed.

Lemma mtch_shrinks ic fl r : consuming r = true → shrinks (mtch ic fl r).
Proof.
  induction r; simpl; intros Hc; try discriminate; try apply one_shrinks.
  - intros s k k' Hk. apply orb_true_iff in Hc as [Hc | Hc].
    + apply (IHr1 Hc). intros s' Hs'. apply mtch_local.
      intros s'' Hs''. apply Hk. lia.
    + apply mtch_local. intros s' Hs'. apply (IHr2 Hc).
      intros s'' Hs''. apply Hk. lia.
  - apply andb_true_iff in Hc as [Hlo Hc]. apply Nat.ltb_lt in Hlo.
    intros s k k' Hk. apply rep_loop_shrinks; auto.
  - intros s k k' Hk. apply (IHr Hc). intros s' Hs'. apply Hk. exact Hs'.
Qed.

(** A matcher gives a result only through its continuation. *)
Lemma rep_loop_no_result m greedy lo fuel cnt s :
  local m → (∀ s', m s' (fun _ => None) = None) →
  rep_loop m greedy lo fuel cnt s (fun _ => None) = None.
Proof.
  intros Hm Hnone. revert cnt s. induction fuel as [|fuel IH]; intros cnt s; simpl.
  - destruct (lo <=? cnt)%nat; reflexivity.
  - rewrite (Hm s _ (fun _ => None)) by (intros s' _; apply IH).
    rewrite Hnone. destruct greedy; destruct (lo <=? cnt)%nat; reflexivity.
Qed.

Lemma mtch_no_result ic fl r s : mtch ic fl r s (fun _ => None) = None.
Proof.
  revert s. induction r; intros s; simpl;
    try (unfold one; destruct (rest s) as [|x t]; [reflexivity |];
         match goal with |- context [if ?b then _ else _] => destruct b end;
         reflexivity).
  - reflexivity.
  - destruct (before s); reflexivity.
  - destruct (xorb _ _); reflexivity.
  - rewrite (mtch_local ic fl r1 s _ (fun _ => None)) by (intros s' _; apply IHr2).
    apply IHr1.
  - apply rep_loop_no_result; [apply mtch_local | exact IHr].
  - apply IHr.
Qed.

Lemma rep_loop_one_more m greedy lo fuel cnt s k :
  shrinks m → (∀ s', m s' (fun _ => None) = None) →
  (List.length (rest s) ≤ fuel)%nat →
  rep_loop m greedy lo (S fuel) cnt s k = rep_loop m greedy lo fuel cnt s k.
Proof.
  intros Hm Hnone. revert cnt s. induction fuel as [|fuel IH]; intros cnt s Hlen.
  - assert (Hend : ∀ k', m s k' = None).
    { intros k'. rewrite (Hm s k' (fun _ => None)); [apply Hnone |].
      intros s' Hs'. lia. }
    simpl. rewrite Hend.
    destruct greedy; destruct (lo <=? cnt)%nat; try reflexivity.
    destruct (k s); reflexivity.
  - change (rep_loop m greedy lo (S (S fuel)) cnt s k)
      with (if greedy then
              match m s (fun s' => rep_loop m greedy lo (S fuel) (S cnt) s' k) with
              | Some e => Some e
              | None => if (lo <=? cnt)%nat then k s else None
              end
            else
              match (if (lo <=? cnt)%nat then k s else None) with
              | Some e => Some e
              | None => m s (fun s' => rep_loop m greedy lo (S fuel) (S cnt) s' k)
              end).
    rewrite (Hm s (fun s' => rep_loop m greedy lo (S fuel) (S cnt) s' k)
                  (fun s' => rep_loop m greedy lo fuel (S cnt) s' k)).
    + reflexivity.
    + intros s' Hs'. apply IH. lia.
Qed.

(** An unbounded repetition of an expression that takes a character per
    iteration gives the same result under any bound on its iterations that
    is at least the bound of the matcher. *)
Lemma rep_fuel_enough ic fl greedy lo r s k fuel :
  consuming r = true →
  (lo + List.length (rest s) ≤ fuel)%nat →
  rep_loop (mtch ic fl r) greedy lo fuel O s k
  = mtch ic fl (Rep greedy lo None r) s k.
Proof.
  intros Hc Hfuel. simpl.
  replace fuel with ((fuel - (lo + List.length (rest s))) + (lo + List.length (rest s)))%nat
    by lia.
  induction (fuel - (lo + List.length (rest s)))%nat as [|extra IH]; [reflexivity |].
  rewrite <- IH. apply rep_loop_one_more.
  - apply mtch_shrinks, Hc.
  - intros s'. apply mtch_no_result.
  - lia.
Qed.

(** Every repetition in the patterns of the program is of such an
    expression. *)
Lemma program_patterns_well_repeated :
  forallb (fun p => well_repeated (re p)) program_patterns = true.
Proof. vm_compute. reflexivity. Qed.

End FuelFacts.

Section RegexFacts.
Context `{UnicodeDB}.
Implicit Types (s t : text) (c x : char) (p : pattern) (r : regex).

(** A match of an expression that starts with a literal starts at a
    character that passes the literal's test. *)
Lemma mtch_first_lit ic fl r c st k e :
  first_lit r = Some c → mtch ic fl r st k = Some e →
  ∃ x t, rest st = x :: t ∧ lit_test ic c x = true.
Proof.
  revert st k. induction r; intros st k Hf Hm; try discriminate.
  - injection Hf as ->. simpl in Hm. unfold one in Hm.
    destruct (rest st) as [|x t]; [discriminate |].
    destruct (lit_test ic c x) eqn:Ht; [eauto | discriminate].
  - simpl in Hf, Hm. eapply IHr1; eauto.
Qed.

Lemma search_from_first_lit p c bef rst e :
  first_lit (re p) = Some c → search_from p bef rst = Some e →
  ∃ x, x ∈ rst ∧ lit_test (ignorecase p) c x = true.
Proof.
  intros Hf. revert bef. induction rst as [|y rst IH]; intros bef; simpl.
  - destruct (match_at p bef []) eqn:Hm; [| discriminate]. intros _.
    eapply mtch_first_lit in Hm as (x & t & Hr & _); eauto. discriminate.
  - destruct (match_at p bef (y :: rst)) eqn:Hm.
    + intros _. eapply mtch_first_lit in Hm as (x & t & Hr & Hx); eauto.
      simpl in Hr. injection Hr as <- <-. exists y. split; [left | exact Hx].
    + intros Hs. apply IH in Hs as (x & Hx & Ht). exists x. split; [right |]; auto.
Qed.

(** Containment: a pattern is found in a text exactly when it matches from
    some position of the text, whatever precedes and whatever follows the
    match. *)
Lemma search_from_eq p bef rst :
  search_from p bef rst =
  match match_at p bef rst with
  | Some e => Some e
  | None =>
    match rst with
    | [] => None
    | c :: rst' => search_from p (c :: bef) rst'
    end
  end.
Proof. destruct rst; reflexivity. Qed.

Lemma search_from_is_Some p bef rst :
  is_Some (search_from p bef rst) ↔
  ∃ a b, rst = a ++ b ∧ is_Some (match_at p (rev a ++ bef) b).
Proof.
  split.
  - revert bef. induction rst as [|c rst IH]; intros bef; rewrite search_from_eq.
    + destruct (match_at p bef []) eqn:Hm; [| intros [? [=]]].
      intros _. exists [], []. split; [reflexivity |]. rewrite app_nil_l, Hm. eauto.
    + destruct (match_at p bef (c :: rst)) eqn:Hm.
      * intros _. exists [], (c :: rst). split; [reflexivity |].
        rewrite app_nil_l, Hm. eauto.
      * intros Hs. apply IH in Hs as (a & b & -> & Hb).
        exists (c :: a), b. split; [reflexivity |].
        change (rev (c :: a)) with (rev a ++ [c]). rewrite <- app_assoc. exact Hb.
  - intros (a & b & -> & Hb). revert bef Hb.
    induction a as [|c a IH]; intros bef Hb; rewrite search_from_eq.
    + rewrite app_nil_l in *. change (rev [] ++ bef) with bef in Hb.
      destruct Hb as [e He]. rewrite He. eauto.
    + destruct (match_at p bef ((c :: a) ++ b)); [eauto |].
      change ((c :: a) ++ b) with (c :: (a ++ b)). cbv iota.
      apply IH. change (rev (c :: a)) with (rev a ++ [c]) in Hb.
      rewrite <- app_assoc in Hb. exact Hb.
Qed.

Lemma str_contains_iff p t :
  str_contains p t = true ↔
  ∃ a b, t = a ++ b ∧ is_Some (match_at p (rev a) b).
Proof.
  unfold str_contains, search. rewrite bool_decide_eq_true, search_from_is_Some.
  split; intros (a & b & Ht & Hm); exists a, b; split; auto;
    rewrite ?app_nil_r in *; exact Hm.
Qed.

(** A text in which a pattern that starts with a literal is found has a
    character that passes the literal's test. *)
Lemma str_contains_first_lit p c t :
  first_lit (re p) = Some c → str_contains p t = true →
  ∃ x, x ∈ t ∧ lit_test (ignorecase p) c x = true.
Proof.
  intros Hf Hc. unfold str_contains in Hc. apply bool_decide_eq_true in Hc.
  destruct Hc as [e He]. eapply search_from_first_lit; eauto.
Qed.

(** [\s+] at a position takes the whole run of whitespace there. *)
Lemma rep_loop_spaces fuel cnt bef rst cs :
  (List.length rst < fuel)%nat →
  rep_loop (mtch false false Space) true 1 fuel cnt (MState bef rst cs) Some =
  if (0 <? cnt + span_ws rst)%nat
  then Some (MState (rev (take (span_ws rst) rst) ++ bef) (drop (span_ws rst) rst) cs)
  else None.
Proof.
  revert fuel cnt bef. induction rst as [|c rst IH]; intros fuel cnt bef Hfuel.
  - destruct fuel as [|fuel]; [simpl in Hfuel; lia |]. simpl.
    rewrite Nat.add_0_r. destruct cnt; reflexivity.
  - destruct fuel as [|fuel]; [simpl in Hfuel; lia |]. simpl in Hfuel.
    simpl. unfold one. simpl. destruct (isspace c) eqn:Hc.
    + rewrite IH by lia. simpl.
      replace (0 <? cnt + S (span_ws rst))%nat with true
        by (symmetry; apply Nat.ltb_lt; lia).
      rewrite <- app_assoc. reflexivity.
    + rewrite Nat.add_0_r. destruct cnt; reflexivity.
Qed.

Lemma match_at_spaces bef rst :
  match_at re_spaces bef rst =
  if (0 <? span_ws rst)%nat
  then Some (MState (rev (take (span_ws rst) rst) ++ bef) (drop (span_ws rst) rst) [])
  else None.
Proof.
  unfold match_at.
  change (mtch _ _ _ _ Some)
    with (rep_loop (mtch false false Space) true 1 (1 + List.length rst) 0
                   (MState bef rst []) Some).
  rewrite rep_loop_spaces by (simpl; lia). reflexivity.
Qed.

Lemma span_ws_le s : (span_ws s ≤ List.length s)%nat.
Proof. induction s as [|c s IH]; simpl; [lia |]. destruct (isspace c); simpl; lia. Qed.

Lemma sub_from_O p repl bef rst :
  sub_from p repl O bef rst =
  match match_at p bef rst with
  | Some e =>
    match rst with
    | [] => repl
    | c :: rst' =>
      match (List.length rst - List.length (rest e))%nat with
      | O => repl ++ c :: sub_from p repl O (c :: bef) rst'
      | S n => repl ++ sub_from p repl n (c :: bef) rst'
      end
    end
  | None =>
    match rst with
    | [] => []
    | c :: rst' => c :: sub_from p repl O (c :: bef) rst'
    end
  end.
Proof. destruct rst; reflexivity. Qed.

Lemma sub_spaces_from s :
  (∀ bef, sub_from re_spaces [32] (span_ws s) bef s = collapse_from true s)
  ∧ (∀ bef, sub_from re_spaces [32] O bef s = collapse_from false s).
Proof.
  induction s as [|c s [IH1 IH2]].
  - split; intros bef; cbn [span_ws]; rewrite sub_from_O, match_at_spaces;
      reflexivity.
  - assert (Hzero : ∀ bef, sub_from re_spaces [32] O bef (c :: s)
                           = collapse_from false (c :: s)).
    { intros bef. rewrite sub_from_O, match_at_spaces. cbn [span_ws collapse_from].
      destruct (isspace c) eqn:Hc.
      - pose proof (span_ws_le s).
        change (0 <? S (span_ws s))%nat with true. cbn [rest drop List.length].
        rewrite length_drop.
        replace (S (List.length s) - (List.length s - span_ws s))%nat
          with (S (span_ws s)) by lia.
        rewrite IH1. reflexivity.
      - change (0 <? 0)%nat with false. cbn iota. rewrite IH2. reflexivity. }
    split; [| exact Hzero].
    intros bef. cbn [span_ws]. destruct (isspace c) eqn:Hc.
    + change (sub_from re_spaces [32] (S (span_ws s)) bef (c :: s))
        with (sub_from re_spaces [32] (span_ws s) (c :: bef) s).
      cbn [collapse_from]. rewrite Hc. apply IH1.
    + rewrite Hzero. cbn [collapse_from]. rewrite Hc. reflexivity.
Qed.

(** Substituting a space for [\s+] collapses every run of whitespace. *)
Lemma sub_spaces s : sub re_spaces (u " ") s = collapse_ws s.
Proof. apply (sub_spaces_from s). Qed.

End RegexFacts.

(** ** The frame and its working columns *)

Section FrameFacts.
Context `{UnicodeDB}.
Implicit Types (df : frame) (name text_col sfx : string) (col : list cell).
Implicit Types (rules : list (pattern * text * text)).

Lemma length_append (s1 s2 : string) :
  String.length (s1 +:+ s2) = (String.length s1 + String.length s2)%nat.
Proof. induction s1 as [|a s1 IH]; simpl; [reflexivity |]. rewrite IH. reflexivity. Qed.

Lemma append_inj_r text_col (s1 s2 : string) :
  text_col +:+ s1 = text_col +:+ s2 → s1 = s2.
Proof. induction text_col as [|a t IH]; simpl; [auto |]. intros [= Heq]. auto. Qed.

Lemma norm_col_ne_label text_col : (text_col +:+ "_norm")%string ≠ "label"%string.
Proof.
  intros Heq. pose proof (f_equal String.length Heq) as Hlen.
  rewrite length_append in Hlen. simpl in Hlen.
  destruct text_col; [discriminate | simpl in Hlen; lia].
Qed.

Lemma raw_col_ne_label text_col : (text_col +:+ "_raw")%string ≠ "label"%string.
Proof.
  intros Heq. pose proof (f_equal String.length Heq) as Hlen.
  rewrite length_append in Hlen. simpl in Hlen.
  destruct text_col as [|a [|b t]]; [discriminate | discriminate | simpl in Hlen; lia].
Qed.

Lemma col_ne_suffixed text_col sfx :
  sfx ≠ ""%string → (text_col +:+ sfx)%string ≠ text_col.
Proof.
  intros Hs Heq. pose proof (f_equal String.length Heq) as Hlen.
  rewrite length_append in Hlen. destruct sfx; [congruence | simpl in Hlen; lia].
Qed.

Lemma norm_col_ne_raw_col text_col :
  (text_col +:+ "_norm")%string ≠ (text_col +:+ "_raw")%string.
Proof. intros Heq. apply append_inj_r in Heq. discriminate. Qed.

Lemma bind_Some {A B} (f : A → option B) (x : A) : Some x ≫= f = f x.
Proof. reflexivity. Qed.

Lemma get_set_col name name' col df :
  get_col name (set_col name' col df)
  = if decide (name' = name) then Some col else get_col name df.
Proof. unfold get_col, set_col. simpl. apply lookup_insert. Qed.

Lemma get_set_col_eq name col df : get_col name (set_col name col df) = Some col.
Proof. rewrite get_set_col. destruct (decide _); congruence. Qed.

Lemma get_set_col_ne name name' col df :
  name' ≠ name → get_col name (set_col name' col df) = get_col name df.
Proof. intros Hne. rewrite get_set_col. destruct (decide _); congruence. Qed.

Lemma bind_inr {A B} (f : A → error + B) (x : A) : inr x ≫= f = f x.
Proof. reflexivity. Qed.

(** [astype(str)] returns the string forms when every conversion returns,
    and raises the exception of a conversion otherwise. *)
Lemma astype_str_inr col : printable col → astype_str col = inr (str <$> col).
Proof.
  induction 1 as [|c col Hc _ IH]; [reflexivity |].
  simpl. rewrite Hc, IH. reflexivity.
Qed.

Lemma astype_str_inl col (e : error) :
  astype_str col = inl e → ∃ c, c ∈ col ∧ str_error c = Some e.
Proof.
  induction col as [|c col IH]; simpl; [discriminate |].
  destruct (str_error c) as [e'|] eqn:Hc.
  - intros [= <-]. exists c. split; [left | exact Hc].
  - destruct (astype_str col) as [e'|ts]; [| discriminate].
    intros [= <-]. destruct IH as (c' & Hin & He); [reflexivity |].
    exists c'. split; [right |]; assumption.
Qed.

Lemma astype_str_printable col (ts : list text) :
  astype_str col = inr ts → printable col.
Proof.
  revert ts. induction col as [|c col IH]; intros ts; simpl; [constructor |].
  destruct (str_error c) eqn:Hc; [discriminate |].
  destruct (astype_str col) as [e|ts']; [discriminate |].
  intros _. constructor; [exact Hc | eapply IH; reflexivity].
Qed.

Lemma printable_fillna v col : printable (fillna v col) ↔ printable col.
Proof.
  unfold printable, fillna. rewrite Forall_fmap. apply Forall_iff.
  intros c. simpl. destruct c; simpl; split; auto.
Qed.

Lemma astype_fillna col :
  printable col → astype_str (fillna [] col) = inr (raw_text <$> col).
Proof.
  intros Hcol. rewrite astype_str_inr by (apply printable_fillna, Hcol).
  unfold fillna. rewrite <- list_fmap_compose. reflexivity.
Qed.

Lemma str_CStr (ts : list text) : str <$> (CStr <$> ts) = ts.
Proof. rewrite <- list_fmap_compose. apply list_fmap_id. Qed.

Lemma getitem_Some name df col : get_col name df = Some col → getitem name df = inr col.
Proof. unfold getitem. intros ->. reflexivity. Qed.

(** The frame that the function returns when the description column is
    there and each of its values has a string form: the two working
    columns and the label column are (re)written. *)
Lemma apply_rules_with_Some rules df text_col col :
  read_descriptions df text_col = Some col → printable col →
  apply_rules_with rules df text_col =
  inr (set_col "label"
          (classify_columns rules (norm_text <$> col) (raw_text <$> col)
                            (replicate (nrows df) CNone))
       (set_col (text_col +:+ "_raw") (CStr <$> (raw_text <$> col))
       (set_col (text_col +:+ "_norm") (CStr <$> (norm_text <$> col))
       (set_col "label" (replicate (nrows df) CNone) df)))).
Proof.
  unfold read_descriptions. intros Hcol Hpr. unfold apply_rules_with. cbv zeta.
  rewrite (getitem_Some _ _ _ Hcol), bind_inr.
  rewrite (astype_fillna _ Hpr), bind_inr.
  rewrite (getitem_Some text_col _ col)
    by (rewrite get_set_col_ne by (apply col_ne_suffixed; discriminate); exact Hcol).
  rewrite bind_inr, (astype_fillna _ Hpr), bind_inr.
  rewrite (getitem_Some "label" _ (replicate (nrows df) CNone)).
  2:{ rewrite (get_set_col_ne "label" (text_col +:+ "_raw")) by apply raw_col_ne_label.
      rewrite (get_set_col_ne "label" (text_col +:+ "_norm")) by apply norm_col_ne_label.
      apply get_set_col_eq. }
  rewrite bind_inr.
  rewrite (getitem_Some (text_col +:+ "_norm") _
             (CStr <$> ((fun t => normalize_text (CStr t)) <$> (raw_text <$> col)))).
  2:{ rewrite (get_set_col_ne (text_col +:+ "_norm") (text_col +:+ "_raw"))
        by (intros Heq; symmetry in Heq; revert Heq; apply norm_col_ne_raw_col).
      apply get_set_col_eq. }
  rewrite bind_inr.
  rewrite (getitem_Some (text_col +:+ "_raw") _ (CStr <$> (raw_text <$> col)))
    by apply get_set_col_eq.
  rewrite bind_inr, !str_CStr.
  rewrite <- (list_fmap_compose raw_text). reflexivity.
Qed.

(** Without the description column the function stops with a [KeyError]. *)
Lemma apply_rules_with_None rules df text_col :
  read_descriptions df text_col = None →
  apply_rules_with rules df text_col = inl (KeyError text_col).
Proof.
  unfold read_descriptions. intros Hcol. unfold apply_rules_with, getitem.
  cbv zeta. rewrite Hcol. reflexivity.
Qed.

(** With a value whose conversion raises, the function stops with the
    exception of the conversion. *)
Lemma apply_rules_with_raises rules df text_col col (e : error) :
  read_descriptions df text_col = Some col →
  astype_str (fillna [] col) = inl e →
  apply_rules_with rules df text_col = inl e.
Proof.
  unfold read_descriptions. intros Hcol He. unfold apply_rules_with. cbv zeta.
  rewrite (getitem_Some _ _ _ Hcol), bind_inr, He. reflexivity.
Qed.

(** The three outcomes of the function. *)
Lemma apply_rules_with_cases rules df text_col :
  (read_descriptions df text_col = None
   ∧ apply_rules_with rules df text_col = inl (KeyError text_col))
  ∨ (∃ col e c, read_descriptions df text_col = Some col
       ∧ c ∈ col ∧ str_error c = Some e
       ∧ apply_rules_with rules df text_col = inl e)
  ∨ (∃ col, read_descriptions df text_col = Some col ∧ printable col
       ∧ apply_rules_with rules df text_col
         = inr (set_col "label"
                  (classify_columns rules (norm_text <$> col) (raw_text <$> col)
                                    (replicate (nrows df) CNone))
               (set_col (text_col +:+ "_raw") (CStr <$> (raw_text <$> col))
               (set_col (text_col +:+ "_norm") (CStr <$> (norm_text <$> col))
               (set_col "label" (replicate (nrows df) CNone) df))))).
Proof.
  destruct (read_descriptions df text_col) as [col|] eqn:Hcol.
  - right. destruct (astype_str (fillna [] col)) as [e|ts] eqn:Hts.
    + left. destruct (astype_str_inl _ _ Hts) as (c & Hin & He).
      unfold fillna in Hin. apply list_elem_of_fmap in Hin as (c0 & -> & Hin).
      exists col, e, c0. split; [reflexivity |]. split; [exact Hin |].
      split; [| eapply apply_rules_with_raises; eauto].
      destruct c0; simpl in He; try discriminate; exact He.
    + right. exists col. split; [reflexivity |].
      assert (Hpr : printable col)
        by (eapply printable_fillna, astype_str_printable, Hts).
      split; [exact Hpr | apply apply_rules_with_Some; assumption].
  - left. split; [reflexivity | apply apply_rules_with_None, Hcol].
Qed.

(** The function leaves the description column as it reads it. *)
Lemma read_descriptions_after rules df text_col df1 :
  apply_rules_with rules df text_col = inr df1 →
  nrows df1 = nrows df
  ∧ read_descriptions df1 text_col = read_descriptions df text_col
  ∧ is_Some (read_descriptions df text_col).
Proof.
  intros Happ.
  destruct (apply_rules_with_cases rules df text_col)
    as [[_ Hk] | [(col & e & c & _ & _ & _ & He) | (col & Hcol & Hpr & Hr)]];
    [congruence | congruence |].
  rewrite Hr in Happ. injection Happ as <-. rewrite Hcol.
  split; [reflexivity |]. split; [| eauto].
  unfold read_descriptions in *. cbn [nrows set_col].
  destruct (decide (text_col = "label"%string)) as [-> | Hne].
  + rewrite get_set_col_eq in Hcol |- *. exact Hcol.
  + rewrite get_set_col_ne in Hcol |- * by congruence.
    change (Frame (nrows df) ?m) with (set_col "label" ?l ?d).
    rewrite (get_set_col_ne text_col "label") by congruence.
    rewrite (get_set_col_ne text_col (text_col +:+ "_raw"))
      by (apply col_ne_suffixed; discriminate).
    rewrite (get_set_col_ne text_col (text_col +:+ "_norm"))
      by (apply col_ne_suffixed; discriminate).
    rewrite (get_set_col_ne text_col "label") by congruence.
    exact Hcol.
Qed.

(** The function returns only for a column whose values have a string
    form. *)
Lemma apply_rules_with_printable rules df text_col df1 col :
  apply_rules_with rules df text_col = inr df1 →
  read_descriptions df text_col = Some col → printable col.
Proof.
  intros Happ Hcol.
  destruct (apply_rules_with_cases rules df text_col)
    as [[_ Hk] | [(col' & e & c & _ & _ & _ & He) | (col' & Hcol' & Hpr & _)]];
    [congruence | congruence |].
  rewrite Hcol in Hcol'. injection Hcol' as <-. exact Hpr.
Qed.

End FrameFacts.

(** ** The rule table of the program *)

Section TableFacts.
Context `{UnicodeDB}.
Implicit Types (rule : pattern * text * text) (n r t : text).

(** Every pattern of the program compiles: the table and the three
    patterns of the helpers. *)
Lemma raw_rules_compile :
  Forall (fun rule : string * string * string => is_Some (re_compile rule.1.1 true))
         raw_rules.
Proof. apply (bool_decide_unpack _). vm_compute. exact I. Qed.

Lemma helper_patterns_compile :
  re_compile "\s+" false = Some re_spaces
  ∧ re_compile "\s*\|\s*" false = Some re_pipe
  ∧ re_compile "Cargo a cuenta por deposito con cheque .*?\|" true
    = Some re_cargo_prefix.
Proof. repeat split; vm_compute; reflexivity. Qed.

(** Every rule of the table is of one of the forms [label_form_ok] lists. *)
Lemma compiled_rules_form : forallb label_form_ok compiled_rules = true.
Proof. vm_compute. reflexivity. Qed.

(** No rule of the table gives a label to a record with empty texts. *)
Lemma compiled_rules_silent : forallb (cannot_label [] []) compiled_rules = true.
Proof. vm_compute. reflexivity. Qed.

Lemma cannot_label_forall (rules : list (pattern * text * text)) n r :
  forallb (cannot_label n r) rules = true →
  ∀ rule fallback, rule ∈ rules → rule_label rule fallback n r = None.
Proof.
  intros Hall rule fb Hin. rewrite forallb_forall in Hall.
  specialize (Hall rule (proj1 (list_elem_of_In _ _) Hin)).
  apply andb_true_iff in Hall as [H1 H2].
  apply bool_decide_eq_true in H1, H2. destruct fb; assumption.
Qed.

Lemma starts_plain_cons label :
  starts_plain label = true → ∃ c s, label = c :: s ∧ c ≠ 42.
Proof.
  destruct label as [|c s]; [discriminate |]. simpl. intros Hc.
  exists c, s. split; [reflexivity |]. intros ->. discriminate.
Qed.

(** A label that a rule of one of these forms gives is not empty, unless it
    is the passthrough of the amount-and-cargo rule. *)
Lemma rule_label_nonempty rule fallback n r t :
  (∀ c, ci_eq (ch "p") c = true → isspace c = false) →
  label_form_ok rule = true →
  rule_label rule fallback n r = Some t →
  t ≠ [] ∨ t = passthrough (u "__RAW__por_mxn_cargo") r.
Proof.
  intros Hp. destruct rule as [[p label] debug]. unfold label_form_ok, rule_label.
  destruct (has_group p).
  - intros Hform. destruct (row_kept _); [| discriminate]. intros [= <-].
    apply starts_plain_cons in Hform as (c & s & -> & Hc).
    destruct (build_label_head c s (hd None (str_extract p (if fallback then n else r))) Hc)
      as [rest ->].
    left. discriminate.
  - destruct (is_raw label).
    + intros Hform. destruct (str_contains p r) eqn:Hcont; [| discriminate].
      intros [= <-]. apply orb_true_iff in Hform as [Hcargo | Hform].
      * apply bool_decide_eq_true in Hcargo as ->. right. reflexivity.
      * apply andb_true_iff in Hform as [Hic Hfirst].
        apply bool_decide_eq_true in Hfirst.
        destruct (str_contains_first_lit p _ r Hfirst Hcont) as (x & Hx & Hlit).
        rewrite Hic in Hlit. simpl in Hlit.
        unfold passthrough. destruct (bool_decide _); [right; reflexivity |].
        left. eapply strip_nonempty; eauto.
    + intros Hform. destruct (str_contains p n); [| discriminate]. intros [= <-].
      apply starts_plain_cons in Hform as (c & s & -> & _). left. discriminate.
Qed.

End TableFacts.

(** On Latin-1 no whitespace matches the letter p. *)
Lemma latin1_p_not_space (c : char) :
  Latin1.ci_eq (ch "p") c = true → Latin1.isspace c = false.
Proof.
  unfold Latin1.ci_eq. change (Latin1.re_class (ch "p")) with 112.
  intros Hc. apply N.eqb_eq in Hc. symmetry in Hc.
  assert (Hcases : c = 112 ∨ c = 80).
  { revert Hc. unfold Latin1.re_class, Latin1.re_lower, Latin1.lower.
    repeat (destruct (c =? _); [discriminate |]).
    destruct (_ || _); intros Hc; [right | left]; lia. }
  destruct Hcases as [-> | ->]; reflexivity.
Qed.

(** ** First match wins *)

Section OrderFacts.
Context `{UnicodeDB}.
Implicit Types (rule : pattern * text * text) (rules : list (pattern * text * text)).
Implicit Types (norm raw : list text) (labels : list cell) (i j : nat).
Implicit Types (p : pattern) (l d : cell) (n r t : text).

Lemma existsb_isna labels i : labels !! i = Some CNone → existsb isna labels = true.
Proof.
  intros Hl. apply existsb_exists. exists CNone. split; [| reflexivity].
  apply list_elem_of_In, list_elem_of_lookup. eauto.
Qed.

(** A rule that matches the text it examines first (the raw text for a
    group-bearing or raw-passthrough rule, the normalised text for a literal
    rule) gives its label whatever the rest of the batch is. *)
Lemma rule_label_primary rule raw labels i n r t :
  labels !! i = Some CNone → raw !! i = Some r →
  rule_label rule false n r = Some t →
  rule_label rule (raw_pass_empty (rule.1.1) raw labels) n r = Some t.
Proof.
  intros Hl Hr. destruct rule as [[p label] debug]. unfold rule_label. simpl.
  destruct (has_group p); [| auto].
  destruct (row_kept (str_extract p r)) eqn:Hk; [| discriminate].
  rewrite (raw_pass_empty_false p raw labels i r Hl Hr Hk), Hk. auto.
Qed.

(** An unset record that the first rule of the loop matches has that rule's
    label at the end of the loop. *)
Lemma run_rules_first_match rule rules norm raw labels i n r t :
  List.length norm = List.length labels → List.length raw = List.length labels →
  labels !! i = Some CNone → norm !! i = Some n → raw !! i = Some r →
  rule_label rule false n r = Some t →
  run_rules (rule :: rules) norm raw labels !! i = Some (CStr t).
Proof.
  intros Hn Hr Hl Hni Hri Ht. simpl.
  rewrite (existsb_isna labels i Hl). simpl.
  apply run_rules_keeps; rewrite ?length_apply_rule; auto.
  erewrite apply_rule_lookup by eauto. simpl.
  erewrite rule_label_primary by eauto. reflexivity.
Qed.

(** An unset record at the first rule of the loop: it gets the label that
    the rule gives it as the rule is applied to the columns, and is left to
    the rules that follow when the rule gives it none. *)
Lemma run_rules_as_applied rule rules norm raw labels i n r :
  List.length norm = List.length labels → List.length raw = List.length labels →
  labels !! i = Some CNone → norm !! i = Some n → raw !! i = Some r →
  run_rules (rule :: rules) norm raw labels !! i =
  match rule_label rule (raw_pass_empty (rule.1.1) raw labels) n r with
  | Some t => Some (CStr t)
  | None => run_rules rules norm raw (apply_rule rule norm raw labels) !! i
  end.
Proof.
  intros Hn Hr Hl Hni Hri. simpl.
  rewrite (existsb_isna labels i Hl). simpl.
  destruct (rule_label rule _ n r) as [t|] eqn:Ht; [| reflexivity].
  apply run_rules_keeps; rewrite ?length_apply_rule; auto.
  erewrite apply_rule_lookup by eauto. simpl. rewrite Ht. reflexivity.
Qed.

(** An unset record that no rule of the loop can match is unset at the end
    of the loop. *)
Lemma run_rules_unmatched rules norm raw labels i n r :
  List.length norm = List.length labels → List.length raw = List.length labels →
  labels !! i = Some CNone → norm !! i = Some n → raw !! i = Some r →
  (∀ rule fallback, rule ∈ rules → rule_label rule fallback n r = None) →
  run_rules rules norm raw labels !! i = Some CNone.
Proof.
  revert labels. induction rules as [|rule rules IH];
    intros labels Hn Hr Hl Hni Hri Hnone; simpl; [exact Hl |].
  destruct (negb (existsb isna labels)); [exact Hl |].
  apply IH; rewrite ?length_apply_rule; auto.
  - erewrite apply_rule_lookup by eauto. simpl.
    rewrite Hnone by left. reflexivity.
  - intros rule' fb Hin. apply Hnone. right. exact Hin.
Qed.

Lemma labels_after_lengths rules (ds : list cell) :
  List.length (norm_text <$> ds) = List.length (labels_after rules ds)
  ∧ List.length (raw_text <$> ds) = List.length (labels_after rules ds).
Proof.
  unfold labels_after.
  rewrite length_run_rules; rewrite ?length_fmap, ?length_replicate; auto.
Qed.

Lemma classify_app rules1 rules2 (ds : list cell) :
  classify (rules1 ++ rules2) ds =
  fillna (u "UNKNOWN")
         (run_rules rules2 (norm_text <$> ds) (raw_text <$> ds) (labels_after rules1 ds)).
Proof. unfold classify, classify_columns, labels_after. rewrite run_rules_app. reflexivity. Qed.

(** A record that no rule of the table can match ends with the sentinel. *)
Lemma classify_unmatched rules (ds : list cell) i d :
  ds !! i = Some d →
  (∀ rule fallback, rule ∈ rules →
     rule_label rule fallback (norm_text d) (raw_text d) = None) →
  classify rules ds !! i = Some (CStr (u "UNKNOWN")).
Proof.
  intros Hd Hnone.
  assert (Hrun : labels_after rules ds !! i = Some CNone).
  { unfold labels_after.
    eapply run_rules_unmatched; rewrite ?length_fmap, ?length_replicate; eauto.
    - apply lookup_replicate. split; [reflexivity |]. eapply lookup_lt_Some, Hd.
    - rewrite list_lookup_fmap, Hd. reflexivity.
    - rewrite list_lookup_fmap, Hd. reflexivity. }
  unfold classify. rewrite (lookup_classify_columns _ _ _ _ _ _ Hrun). reflexivity.
Qed.

End OrderFacts.

(** ** The three kinds of rule *)

Section KindFacts.
Context `{UnicodeDB}.
Implicit Types (norm raw : list text) (labels : list cell) (i j : nat).
Implicit Types (p : pattern) (l d : cell) (n r t g label debug : text).

(** A group-bearing rule at an unset record. *)
Lemma apply_rule_group p label debug norm raw labels i n r :
  has_group p = true →
  labels !! i = Some CNone → norm !! i = Some n → raw !! i = Some r →
  apply_rule (p, label, debug) norm raw labels !! i =
  Some (let row := str_extract p (if raw_pass_empty p raw labels then n else r) in
        if row_kept row then CStr (build_label label (hd None row)) else CNone).
Proof.
  intros Hg Hl Hn Hr. erewrite apply_rule_lookup by eauto. simpl.
  unfold rule_label. rewrite Hg. destruct (row_kept _); reflexivity.
Qed.

(** A raw-passthrough rule at an unset record. *)
Lemma apply_rule_raw p label debug norm raw labels i n r :
  has_group p = false → is_raw label = true →
  labels !! i = Some CNone → norm !! i = Some n → raw !! i = Some r →
  apply_rule (p, label, debug) norm raw labels !! i =
  Some (if str_contains p r then CStr (passthrough label r) else CNone).
Proof.
  intros Hg Hraw Hl Hn Hr. erewrite apply_rule_lookup by eauto. simpl.
  unfold rule_label. rewrite Hg, Hraw. destruct (str_contains _ _); reflexivity.
Qed.

(** A literal rule at an unset record. *)
Lemma apply_rule_literal p label debug norm raw labels i n r :
  has_group p = false → is_raw label = false →
  labels !! i = Some CNone → norm !! i = Some n → raw !! i = Some r →
  apply_rule (p, label, debug) norm raw labels !! i =
  Some (if str_contains p n then CStr label else CNone).
Proof.
  intros Hg Hraw Hl Hn Hr. erewrite apply_rule_lookup by eauto. simpl.
  unfold rule_label. rewrite Hg, Hraw. destruct (str_contains _ _); reflexivity.
Qed.

Lemma build_label_spec label g :
  build_label label (Some g) = label_of label (clean_fragment g).
Proof.
  unfold build_label, label_of, kind_of, clean_fragment.
  destruct (contains _ _); [reflexivity |].
  destruct (_ || _); [reflexivity |].
  destruct (startswith (u "devolución de spei") _); [reflexivity |].
  destruct (startswith (u "retiro de recursos") _); [reflexivity |].
  destruct (startswith (u "entrega de recursos") _); reflexivity.
Qed.


Lemma is_raw_iff label :
  is_raw label = true ↔ label = u "por *" ∨ label = u "__RAW__por_mxn_cargo".
Proof.
  unfold is_raw, RAW_LABEL_SET. rewrite bool_decide_eq_true.
  rewrite elem_of_union, !elem_of_singleton. reflexivity.
Qed.

End KindFacts.

(** ** Running the function twice; missing and empty descriptions *)

Section IdempotenceFacts.
Context `{UnicodeDB}.

Lemma label_after_apply rules df text_col col :
  read_descriptions df text_col = Some col → printable col →
  ∃ df1, apply_rules_with rules df text_col = inr df1
         ∧ nrows df1 = nrows df
         ∧ get_col (text_col +:+ "_raw") df1 = Some (CStr <$> (raw_text <$> col))
         ∧ get_col "label" df1
           = Some (classify_columns rules (norm_text <$> col) (raw_text <$> col)
                                    (replicate (nrows df) CNone)).
Proof.
  intros Hcol Hpr. eexists.
  split; [exact (apply_rules_with_Some rules df text_col col Hcol Hpr) |].
  split; [reflexivity |]. split.
  - rewrite (get_set_col_ne (text_col +:+ "_raw") "label")
      by (intros Heq; symmetry in Heq; revert Heq; apply raw_col_ne_label).
    apply get_set_col_eq.
  - apply get_set_col_eq.
Qed.

Lemma normalize_empty :
  nfkd [] = [] → str_lower [] = [] → normalize_text (CStr []) = [].
Proof.
  intros Hn Hl. unfold normalize_text. cbv zeta.
  change (str (CStr [])) with (@nil char). rewrite Hn.
  transitivity (str_lower []); [| exact Hl].
  f_equal.
Qed.

(** A record whose description is missing or empty ends with the
    sentinel, whatever the rest of the batch is. *)
Lemma classify_empty_text (ds : list cell) i d :
  nfkd [] = [] → str_lower [] = [] →
  ds !! i = Some d → raw_text d = [] →
  classify compiled_rules ds !! i = Some (CStr (u "UNKNOWN")).
Proof.
  intros Hn Hl Hd Hraw.
  assert (Hnorm : norm_text d = []).
  { unfold norm_text. rewrite Hraw. apply normalize_empty; assumption. }
  apply (classify_unmatched compiled_rules ds i d Hd).
  rewrite Hnorm, Hraw. apply cannot_label_forall, compiled_rules_silent.
Qed.

End IdempotenceFacts.

(** ** The string form of a value *)

Section ConversionFacts.
Context `{UnicodeDB}.

Lemma utf8_decode_nonempty a s : utf8_decode (String a s) ≠ [].
Proof.
  cbn [utf8_decode].
  repeat match goal with
         | |- context [if ?b then _ else _] => destruct b
         | |- context [match ?s with EmptyString => _ | String _ _ => _ end] =>
           destruct s
         end; discriminate.
Qed.

Lemma string_of_uint_nonempty d :
  d ≠ Decimal.Nil → NilEmpty.string_of_uint d ≠ EmptyString.
Proof. destruct d; simpl; congruence. Qed.

(** [str(n)] has at least one character. *)
Lemma str_of_Z_nonempty z : str_of_Z z ≠ [].
Proof.
  unfold str_of_Z, u.
  destruct (NilEmpty.string_of_int (Z.to_int z)) as [|a s] eqn:Hs;
    [| apply utf8_decode_nonempty].
  exfalso. destruct z as [|p|p]; simpl in Hs; try discriminate.
  revert Hs. apply string_of_uint_nonempty, DecimalPos.Unsigned.to_uint_nonnil.
Qed.

Lemma format_nonempty c q : PyFloat.format c q ≠ [].
Proof.
  unfold PyFloat.format. cbv zeta.
  repeat match goal with
         | |- context [if ?b then _ else _] => destruct b
         end;
    intros Heq; apply (f_equal List.length) in Heq;
    rewrite ?length_app in Heq; simpl in Heq; rewrite ?length_app in Heq;
    simpl in Heq; lia.
Qed.

(** [str(x)] of a float has at least one character. *)
Lemma repr_nonempty x : PyFloat.repr x ≠ [].
Proof.
  unfold PyFloat.repr. destruct (FloatOps.Prim2SF x) as [s | s | | s m e].
  - destruct s; discriminate.
  - destruct s; discriminate.
  - discriminate.
  - cbv zeta. destruct (PyFloat.shortest _ _ _ _ _) as [c q].
    pose proof (format_nonempty c q). destruct s; simpl; [discriminate | assumption].
Qed.

(** Only a missing value and the empty string have the empty raw text. *)
Lemma raw_text_empty (c : cell) : raw_text c = [] ↔ c = CNone ∨ c = CStr [].
Proof.
  split.
  - destruct c as [| t | z | [|] | x Hx]; unfold raw_text; simpl.
    + auto.
    + intros ->. auto.
    + intros Hz. destruct (str_of_Z_nonempty z Hz).
    + discriminate.
    + discriminate.
    + intros Hr. destruct (repr_nonempty x Hr).
  - intros [-> | ->]; reflexivity.
Qed.

(** Every conversion error is the one of integers. *)
Lemma str_error_Some (c : cell) (e : error) :
  str_error c = Some e ↔
  ∃ z, c = CInt z ∧ (10 ^ 4300 ≤ Z.abs z)%Z ∧ e = int_str_error.
Proof.
  split.
  - destruct c as [| t | z | b | x Hx]; simpl; try discriminate.
    change int_max_str_digits with 4300%Z.
    destruct (10 ^ 4300 <=? Z.abs z)%Z eqn:Hz; [| discriminate].
    intros [= <-]. exists z. apply Z.leb_le in Hz. auto.
  - intros (z & -> & Hz & ->). simpl. change int_max_str_digits with 4300%Z.
    apply Z.leb_le in Hz. rewrite Hz. reflexivity.
Qed.

End ConversionFacts.

(** ** The claims of the specification

    The statements that hold for every Unicode database quantify over it;
    the scenarios on concrete descriptions are evaluated with the tables of
    Latin-1. *)

(** C1 (as amended).  After classification every record has exactly one
    label, never null: the label column is as long as the batch and each of
    its cells is a string, which is a literal of the rule table, a label
    built from a template and a captured fragment, the trimmed (and, for the
    amount-and-cargo rule, stripped) raw text of the record, or the sentinel
    UNKNOWN.  With the program's table the label is not the empty string,
    except where it is the passthrough of the amount-and-cargo rule, which
    can strip the whole text.  A record that no rule can match, such as
    "algo sin ningun patron reconocible", gets exactly UNKNOWN. *)
Theorem C1_every_label_has_an_origin :
  (∀ (db : UnicodeDB) rules (ds : list cell),
     List.length (classify rules ds) = List.length ds)
  ∧ (∀ (db : UnicodeDB) rules (ds : list cell) i d,
       ds !! i = Some d →
       ∃ t, classify rules ds !! i = Some (CStr t)
            ∧ outcome rules (norm_text d) (raw_text d) t)
  ∧ (∀ (db : UnicodeDB),
       (∀ c, ci_eq (ch "p") c = true → isspace c = false) →
       ∀ (ds : list cell) i d,
         ds !! i = Some d →
         ∃ t, classify compiled_rules ds !! i = Some (CStr t)
              ∧ (t ≠ [] ∨ t = passthrough (u "__RAW__por_mxn_cargo") (raw_text d)))
  ∧ (∀ (db : UnicodeDB) rules (ds : list cell) i d,
       ds !! i = Some d →
       (∀ rule fallback, rule ∈ rules →
          rule_label rule fallback (norm_text d) (raw_text d) = None) →
       classify rules ds !! i = Some (CStr (u "UNKNOWN")))
  ∧ classify compiled_rules [CStr (u "algo sin ningun patron reconocible")]
    = [CStr (u "UNKNOWN")].
Proof.
  split; [| split; [| split; [| split]]].
  - intros db rules ds. apply length_classify.
  - intros db rules ds i d Hd.
    apply (classify_outcome (outcome rules) rules ds i d); [| | exact Hd].
    + intros rule fb n r t Hin Ht. eapply rule_label_outcome; eauto.
    + intros n r. apply Unknown.
  - intros db Hp ds i d Hd.
    apply (classify_outcome
             (fun n r t => t ≠ [] ∨ t = passthrough (u "__RAW__por_mxn_cargo") r)
             compiled_rules ds i d); [| | exact Hd].
    + intros rule fb n r t Hin Ht.
      eapply rule_label_nonempty; [exact Hp | | exact Ht].
      pose proof compiled_rules_form as Hall. rewrite forallb_forall in Hall.
      apply Hall, list_elem_of_In, Hin.
    + intros n r. left. discriminate.
  - intros db rules ds i d. apply classify_unmatched.
  - vm_compute. reflexivity.
Qed.

(** The label of "algo sin ningun patron reconocible" comes under the
    theorem: it is a string, of one of the four origins, and not empty. *)
Lemma C1_witness :
  ∃ t, classify compiled_rules [CStr (u "algo sin ningun patron reconocible")] !! 0%nat
       = Some (CStr t)
       ∧ (t ≠ [] ∨ t = passthrough (u "__RAW__por_mxn_cargo")
                                   (raw_text (CStr (u "algo sin ningun patron reconocible")))).
Proof.
  apply (proj1 (proj2 (proj2 C1_every_label_has_an_origin)) Latin1.db
               latin1_p_not_space
               [CStr (u "algo sin ningun patron reconocible")] 0%nat).
  reflexivity.
Defined.

(** C1 as stated fails: with the description below the amount-and-cargo
    rule matches and strips the whole raw text, so the label is the empty
    string. *)
Lemma C1_counterexample :
  classify compiled_rules
    [CStr (u "Cargo a cuenta por deposito con cheque por 1.00 mxn cargo |")]
  = [CStr []].
Proof. vm_compute. reflexivity. Qed.

(** C2 (as amended).  Rules apply in table order and the first rule that
    labels a record wins.  A record that has a label once the loop has gone
    through the first rules of the table keeps that label whatever rules
    follow.  A record that is unset when a rule [rule] is reached ends with
    the label that [rule] gives it as [rule] is applied to the batch,
    whatever the rules listed after [rule] match and whatever their
    templates are; when [rule] so applied gives it none, the record is left
    unset for the rules that follow.  Applied to the batch, a literal rule
    examines the normalised text of the record and a raw-passthrough rule
    its raw text; a group-bearing rule examines its raw text, and its
    normalised text only when no unset record of the batch has a capture in
    its raw text.  So a rule that matches the text it examines first (the
    raw text for a group-bearing or raw-passthrough rule, the normalised
    text for a literal rule) labels the record in every batch, in
    particular when no rule listed before it can match the record. *)
Theorem C2_first_match_wins :
  ∀ (db : UnicodeDB) (rules1 rules2 : list (pattern * text * text))
    (ds : list cell) (i : nat),
    (∀ l, labels_after rules1 ds !! i = Some l → isna l = false →
          classify (rules1 ++ rules2) ds !! i = Some l)
    ∧ (∀ rule d t,
         ds !! i = Some d →
         labels_after rules1 ds !! i = Some CNone →
         rule_label rule
                    (raw_pass_empty (rule.1.1) (raw_text <$> ds) (labels_after rules1 ds))
                    (norm_text d) (raw_text d) = Some t →
         classify (rules1 ++ rule :: rules2) ds !! i = Some (CStr t))
    ∧ (∀ rule d,
         ds !! i = Some d →
         labels_after rules1 ds !! i = Some CNone →
         rule_label rule
                    (raw_pass_empty (rule.1.1) (raw_text <$> ds) (labels_after rules1 ds))
                    (norm_text d) (raw_text d) = None →
         labels_after (rules1 ++ [rule]) ds !! i = Some CNone)
    ∧ (∀ rule d t,
         ds !! i = Some d →
         labels_after rules1 ds !! i = Some CNone →
         rule_label rule false (norm_text d) (raw_text d) = Some t →
         classify (rules1 ++ rule :: rules2) ds !! i = Some (CStr t))
    ∧ (∀ rule d t,
         ds !! i = Some d →
         (∀ rule' fallback, rule' ∈ rules1 →
            rule_label rule' fallback (norm_text d) (raw_text d) = None) →
         rule_label rule false (norm_text d) (raw_text d) = Some t →
         classify (rules1 ++ rule :: rules2) ds !! i = Some (CStr t)).
Proof.
  intros db rules1 rules2 ds i.
  destruct (labels_after_lengths rules1 ds) as [Hn Hr].
  assert (Happlied : ∀ rule d t,
            ds !! i = Some d →
            labels_after rules1 ds !! i = Some CNone →
            rule_label rule
                       (raw_pass_empty (rule.1.1) (raw_text <$> ds)
                                       (labels_after rules1 ds))
                       (norm_text d) (raw_text d) = Some t →
            classify (rules1 ++ rule :: rules2) ds !! i = Some (CStr t)).
  { intros rule d t Hd Hl Ht. rewrite classify_app.
    assert (Hrun : run_rules (rule :: rules2) (norm_text <$> ds) (raw_text <$> ds)
                     (labels_after rules1 ds) !! i = Some (CStr t)).
    { rewrite (run_rules_as_applied rule rules2 _ _ _ i (norm_text d) (raw_text d));
        auto; [rewrite Ht; reflexivity | |]; rewrite list_lookup_fmap, Hd; reflexivity. }
    rewrite (lookup_fillna _ _ _ _ Hrun). reflexivity. }
  assert (Hfirst : ∀ rule d t,
            ds !! i = Some d →
            labels_after rules1 ds !! i = Some CNone →
            rule_label rule false (norm_text d) (raw_text d) = Some t →
            classify (rules1 ++ rule :: rules2) ds !! i = Some (CStr t)).
  { intros rule d t Hd Hl Ht. apply (Happlied rule d t Hd Hl).
    apply (rule_label_primary rule _ _ i); auto.
    rewrite list_lookup_fmap, Hd. reflexivity. }
  split; [| split; [exact Happlied | split; [| split; [exact Hfirst |]]]].
  - intros l Hl Hna. rewrite classify_app.
    rewrite (lookup_fillna _ _ _ l) by (apply run_rules_keeps; auto).
    rewrite Hna. reflexivity.
  - intros rule d Hd Hl Hnone. unfold labels_after at 1. rewrite run_rules_app.
    change (run_rules rules1 _ _ _) with (labels_after rules1 ds).
    rewrite (run_rules_as_applied rule [] _ _ _ i (norm_text d) (raw_text d));
      auto; [| rewrite list_lookup_fmap, Hd; reflexivity
             | rewrite list_lookup_fmap, Hd; reflexivity].
    rewrite Hnone. simpl.
    erewrite apply_rule_lookup;
      [| exact Hl | rewrite list_lookup_fmap, Hd; reflexivity
       | rewrite list_lookup_fmap, Hd; reflexivity].
    simpl. rewrite Hnone. reflexivity.
  - intros rule d t Hd Hnone Ht. apply (Hfirst rule d t Hd); [| exact Ht].
    unfold labels_after.
    eapply run_rules_unmatched; rewrite ?length_fmap, ?length_replicate; eauto.
    + apply lookup_replicate. split; [reflexivity |]. eapply lookup_lt_Some, Hd.
    + rewrite list_lookup_fmap, Hd. reflexivity.
    + rewrite list_lookup_fmap, Hd. reflexivity.
Qed.

(** "Comision por administracion nomina" is matched by the twelfth rule of
    the table (label Comisión) and by the twenty-seventh (label Nómina);
    no rule before the twelfth matches it, and its label is Comisión.
    "mxn número de cheque | 1234 | nomina", alone in its batch, is unset
    when the fourth rule is reached; no raw text of the batch has a capture
    for that rule, so the rule examines the normalised text and labels the
    record CHEQUE 1234, although the twenty-seventh rule matches it too. *)
Lemma C2_witness :
  (rule_label (rule_at 26)
              false
              (norm_text (CStr (u "Comision por administracion nomina")))
              (raw_text (CStr (u "Comision por administracion nomina")))
   = Some (u "Nómina")
   ∧ classify compiled_rules [CStr (u "Comision por administracion nomina")] !! 0%nat
     = Some (CStr (u "Comisión")))
  ∧ (rule_label (rule_at 26)
                false
                (norm_text (CStr (u "mxn número de cheque | 1234 | nomina")))
                (raw_text (CStr (u "mxn número de cheque | 1234 | nomina")))
     = Some (u "Nómina")
     ∧ classify compiled_rules [CStr (u "mxn número de cheque | 1234 | nomina")] !! 0%nat
       = Some (CStr (u "CHEQUE 1234"))).
Proof.
  split; (split; [vm_compute; reflexivity |]).
  - change compiled_rules
      with (take 11 compiled_rules ++ rule_at 11 :: drop 12 compiled_rules).
    apply (proj2 (proj2 (proj2 (proj2
             (C2_first_match_wins Latin1.db (take 11 compiled_rules)
                (drop 12 compiled_rules)
                [CStr (u "Comision por administracion nomina")] 0%nat))))
             _ (CStr (u "Comision por administracion nomina"))).
    + reflexivity.
    + apply cannot_label_forall. vm_compute. reflexivity.
    + vm_compute. reflexivity.
  - change compiled_rules
      with (take 3 compiled_rules ++ rule_at 3 :: drop 4 compiled_rules).
    apply (proj1 (proj2
             (C2_first_match_wins Latin1.db (take 3 compiled_rules)
                (drop 4 compiled_rules)
                [CStr (u "mxn número de cheque | 1234 | nomina")] 0%nat))
             _ (CStr (u "mxn número de cheque | 1234 | nomina"))).
    + reflexivity.
    + vm_compute. reflexivity.
    + vm_compute. reflexivity.
Defined.

(** C2 as stated fails: two rules can both match the text of a record and
    the record end with the label of the later one.  In the batch of
    "mxn número de cheque | 1234 | nomina" and "mxn numero de cheque | 5678 |"
    the first record is unset when the fourth rule (CHEQUE) is reached; the
    fourth rule matches its normalised text, from which it would build
    CHEQUE 1234, and the twenty-seventh rule (Nómina) matches it too.  But
    the second record has a capture in its raw text, so the fourth rule
    examines raw texts only and leaves the first record unset; its label is
    Nómina. *)
Lemma C2_counterexample :
  let d := CStr (u "mxn número de cheque | 1234 | nomina") in
  let ds := [d; CStr (u "mxn numero de cheque | 5678 |")] in
  labels_after (take 3 compiled_rules) ds !! 0%nat = Some CNone
  ∧ str_contains (pattern_at 3) (norm_text d) = true
  ∧ rule_label (rule_at 3) true (norm_text d) (raw_text d) = Some (u "CHEQUE 1234")
  ∧ str_contains (pattern_at 26) (norm_text d) = true
  ∧ rule_label (rule_at 26) false (norm_text d) (raw_text d) = Some (u "Nómina")
  ∧ classify compiled_rules ds !! 0%nat = Some (CStr (u "Nómina"))
  ∧ u "Nómina" ≠ u "CHEQUE 1234".
Proof. repeat split; try (vm_compute; reflexivity). discriminate. Qed.

(** C3.  For a group-bearing rule the fallback from the raw texts to the
    normalised texts is decided once for the whole unset subset.  If no
    unset record has a capture in its raw text, every unset record is
    extracted from its normalised text.  If some unset record has a capture
    in its raw text, every unset record is extracted from its raw text
    only: one whose raw text yields nothing stays unset under this rule,
    whatever its normalised text.  So "mxn número de cheque | 1234 |", which
    the cheque rule matches only once normalised, is labelled by it when
    alone and is left to UNKNOWN next to "mxn numero de cheque | 5678 |". *)
Theorem C3_fallback_is_batch_level :
  (∀ (db : UnicodeDB) p label debug (norm raw : list text) (labels : list cell),
     has_group p = true →
     ((∀ j rj, labels !! j = Some CNone → raw !! j = Some rj →
               row_kept (str_extract p rj) = false) →
      ∀ i n r, labels !! i = Some CNone → norm !! i = Some n → raw !! i = Some r →
        apply_rule (p, label, debug) norm raw labels !! i =
        Some (if row_kept (str_extract p n)
              then CStr (build_label label (hd None (str_extract p n)))
              else CNone))
     ∧ (∀ j rj, labels !! j = Some CNone → raw !! j = Some rj →
                row_kept (str_extract p rj) = true →
        ∀ i n r, labels !! i = Some CNone → norm !! i = Some n → raw !! i = Some r →
          apply_rule (p, label, debug) norm raw labels !! i =
          Some (if row_kept (str_extract p r)
                then CStr (build_label label (hd None (str_extract p r)))
                else CNone)))
  ∧ classify compiled_rules [CStr (u "mxn número de cheque | 1234 |")]
    = [CStr (u "CHEQUE 1234")]
  ∧ classify compiled_rules [CStr (u "mxn número de cheque | 1234 |");
                             CStr (u "mxn numero de cheque | 5678 |")]
    = [CStr (u "UNKNOWN"); CStr (u "CHEQUE 5678")].
Proof.
  split; [| split; vm_compute; reflexivity].
  intros db p label debug norm raw labels Hg. split.
  - intros Hnone i n r Hl Hn Hr.
    rewrite (apply_rule_group p label debug norm raw labels i n r Hg Hl Hn Hr).
    rewrite (proj2 (raw_pass_empty_true p raw labels) Hnone). reflexivity.
  - intros j rj Hlj Hrj Hk i n r Hl Hn Hr.
    rewrite (apply_rule_group p label debug norm raw labels i n r Hg Hl Hn Hr).
    rewrite (raw_pass_empty_false p raw labels j rj Hlj Hrj Hk). reflexivity.
Qed.

(** The cheque rule on the two records above, both unset: the second has a
    capture in its raw text, so the first, whose raw text has none, stays
    unset. *)
Lemma C3_witness :
  apply_rule (pattern_at 3, u "CHEQUE ****", u "mxn numero de cheque con dígitos")
             [norm_text (CStr (u "mxn número de cheque | 1234 |"));
              norm_text (CStr (u "mxn numero de cheque | 5678 |"))]
             [u "mxn número de cheque | 1234 |"; u "mxn numero de cheque | 5678 |"]
             [CNone; CNone] !! 0%nat
  = Some CNone.
Proof.
  etransitivity.
  - refine (proj2 (proj1 C3_fallback_is_batch_level Latin1.db _ _ _ _ _ _ _)
                  1%nat (u "mxn numero de cheque | 5678 |") _ _ _
                  0%nat _ _ _ _ _); vm_compute; reflexivity.
  - vm_compute. reflexivity.
Defined.



(** C5.  A raw-passthrough rule (no group, one of the two raw labels) looks
    for its pattern anywhere in the raw text of an unset record (the pattern
    is found when it matches from some position of the text), and a
    record it matches gets its own raw text, trimmed, as label, not the
    rule's template; the rules of the table that have a raw label have no
    group.  Under the amount-and-cargo rule every segment of the
    raw text that runs from "Cargo a cuenta por deposito con cheque " (in
    any case) to the next pipe is taken out before trimming.  So
    "Por (1,200.00) mxn Cargo a cuenta por deposito con cheque 123 | resto
    del texto" is labelled with what precedes and what follows its segment,
    trimmed. *)
Theorem C5_raw_passthrough :
  (∀ (db : UnicodeDB) p label debug (norm raw : list text) (labels : list cell)
       i n r,
       has_group p = false → is_raw label = true →
       labels !! i = Some CNone → norm !! i = Some n → raw !! i = Some r →
       apply_rule (p, label, debug) norm raw labels !! i
       = Some (if str_contains p r then CStr (passthrough label r) else CNone))
  ∧ (∀ (db : UnicodeDB) p r,
       str_contains p r = true ↔
       ∃ a b, r = a ++ b ∧ is_Some (match_at p (rev a) b))
  ∧ (∀ (db : UnicodeDB) r,
       passthrough (u "por *") r = strip r
       ∧ passthrough (u "__RAW__por_mxn_cargo") r = strip (sub re_cargo_prefix [] r))
  ∧ (∀ (db : UnicodeDB) p label debug,
       (p, label, debug) ∈ compiled_rules → is_raw label = true →
       has_group p = false)
  ∧ (let before_segment := u "Por (1,200.00) mxn " in
     let segment := u "Cargo a cuenta por deposito con cheque 123 |" in
     let after_segment := u " resto del texto" in
     sub re_cargo_prefix [] (before_segment ++ segment ++ after_segment)
     = before_segment ++ after_segment
     ∧ classify compiled_rules [CStr (before_segment ++ segment ++ after_segment)]
       = [CStr (strip (before_segment ++ after_segment))]
     ∧ strip (before_segment ++ after_segment) = u "Por (1,200.00) mxn  resto del texto")
  ∧ classify compiled_rules
      [CStr (u "  pago POR 12.50 MXN | Recibo # 77  ")]
    = [CStr (u "pago POR 12.50 MXN | Recibo # 77")].
Proof.
  split; [| split; [| split; [| split; [| split]]]].
  - intros db p label debug norm raw labels i n r. apply apply_rule_raw.
  - intros db p r. apply str_contains_iff.
  - intros db r. split; reflexivity.
  - intros db p label debug Hin Hraw.
    pose proof (proj1 (forallb_forall
                  (fun rule : pattern * text * text =>
                     implb (is_raw rule.1.2) (negb (has_group rule.1.1)))
                  compiled_rules) ltac:(vm_compute; reflexivity)
                  _ (proj1 (list_elem_of_In _ _) Hin)) as Hrule.
    simpl in Hrule. rewrite Hraw in Hrule. simpl in Hrule.
    apply negb_true_iff, Hrule.
  - cbv zeta. repeat split; vm_compute; reflexivity.
  - vm_compute. reflexivity.
Qed.

(** The amount-and-cargo rule of the table on the description of the
    scenario. *)
Lemma C5_witness :
  apply_rule (pattern_at 28, u "__RAW__por_mxn_cargo", u "por (xx) mxn Cargo")
    [norm_text (CStr (u "Por (1,200.00) mxn Cargo a cuenta por deposito con cheque 123 | resto del texto"))]
    [u "Por (1,200.00) mxn Cargo a cuenta por deposito con cheque 123 | resto del texto"]
    [CNone] !! 0%nat
  = Some (CStr (u "Por (1,200.00) mxn  resto del texto")).
Proof.
  etransitivity.
  - refine (proj1 C5_raw_passthrough Latin1.db _ _ _ _ _ _ 0%nat _ _ _ _ _ _ _);
      vm_compute; reflexivity.
  - vm_compute. reflexivity.
Defined.


(** C7.  An ordinary literal rule (no group, not a raw label) looks for its
    pattern anywhere in the normalised text of an unset record (the pattern
    is found when it matches from some position of the text) and gives
    the record its template as label; so two unset records with the same
    normalised text, such as variants in case and accents of one
    description, fare alike under it.  "Comision por administracion" is
    labelled "Comisión", and a description that has "DEPÓSITO   en Efectivo"
    in its middle is labelled "Depósito en Efectivo"; "DEPÓSITO EN EFECTIVO"
    and "deposito en efectivo"
    have the same normalised text, are both unset until the thirteenth rule
    and both labelled by it. *)
Theorem C7_literal_rules_on_normalised_text :
  (∀ (db : UnicodeDB) p label debug (norm raw : list text) (labels : list cell)
       i n r,
       has_group p = false → is_raw label = false →
       labels !! i = Some CNone → norm !! i = Some n → raw !! i = Some r →
       apply_rule (p, label, debug) norm raw labels !! i
       = Some (if str_contains p n then CStr label else CNone))
  ∧ (∀ (db : UnicodeDB) p n,
       str_contains p n = true ↔
       ∃ a b, n = a ++ b ∧ is_Some (match_at p (rev a) b))
  ∧ (∀ (db : UnicodeDB) p label debug (norm raw : list text) (labels : list cell)
       i j n ri rj,
       has_group p = false → is_raw label = false →
       labels !! i = Some CNone → norm !! i = Some n → raw !! i = Some ri →
       labels !! j = Some CNone → norm !! j = Some n → raw !! j = Some rj →
       apply_rule (p, label, debug) norm raw labels !! i
       = apply_rule (p, label, debug) norm raw labels !! j)
  ∧ classify compiled_rules [CStr (u "Comision por administracion")]
    = [CStr (u "Comisión")]
  ∧ classify compiled_rules [CStr (u "Ventanilla:  DEPÓSITO   en Efectivo, suc. 12")]
    = [CStr (u "Depósito en Efectivo")]
  ∧ (norm_text (CStr (u "DEPÓSITO EN EFECTIVO")) = u "deposito en efectivo"
     ∧ norm_text (CStr (u "deposito en efectivo")) = u "deposito en efectivo"
     ∧ labels_after (take 12 compiled_rules)
         [CStr (u "DEPÓSITO EN EFECTIVO"); CStr (u "deposito en efectivo")]
       = [CNone; CNone]
     ∧ labels_after (take 13 compiled_rules)
         [CStr (u "DEPÓSITO EN EFECTIVO"); CStr (u "deposito en efectivo")]
       = [CStr (u "Depósito en Efectivo"); CStr (u "Depósito en Efectivo")]
     ∧ classify compiled_rules
         [CStr (u "DEPÓSITO EN EFECTIVO"); CStr (u "deposito en efectivo")]
       = [CStr (u "Depósito en Efectivo"); CStr (u "Depósito en Efectivo")]).
Proof.
  split; [| split; [| split; [| split; [| split; [| repeat split]]]]];
    try (vm_compute; reflexivity).
  - intros db p label debug norm raw labels i n r. apply apply_rule_literal.
  - intros db p n. apply str_contains_iff.
  - intros db p label debug norm raw labels i j n ri rj Hg Hraw Hli Hni Hri Hlj Hnj Hrj.
    rewrite (apply_rule_literal p label debug norm raw labels i n ri) by assumption.
    rewrite (apply_rule_literal p label debug norm raw labels j n rj) by assumption.
    reflexivity.
Qed.

(** The thirteenth rule of the table on the two variants, both unset. *)
Lemma C7_witness :
  apply_rule (pattern_at 12, u "Depósito en Efectivo", u "Depósito en Efectivo")
    [norm_text (CStr (u "DEPÓSITO EN EFECTIVO")); norm_text (CStr (u "deposito en efectivo"))]
    [u "DEPÓSITO EN EFECTIVO"; u "deposito en efectivo"]
    [CNone; CNone] !! 0%nat
  = Some (CStr (u "Depósito en Efectivo")).
Proof.
  etransitivity.
  - refine (proj1 C7_literal_rules_on_normalised_text Latin1.db _ _ _ _ _ _
                  0%nat _ _ _ _ _ _ _); vm_compute; reflexivity.
  - vm_compute. reflexivity.
Defined.

(** C8 (as amended).  The label column that the function writes is a
    function of the description column it reads and of the rule table: two
    frames with the same description column get the same labels, whatever
    their other columns and whatever label column they had, and running the
    function again on its own result gives the same labels.  The label of
    one record is a function of the whole column, not of that record's text
    alone. *)
Theorem C8_labels_are_a_function_of_the_column :
  ∀ (db : UnicodeDB) (df : frame) (text_col : string) (df1 : frame),
    apply_rules_vectorized df text_col = inr df1 →
    (∃ col,
       read_descriptions df text_col = Some col
       ∧ get_col "label" df1
         = Some (classify_columns compiled_rules (norm_text <$> col) (raw_text <$> col)
                                  (replicate (nrows df) CNone))
       ∧ (List.length col = nrows df →
          get_col "label" df1 = Some (classify compiled_rules col)))
    ∧ (∃ df2,
         apply_rules_vectorized df1 text_col = inr df2
         ∧ get_col "label" df2 = get_col "label" df1)
    ∧ (∀ df' df1',
         nrows df' = nrows df →
         read_descriptions df' text_col = read_descriptions df text_col →
         apply_rules_vectorized df' text_col = inr df1' →
         get_col "label" df1' = get_col "label" df1).
Proof.
  intros db df text_col df1 Happ. unfold apply_rules_vectorized in *.
  destruct (read_descriptions_after _ _ _ _ Happ) as (Hrows & Hread & [col Hcol]).
  pose proof (apply_rules_with_printable _ _ _ _ _ Happ Hcol) as Hpr.
  destruct (label_after_apply compiled_rules df text_col col Hcol Hpr)
    as (df1_ & Happ_ & _ & _ & Hlabel).
  rewrite Happ in Happ_. injection Happ_ as <-.
  split; [| split].
  - exists col. split; [exact Hcol |]. split; [exact Hlabel |].
    intros Hlen. rewrite Hlabel. unfold classify. rewrite Hlen. reflexivity.
  - rewrite Hcol in Hread.
    destruct (label_after_apply compiled_rules df1 text_col col Hread Hpr)
      as (df2 & Happ2 & _ & _ & Hlabel2).
    exists df2. split; [exact Happ2 |]. rewrite Hlabel2, Hlabel, Hrows. reflexivity.
  - intros df' df1' Hrows' Hread' Happ'. rewrite Hcol in Hread'.
    destruct (label_after_apply compiled_rules df' text_col col Hread' Hpr)
      as (df1_ & Happ_ & _ & _ & Hlabel').
    rewrite Happ' in Happ_. injection Happ_ as <-.
    rewrite Hlabel', Hlabel, Hrows'. reflexivity.
Qed.

(** A statement of two records that already has a label column: the
    function rewrites the labels, and running it again on its result gives
    the same labels. *)
Lemma C8_witness :
  let df := Frame 2 {[ DESCRIPTION_COL := [CStr (u "Comision por administracion"); CNone];
                       "label"%string := [CStr (u "old"); CStr (u "old")] ]} in
  let df1 :=
    set_col "label" [CStr (u "Comisión"); CStr (u "UNKNOWN")]
      (set_col (DESCRIPTION_COL +:+ "_raw") [CStr (u "Comision por administracion"); CStr []]
         (set_col (DESCRIPTION_COL +:+ "_norm")
                  [CStr (u "comision por administracion"); CStr []] df)) in
  ∃ df2,
    apply_rules_vectorized df1 DESCRIPTION_COL = inr df2
    ∧ get_col "label" df2 = get_col "label" df1.
Proof.
  intros df df1.
  refine (proj1 (proj2 (C8_labels_are_a_function_of_the_column
                          Latin1.db df DESCRIPTION_COL df1 _))).
  vm_compute. reflexivity.
Defined.

(** C8 as stated fails: the label of a record is not a function of its own
    raw text.  "mxn número de cheque | 1234 |" is labelled CHEQUE 1234 when
    alone and UNKNOWN next to "mxn numero de cheque | 5678 |". *)
Lemma C8_counterexample :
  ¬ ∃ f : text → text,
      ∀ (ds : list cell) i d,
        ds !! i = Some d →
        classify compiled_rules ds !! i = Some (CStr (f (raw_text d))).
Proof.
  intros [f Hf].
  pose proof (Hf [CStr (u "mxn número de cheque | 1234 |")] 0%nat _ eq_refl) as H1.
  pose proof (Hf [CStr (u "mxn número de cheque | 1234 |");
                  CStr (u "mxn numero de cheque | 5678 |")] 0%nat _ eq_refl) as H2.
  replace (classify compiled_rules [CStr (u "mxn número de cheque | 1234 |")])
    with [CStr (u "CHEQUE 1234")] in H1 by (vm_compute; reflexivity).
  replace (classify compiled_rules [CStr (u "mxn número de cheque | 1234 |");
                                    CStr (u "mxn numero de cheque | 5678 |")])
    with [CStr (u "UNKNOWN"); CStr (u "CHEQUE 5678")] in H2 by (vm_compute; reflexivity).
  simpl in H1, H2. rewrite <- H2 in H1. discriminate.
Qed.

(** C9 (as amended).  The function fails only as a whole, and only in two
    ways: with a [KeyError] when the description column is missing, and
    with the [ValueError] of [str(x)] when a value of the column is an
    integer of more than 4300 digits; no record is labelled then.  In every
    other case it returns: the raw text of a missing value is the empty
    string and that of any other value its string form [str(x)], which is
    empty for the empty string only, and every record is labelled from its
    raw text.  A record whose raw text is empty, in particular one whose
    description is missing, is labelled UNKNOWN whatever the other records
    are. *)
Theorem C9_whole_batch_failure_and_string_forms :
  (∀ (db : UnicodeDB) (df : frame) (text_col : string) (e : error),
     apply_rules_vectorized df text_col = inl e ↔
     (read_descriptions df text_col = None ∧ e = KeyError text_col)
     ∨ (∃ col z, read_descriptions df text_col = Some col
          ∧ CInt z ∈ col ∧ (10 ^ 4300 ≤ Z.abs z)%Z ∧ e = int_str_error))
  ∧ (∀ (db : UnicodeDB) (df : frame) (text_col : string) (col : list cell),
       read_descriptions df text_col = Some col →
       (∀ z, CInt z ∈ col → (Z.abs z < 10 ^ 4300)%Z) →
       ∃ df1,
         apply_rules_vectorized df text_col = inr df1
         ∧ get_col (text_col +:+ "_raw") df1 = Some (CStr <$> (raw_text <$> col))
         ∧ (List.length col = nrows df →
            get_col "label" df1 = Some (classify compiled_rules col)))
  ∧ (∀ c : cell, raw_text c = [] ↔ c = CNone ∨ c = CStr [])
  ∧ (∀ (db : UnicodeDB),
       nfkd [] = [] → str_lower [] = [] →
       ∀ (ds : list cell) i d,
         ds !! i = Some d → raw_text d = [] →
         classify compiled_rules ds !! i = Some (CStr (u "UNKNOWN")))
  ∧ raw_text <$> [CNone; CInt 5; CFloat (PyFloat.of_binary false 5 0) eq_refl;
                  CBool true; CStr (u "Comision por administracion"); CStr []]
    = [[]; u "5"; u "5.0"; u "True"; u "Comision por administracion"; []]
  ∧ classify compiled_rules
      [CNone; CInt 5; CFloat (PyFloat.of_binary false 5 0) eq_refl;
       CBool true; CStr (u "Comision por administracion"); CStr []]
    = [CStr (u "UNKNOWN"); CStr (u "UNKNOWN"); CStr (u "UNKNOWN");
       CStr (u "UNKNOWN"); CStr (u "Comisión"); CStr (u "UNKNOWN")].
Proof.
  split; [| split; [| split; [| split; [| split]]]].
  - intros db df text_col e. unfold apply_rules_vectorized.
    destruct (apply_rules_with_cases compiled_rules df text_col)
      as [[Hnone Hk] | [(col & e' & c & Hcol & Hin & He & Hr)
                       | (col & Hcol & Hpr & Hr)]].
    + rewrite Hk. split.
      * intros [= <-]. left. auto.
      * intros [[_ ->] | (col & z & Hcol & _)]; [reflexivity | congruence].
    + rewrite Hr. apply str_error_Some in He as (z & -> & Hz & ->). split.
      * intros [= <-]. right. exists col, z. auto.
      * intros [[Hnone _] | (_ & _ & _ & _ & _ & ->)]; [congruence | reflexivity].
    + rewrite Hr. split; [discriminate |].
      intros [[Hnone _] | (col' & z & Hcol' & Hin & Hz & _)]; [congruence |].
      rewrite Hcol in Hcol'. injection Hcol' as <-.
      unfold printable in Hpr. rewrite Forall_forall in Hpr.
      specialize (Hpr _ Hin).
      assert (Hsome : str_error (CInt z) = Some int_str_error)
        by (apply str_error_Some; eauto).
      congruence.
  - intros db df text_col col Hcol Hsmall.
    assert (Hpr : printable col).
    { apply Forall_forall. intros c Hc.
      destruct (str_error c) as [e|] eqn:He; [| reflexivity].
      apply str_error_Some in He as (z & -> & Hz & _).
      specialize (Hsmall z Hc). lia. }
    destruct (label_after_apply compiled_rules df text_col col Hcol Hpr)
      as (df1 & Happ & _ & Hraw & Hlabel).
    exists df1. split; [exact Happ |]. split; [exact Hraw |].
    intros Hlen. rewrite Hlabel. unfold classify. rewrite Hlen. reflexivity.
  - apply raw_text_empty.
  - intros db Hn Hl ds i d. apply classify_empty_text; assumption.
  - vm_compute. reflexivity.
  - vm_compute. reflexivity.
Qed.

(** A column with a missing value, an integer and a float next to a
    description: the function returns, and the labels are those of the raw
    texts "Comision por administracion", "", "5" and "5.0". *)
Lemma C9_witness :
  ∃ df1,
    apply_rules_vectorized
      (Frame 4 {[ DESCRIPTION_COL :=
                    [CStr (u "Comision por administracion"); CNone; CInt 5;
                     CFloat (PyFloat.of_binary false 5 0) eq_refl] ]})
      DESCRIPTION_COL = inr df1
    ∧ get_col (DESCRIPTION_COL +:+ "_raw") df1
      = Some [CStr (u "Comision por administracion"); CStr []; CStr (u "5");
              CStr (u "5.0")]
    ∧ get_col "label" df1
      = Some [CStr (u "Comisión"); CStr (u "UNKNOWN"); CStr (u "UNKNOWN");
              CStr (u "UNKNOWN")].
Proof.
  destruct (proj1 (proj2 C9_whole_batch_failure_and_string_forms) Latin1.db
              (Frame 4 {[ DESCRIPTION_COL :=
                            [CStr (u "Comision por administracion"); CNone; CInt 5;
                             CFloat (PyFloat.of_binary false 5 0) eq_refl] ]})
              DESCRIPTION_COL
              [CStr (u "Comision por administracion"); CNone; CInt 5;
               CFloat (PyFloat.of_binary false 5 0) eq_refl])
    as (df1 & Happ & Hraw & Hlabel).
  - vm_compute. reflexivity.
  - intros z Hz.
    repeat (apply elem_of_cons in Hz as [Hz | Hz]; [try discriminate |]).
    + injection Hz as ->. vm_compute. reflexivity.
    + inversion Hz.
  - exists df1. split; [exact Happ |]. split.
    + rewrite Hraw. vm_compute. reflexivity.
    + rewrite Hlabel by reflexivity. vm_compute. reflexivity.
Defined.

(** C9 as stated fails, twice.  A value of another type is not turned into
    the empty string: the integer 5 of a description column reaches the
    matching as the text "5", the float 5.0 as "5.0".  And one record can
    make the function raise for the whole batch: next to an integer of 4301
    digits, "Comision por administracion" gets no label, because the
    function ends with the [ValueError] of the conversion. *)
Lemma C9_counterexample :
  (∃ df1,
     apply_rules_vectorized
       (Frame 2 {[ DESCRIPTION_COL :=
                     [CInt 5; CFloat (PyFloat.of_binary false 5 0) eq_refl] ]})
       DESCRIPTION_COL = inr df1
     ∧ get_col (DESCRIPTION_COL +:+ "_raw") df1 = Some [CStr (u "5"); CStr (u "5.0")]
     ∧ u "5" ≠ [] ∧ u "5.0" ≠ [])
  ∧ apply_rules_vectorized
      (Frame 2 {[ DESCRIPTION_COL :=
                    [CStr (u "Comision por administracion"); CInt (10 ^ 4300)] ]})
      DESCRIPTION_COL
    = inl (ValueError
             ("Exceeds the limit (4300 digits) for integer string conversion; "
              +:+ "use sys.set_int_max_str_digits() to increase the limit")).
Proof.
  split.
  - eexists. split; [vm_compute; reflexivity |].
    split; [vm_compute; reflexivity |]. split; discriminate.
  - vm_compute. reflexivity.
Qed.

(** C10.  The raw-passthrough labels are the two of [RAW_LABEL_SET] and no
    other.  The first rule of the table has the label RAW_MATCH and the
    debug tag RAW_PATTERN_AMOUNT_REF_7, no group and no raw label: it is an
    ordinary literal rule, which looks for its pattern in the normalised
    text and gives the string RAW_MATCH as label, not the raw text. *)
Theorem C10_raw_labels_are_exactly_two :
  (∀ (db : UnicodeDB) label,
     is_raw label = true ↔ label = u "por *" ∨ label = u "__RAW__por_mxn_cargo")
  ∧ (∃ p, compiled_rules !! 0%nat
          = Some (p, u "RAW_MATCH", u "RAW_PATTERN_AMOUNT_REF_7")
          ∧ p = pattern_at 0
          ∧ has_group p = false
          ∧ is_raw (u "RAW_MATCH") = false)
  ∧ (∀ (db : UnicodeDB) (norm raw : list text) (labels : list cell) i n r,
       labels !! i = Some CNone → norm !! i = Some n → raw !! i = Some r →
       apply_rule (pattern_at 0, u "RAW_MATCH", u "RAW_PATTERN_AMOUNT_REF_7")
                  norm raw labels !! i
       = Some (if str_contains (pattern_at 0) n then CStr (u "RAW_MATCH") else CNone))
  ∧ classify compiled_rules [CStr (u "(1,234.56) mxn Nro. Ref/Docto. # 1234567")]
    = [CStr (u "RAW_MATCH")]
  ∧ (str_contains (pattern_at 0) (u "(1,234.56) MXN Nro: Ref/Docto. # 1234567") = false
     ∧ classify compiled_rules [CStr (u "(1,234.56) MXN Nro: Ref/Docto. # 1234567")]
       = [CStr (u "RAW_MATCH")]).
Proof.
  split; [| split; [| split; [| split; [| split]]]]; try (vm_compute; reflexivity).
  - intros db label. apply is_raw_iff.
  - eexists. repeat split; vm_compute; reflexivity.
  - intros db norm raw labels i n r. apply apply_rule_literal; vm_compute; reflexivity.
Qed.

(** The first rule on a description that it matches once normalised. *)
Lemma C10_witness :
  apply_rule (pattern_at 0, u "RAW_MATCH", u "RAW_PATTERN_AMOUNT_REF_7")
    [norm_text (CStr (u "(1,234.56) MXN Nro: Ref/Docto. # 1234567"))]
    [u "(1,234.56) MXN Nro: Ref/Docto. # 1234567"]
    [CNone] !! 0%nat
  = Some (CStr (u "RAW_MATCH")).
Proof.
  etransitivity.
  - refine (proj1 (proj2 (proj2 C10_raw_labels_are_exactly_two)) Latin1.db _ _ _
                  0%nat _ _ _ _ _); vm_compute; reflexivity.
  - vm_compute. reflexivity.
Defined.

(** ** Further properties of the program *)

(** *** The loop and its early exit *)

Section LoopShape.
Context `{UnicodeDB}.
Implicit Types (rule : pattern * text * text) (rules : list (pattern * text * text)).
Implicit Types (norm raw : list text) (labels : list cell) (i j : nat).
Implicit Types (p : pattern) (l d : cell) (n r t : text).

Lemma existsb_isna_false labels i l :
  existsb isna labels = false → labels !! i = Some l → isna l = false.
Proof.
  intros Hnone Hl. destruct (isna l) eqn:Hna; [| reflexivity].
  rewrite <- Hnone. symmetry. apply existsb_exists. exists l.
  split; [| exact Hna]. apply list_elem_of_In, list_elem_of_lookup. eauto.
Qed.

(** A rule changes nothing once every record has a label. *)
Lemma apply_rule_done rule norm raw labels :
  List.length norm = List.length labels → List.length raw = List.length labels →
  existsb isna labels = false →
  apply_rule rule norm raw labels = labels.
Proof.
  intros Hn Hr Hnone. apply list_eq. intros i.
  destruct (labels !! i) as [l|] eqn:Hl.
  - destruct (lookup_lt_is_Some_2 norm i) as [n Hni].
    { rewrite Hn. eapply lookup_lt_Some, Hl. }
    destruct (lookup_lt_is_Some_2 raw i) as [r Hri].
    { rewrite Hr. eapply lookup_lt_Some, Hl. }
    erewrite apply_rule_lookup by eauto.
    rewrite (existsb_isna_false labels i l Hnone Hl). reflexivity.
  - apply lookup_ge_None. rewrite length_apply_rule by assumption.
    apply lookup_ge_None, Hl.
Qed.

Lemma fold_rules_done rules norm raw labels :
  List.length norm = List.length labels → List.length raw = List.length labels →
  existsb isna labels = false →
  fold_rules rules norm raw labels = labels.
Proof.
  intros Hn Hr Hnone. unfold fold_rules.
  induction rules as [|rule rules IH]; simpl; [reflexivity |].
  rewrite apply_rule_done by assumption. exact IH.
Qed.

Lemma run_rules_fold rules norm raw labels :
  List.length norm = List.length labels → List.length raw = List.length labels →
  run_rules rules norm raw labels = fold_rules rules norm raw labels.
Proof.
  revert labels. induction rules as [|rule rules IH]; intros labels Hn Hr;
    [reflexivity |].
  simpl. destruct (existsb isna labels) eqn:Hany; simpl.
  - rewrite IH by (rewrite length_apply_rule; assumption). reflexivity.
  - symmetry. apply (fold_rules_done (rule :: rules)); assumption.
Qed.

(** X1.  The [break] of the loop is an optimisation only: the labels are
    those of the loop run through the whole table, every rule applied in
    turn to the columns, with the sentinel put in at the end. *)
Theorem break_changes_nothing rules (ds : list cell) :
  classify rules ds =
  fillna (u "UNKNOWN")
         (fold_rules rules (norm_text <$> ds) (raw_text <$> ds)
                     (replicate (List.length ds) CNone)).
Proof.
  unfold classify, classify_columns.
  rewrite run_rules_fold; rewrite ?length_fmap, ?length_replicate; reflexivity.
Qed.

(** On an unset record whose texts are as [raw_first] says, a rule gives
    what it gives on the text it examines first, whatever the batch is. *)
Lemma rule_label_raw_first rule norm raw labels i n r :
  labels !! i = Some CNone → raw !! i = Some r →
  (has_group rule.1.1 = true →
   row_kept (str_extract rule.1.1 n) = true → row_kept (str_extract rule.1.1 r) = true) →
  rule_label rule (raw_pass_empty rule.1.1 raw labels) n r = rule_label rule false n r.
Proof.
  intros Hl Hr Hfirst. destruct rule as [[p label] debug]. simpl in *.
  destruct (raw_pass_empty p raw labels) eqn:Hpass; [| reflexivity].
  unfold rule_label. destruct (has_group p); [| reflexivity].
  pose proof (proj1 (raw_pass_empty_true p raw labels) Hpass i r Hl Hr) as Hraw.
  rewrite Hraw. destruct (row_kept (str_extract p n)) eqn:Hn; [| reflexivity].
  rewrite Hfirst in Hraw by auto. discriminate.
Qed.

Lemma run_rules_raw_first rules norm raw labels i n r :
  List.length norm = List.length labels → List.length raw = List.length labels →
  labels !! i = Some CNone → norm !! i = Some n → raw !! i = Some r →
  raw_first rules n r →
  run_rules rules norm raw labels !! i
  = Some (from_option CStr CNone (first_label rules n r)).
Proof.
  revert labels. induction rules as [|rule rules IH];
    intros labels Hn Hr Hl Hni Hri Hfirst; simpl; [exact Hl |].
  rewrite (existsb_isna labels i Hl). simpl.
  assert (Hstep : apply_rule rule norm raw labels !! i
                  = Some (from_option CStr CNone (rule_label rule false n r))).
  { erewrite apply_rule_lookup by eauto. simpl.
    rewrite (rule_label_raw_first rule norm raw labels i n r Hl Hri); [reflexivity |].
    destruct rule as [[p label] debug]. simpl. intros Hg Hk.
    apply (Hfirst p label debug); [left | exact Hg | exact Hk]. }
  destruct (rule_label rule false n r) as [t|] eqn:Ht; simpl in *.
  - apply run_rules_keeps; rewrite ?length_apply_rule; auto.
  - apply IH; rewrite ?length_apply_rule; auto.
    intros p label debug Hin Hg Hk.
    apply (Hfirst p label debug); [right; exact Hin | exact Hg | exact Hk].
Qed.

(** X2.  A record whose normalised text is captured by no group-bearing
    rule that does not capture from its raw text as well (so that the
    fallback to the normalised texts never decides for it) is labelled by
    the first rule of the table that matches it, or UNKNOWN: its label is
    the same in every batch, and the one it has when classified alone. *)
Theorem first_label_decides rules (ds : list cell) i d :
  ds !! i = Some d →
  raw_first rules (norm_text d) (raw_text d) →
  classify rules ds !! i
  = Some (CStr (default (u "UNKNOWN") (first_label rules (norm_text d) (raw_text d))))
  ∧ classify rules ds !! i = classify rules [d] !! 0%nat.
Proof.
  intros Hd Hfirst.
  assert (Hany : ∀ (es : list cell) j, es !! j = Some d →
            classify rules es !! j
            = Some (CStr (default (u "UNKNOWN")
                            (first_label rules (norm_text d) (raw_text d))))).
  { intros es j Hj. unfold classify.
    erewrite lookup_classify_columns.
    2:{ apply run_rules_raw_first; rewrite ?length_fmap, ?length_replicate; eauto.
        - apply lookup_replicate. split; [reflexivity |]. eapply lookup_lt_Some, Hj.
        - rewrite list_lookup_fmap, Hj. reflexivity.
        - rewrite list_lookup_fmap, Hj. reflexivity. }
    destruct (first_label rules _ _); reflexivity. }
  split; [apply Hany, Hd |].
  rewrite (Hany ds i Hd), (Hany [d] 0%nat eq_refl). reflexivity.
Qed.

Lemma raw_first_check rules n r :
  forallb (fun rule : pattern * text * text =>
             implb (has_group rule.1.1 && row_kept (str_extract rule.1.1 n))
                   (row_kept (str_extract rule.1.1 r)))
          rules = true →
  raw_first rules n r.
Proof.
  intros Hall p label debug Hin Hg Hn. rewrite forallb_forall in Hall.
  specialize (Hall _ (proj1 (list_elem_of_In _ _) Hin)). simpl in Hall.
  rewrite Hg, Hn in Hall. exact Hall.
Qed.

End LoopShape.

(** "SPEI Enviado: | Beneficiario: Juan Perez (dato no verificado)" next to
    the two cheque descriptions: its label is the one of the first rule
    that matches it. *)
Lemma first_label_decides_witness :
  classify compiled_rules
    [CStr (u "mxn número de cheque | 1234 |");
     CStr (u "SPEI Enviado: | Beneficiario: Juan Perez (dato no verificado)");
     CStr (u "mxn numero de cheque | 5678 |")] !! 1%nat
  = Some (CStr (u "SPEI Enviado: Juan Perez")).
Proof.
  etransitivity.
  - refine (proj1 (first_label_decides compiled_rules _ 1%nat _ _ _));
      [reflexivity | apply raw_first_check; vm_compute; reflexivity].
  - vm_compute. reflexivity.
Defined.

(** *** The frame that the function returns *)

Section FrameShape.
Context `{UnicodeDB}.
Implicit Types (df : frame) (name text_col : string) (col : list cell).

Lemma read_descriptions_eq df text_col :
  read_descriptions df text_col =
  if decide (text_col = "label"%string) then Some (replicate (nrows df) CNone)
  else get_col text_col df.
Proof.
  unfold read_descriptions. rewrite get_set_col.
  destruct (decide ("label"%string = text_col)), (decide (text_col = "label"%string));
    congruence.
Qed.

(** The description column of the script is read as it is. *)
Lemma read_descriptions_main df :
  read_descriptions df DESCRIPTION_COL = get_col DESCRIPTION_COL df.
Proof. rewrite read_descriptions_eq. destruct (decide _); [discriminate | reflexivity]. Qed.

(** X3.  The function fails with a [KeyError] exactly when the frame has
    no column of the given name, unless that name is "label": the label
    column is created before the descriptions are read. *)
Theorem apply_rules_vectorized_fails_iff df text_col :
  apply_rules_vectorized df text_col = inl (KeyError text_col) ↔
  text_col ≠ "label"%string ∧ get_col text_col df = None.
Proof.
  unfold apply_rules_vectorized.
  destruct (apply_rules_with_cases compiled_rules df text_col)
    as [[Hcol Hr] | [(col & e & c & Hcol & _ & He & Hr) | (col & Hcol & _ & Hr)]];
    rewrite Hr; rewrite read_descriptions_eq in Hcol.
  - destruct (decide _); [discriminate |]. split; auto.
  - apply str_error_Some in He as (z & _ & _ & ->).
    split; [discriminate |]. intros [Hne Hnone].
    destruct (decide _); congruence.
  - split; [discriminate |]. intros [Hne Hnone].
    destruct (decide _); congruence.
Qed.

(** The frame that the function returns: every column but the label
    column and the two working columns is as it was, and the working
    columns hold the two texts of every record. *)
Lemma apply_rules_with_columns rules df text_col col :
  read_descriptions df text_col = Some col → printable col →
  ∃ df1, apply_rules_with rules df text_col = inr df1
    ∧ (∀ name, name ≠ "label"%string → name ≠ (text_col +:+ "_norm")%string →
               name ≠ (text_col +:+ "_raw")%string →
               get_col name df1 = get_col name df)
    ∧ get_col (text_col +:+ "_norm") df1 = Some (CStr <$> (norm_text <$> col))
    ∧ get_col (text_col +:+ "_raw") df1 = Some (CStr <$> (raw_text <$> col)).
Proof.
  intros Hcol Hpr. rewrite (apply_rules_with_Some _ _ _ _ Hcol Hpr).
  eexists. split; [reflexivity |]. split; [| split].
  - intros name H1 H2 H3. rewrite !get_set_col_ne by congruence. reflexivity.
  - rewrite (get_set_col_ne _ "label")
      by (intros Heq; symmetry in Heq; revert Heq; apply norm_col_ne_label).
    rewrite (get_set_col_ne _ (text_col +:+ "_raw"))
      by (intros Heq; symmetry in Heq; revert Heq; apply norm_col_ne_raw_col).
    apply get_set_col_eq.
  - rewrite (get_set_col_ne _ "label")
      by (intros Heq; symmetry in Heq; revert Heq; apply raw_col_ne_label).
    apply get_set_col_eq.
Qed.

(** X4.  When the function returns, the frame has as many rows as before
    and every column but the label column and the two working columns is
    as it was; the working columns hold the raw and the normalised text of
    every record.  In particular the description column is unchanged,
    unless it is the label column itself. *)
Theorem apply_rules_vectorized_keeps_columns df text_col df1 :
  apply_rules_vectorized df text_col = inr df1 →
  nrows df1 = nrows df
  ∧ (∀ name, name ≠ "label"%string → name ≠ (text_col +:+ "_norm")%string →
             name ≠ (text_col +:+ "_raw")%string →
             get_col name df1 = get_col name df)
  ∧ (text_col ≠ "label"%string → get_col text_col df1 = get_col text_col df)
  ∧ ∃ col, read_descriptions df text_col = Some col
           ∧ get_col (text_col +:+ "_norm") df1 = Some (CStr <$> (norm_text <$> col))
           ∧ get_col (text_col +:+ "_raw") df1 = Some (CStr <$> (raw_text <$> col)).
Proof.
  unfold apply_rules_vectorized. intros Happ.
  destruct (read_descriptions_after _ _ _ _ Happ) as (Hrows & _ & [col Hcol]).
  pose proof (apply_rules_with_printable _ _ _ _ _ Happ Hcol) as Hpr.
  destruct (apply_rules_with_columns compiled_rules df text_col col Hcol Hpr)
    as (df1' & Happ' & Hother & Hnorm & Hraw).
  rewrite Happ in Happ'. injection Happ' as <-.
  split; [exact Hrows |]. split; [exact Hother |]. split.
  - intros Hne. apply Hother; [exact Hne | |];
      intros Heq; symmetry in Heq; revert Heq; apply col_ne_suffixed; discriminate.
  - exists col. auto.
Qed.

(** X5.  Asked to classify the label column itself, the function finds no
    description: the column has been reset before it is read, and every
    record is labelled UNKNOWN, whatever the column held. *)
Theorem label_column_as_descriptions df df1 :
  nfkd [] = [] → str_lower [] = [] →
  apply_rules_vectorized df "label" = inr df1 →
  get_col "label" df1 = Some (replicate (nrows df) (CStr (u "UNKNOWN"))).
Proof.
  intros Hn Hl Happ. unfold apply_rules_vectorized in Happ.
  assert (Hcol : read_descriptions df "label" = Some (replicate (nrows df) CNone)).
  { rewrite read_descriptions_eq. reflexivity. }
  pose proof (apply_rules_with_printable _ _ _ _ _ Happ Hcol) as Hpr.
  destruct (label_after_apply compiled_rules df "label" _ Hcol Hpr)
    as (df1_ & Happ_ & _ & _ & Hlabel).
  rewrite Happ in Happ_. injection Happ_ as <-. rewrite Hlabel. f_equal.
  transitivity (classify compiled_rules (replicate (nrows df) CNone)).
  { unfold classify. rewrite length_replicate. reflexivity. }
  apply list_eq. intros i. destruct (decide (i < nrows df)%nat) as [Hi | Hi].
  - rewrite (classify_empty_text _ i CNone Hn Hl);
      [| apply lookup_replicate; auto | reflexivity].
    symmetry. apply lookup_replicate. auto.
  - rewrite !(proj2 (lookup_ge_None _ _));
      rewrite ?length_classify, ?length_replicate; auto; lia.
Qed.

Lemma has_col_true name df : has_col name df = true ↔ is_Some (get_col name df).
Proof. unfold has_col, get_col. apply bool_decide_eq_true. Qed.

Lemma has_col_false name df : has_col name df = false ↔ get_col name df = None.
Proof.
  rewrite <- not_true_iff_false, has_col_true, <- eq_None_not_Some. reflexivity.
Qed.

Lemma get_drop_cols name names df :
  get_col name (drop_cols names df)
  = if bool_decide (name ∈ names) then None else get_col name df.
Proof.
  unfold get_col, drop_cols. simpl. induction names as [|x names IH]; simpl.
  - reflexivity.
  - destruct (decide (x = name)) as [-> | Hne].
    + rewrite lookup_delete_eq. rewrite bool_decide_eq_true_2 by left. reflexivity.
    + rewrite lookup_delete_ne by exact Hne. rewrite IH.
      destruct (bool_decide (name ∈ names)) eqn:Hin.
      * apply bool_decide_eq_true in Hin.
        rewrite bool_decide_eq_true_2 by (right; exact Hin). reflexivity.
      * apply bool_decide_eq_false in Hin.
        rewrite bool_decide_eq_false_2; [reflexivity |].
        intros Hc. apply elem_of_cons in Hc as [-> | Hc]; congruence.
Qed.

(** The script once the file is read and the classification has returned:
    both working columns are there and are dropped, and the frame goes to
    [to_csv]. *)
Lemma main_after_apply (w : world) df df1 :
  read_csv w = inr df → has_col DESCRIPTION_COL df = true →
  apply_rules_vectorized df DESCRIPTION_COL = inr df1 →
  main w =
  let out := drop_cols [(DESCRIPTION_COL +:+ "_norm")%string;
                        (DESCRIPTION_COL +:+ "_raw")%string] df1 in
  match to_csv w out with
  | Some e => inl e
  | None => match print w with Some e => inl e | None => inr out end
  end.
Proof.
  intros Hread Hhas Happ. unfold main. rewrite Hread, bind_inr, Hhas. cbn [negb].
  rewrite Happ, bind_inr. cbv zeta.
  destruct (apply_rules_vectorized_keeps_columns df DESCRIPTION_COL df1 Happ)
    as (_ & _ & _ & col & _ & Hnorm & Hraw).
  rewrite filter_cons_True
    by (apply Is_true_true, has_col_true; rewrite Hnorm; eauto).
  rewrite filter_cons_True
    by (apply Is_true_true, has_col_true; rewrite Hraw; eauto).
  reflexivity.
Qed.

(** X6.  The exceptions of the script.  It ends with an exception in these
    cases and in no other: [read_csv] raises; the frame read has no
    description column, and the exception is the [ValueError] of the
    script; a description is an integer of more than 4300 digits, and the
    exception is the [ValueError] of its conversion; [to_csv] raises for
    the classified frame without its working columns; [print] raises after
    the file is written.  The [KeyError] of [apply_rules_vectorized] is
    never reached: the check before the classification keeps it away. *)
Theorem main_fails_iff (w : world) (e : error) :
  main w = inl e ↔
  read_csv w = inl e
  ∨ ∃ df, read_csv w = inr df
      ∧ ((get_col DESCRIPTION_COL df = None
          ∧ e = ValueError "La columna 'Descripción' no existe en el archivo CSV")
         ∨ (∃ col z, get_col DESCRIPTION_COL df = Some col
              ∧ CInt z ∈ col ∧ (10 ^ 4300 ≤ Z.abs z)%Z ∧ e = int_str_error)
         ∨ (∃ df1, apply_rules_vectorized df DESCRIPTION_COL = inr df1
              ∧ let out := drop_cols [(DESCRIPTION_COL +:+ "_norm")%string;
                                      (DESCRIPTION_COL +:+ "_raw")%string] df1 in
                to_csv w out = Some e ∨ (to_csv w out = None ∧ print w = Some e))).
Proof.
  destruct (read_csv w) as [e0 | df] eqn:Hread.
  { unfold main. rewrite Hread. split.
    - intros [= <-]. left. reflexivity.
    - intros [[= <-] | (df & [=] & _)]. reflexivity. }
  destruct (has_col DESCRIPTION_COL df) eqn:Hhas.
  - pose proof Hhas as Hcol. apply has_col_true in Hcol as [col Hcol].
    destruct (apply_rules_with_cases compiled_rules df DESCRIPTION_COL)
      as [[Hnone _] | [(col' & e' & c & Hcol' & Hin & He & Hr)
                      | (col' & Hcol' & Hpr & Hr)]];
      rewrite read_descriptions_main in *; [congruence | |].
    + rewrite Hcol in Hcol'. injection Hcol' as <-.
      apply str_error_Some in He as (z & -> & Hz & ->).
      assert (Hmain : main w = inl int_str_error).
      { unfold main. rewrite Hread, bind_inr, Hhas. cbn [negb].
        unfold apply_rules_vectorized. rewrite Hr. reflexivity. }
      rewrite Hmain. split.
      * intros [= <-]. right. exists df. split; [reflexivity |].
        right. left. exists col, z. auto.
      * intros [[=] | (df' & [= <-] & [[Hnone _] | [(_ & _ & _ & _ & _ & ->)
                                         | (df1 & Happ & _)]])];
          [congruence | reflexivity |].
        unfold apply_rules_vectorized in Happ. congruence.
    + rewrite Hcol in Hcol'. injection Hcol' as <-.
      rewrite (main_after_apply w df _ Hread Hhas Hr). cbv zeta. split.
      * intros Hout. right. exists df. split; [reflexivity |]. right. right.
        eexists. split; [exact Hr |]. cbv zeta.
        destruct (to_csv w _) as [e1|]; [left; congruence |].
        destruct (print w) as [e2|]; [right; split; congruence | discriminate].
      * intros [[=] | (df' & [= <-] & [[Hnone _] | [(col' & z & Hcol' & Hin & Hz & _)
                                         | (df1 & Happ & Hout)]])].
        -- congruence.
        -- rewrite Hcol in Hcol'. injection Hcol' as <-.
           unfold printable in Hpr. rewrite Forall_forall in Hpr.
           specialize (Hpr _ Hin).
           assert (Hsome : str_error (CInt z) = Some int_str_error)
             by (apply str_error_Some; eauto).
           congruence.
        -- unfold apply_rules_vectorized in Happ. rewrite Hr in Happ.
           injection Happ as <-. cbv zeta in Hout.
           destruct Hout as [-> | [-> ->]]; reflexivity.
  - pose proof Hhas as Hnone. apply has_col_false in Hnone.
    assert (Hmain : main w
                    = inl (ValueError
                             "La columna 'Descripción' no existe en el archivo CSV")).
    { unfold main. rewrite Hread, bind_inr, Hhas. reflexivity. }
    rewrite Hmain. split.
    + intros [= <-]. right. exists df. split; [reflexivity |]. left. auto.
    + intros [[=] | (df' & [= <-] & [[_ ->] | [(col & z & Hcol & _)
                                       | (df1 & Happ & _)]])];
        [reflexivity | congruence |].
      apply apply_rules_vectorized_keeps_columns in Happ
        as (_ & _ & _ & col & Hcol & _).
      rewrite read_descriptions_main in Hcol. congruence.
Qed.

(** X7.  When [read_csv] returns a frame with a description column whose
    values have a string form, the script hands [to_csv] a frame with the
    same rows, in which the label column holds the labels of the
    descriptions, the two working columns are gone (also when the
    statement had columns of these names), and every other column, the
    description column among them, is as it was read; the script ends
    normally unless [to_csv] or [print] raises. *)
Theorem main_output (w : world) df col :
  read_csv w = inr df →
  get_col DESCRIPTION_COL df = Some col →
  printable col →
  ∃ out,
    main w = match to_csv w out with
             | Some e => inl e
             | None => match print w with Some e => inl e | None => inr out end
             end
    ∧ nrows out = nrows df
    ∧ get_col "label" out
      = Some (classify_columns compiled_rules (norm_text <$> col) (raw_text <$> col)
                               (replicate (nrows df) CNone))
    ∧ get_col (DESCRIPTION_COL +:+ "_norm") out = None
    ∧ get_col (DESCRIPTION_COL +:+ "_raw") out = None
    ∧ (∀ name, name ≠ "label"%string → name ≠ (DESCRIPTION_COL +:+ "_norm")%string →
               name ≠ (DESCRIPTION_COL +:+ "_raw")%string →
               get_col name out = get_col name df)
    ∧ get_col DESCRIPTION_COL out = Some col.
Proof.
  intros Hw Hcol Hpr.
  assert (Hread : read_descriptions df DESCRIPTION_COL = Some col)
    by (rewrite read_descriptions_main; exact Hcol).
  destruct (label_after_apply compiled_rules df DESCRIPTION_COL col Hread Hpr)
    as (df1 & Happ & Hrows & Hraw & Hlabel).
  destruct (apply_rules_with_columns compiled_rules df DESCRIPTION_COL col Hread Hpr)
    as (df1' & Happ' & Hother & Hnorm & _).
  rewrite Happ in Happ'. injection Happ' as <-.
  assert (Hhas : has_col DESCRIPTION_COL df = true) by (apply has_col_true; eauto).
  eexists. split; [exact (main_after_apply w df df1 Hw Hhas Happ) |].
  split; [exact Hrows |].
  assert (Hnot : ∀ name, name ≠ (DESCRIPTION_COL +:+ "_norm")%string →
            name ≠ (DESCRIPTION_COL +:+ "_raw")%string →
            bool_decide (name ∈ [(DESCRIPTION_COL +:+ "_norm")%string;
                                 (DESCRIPTION_COL +:+ "_raw")%string]) = false).
  { intros name H2 H3. apply bool_decide_eq_false_2. intros Hin.
    apply elem_of_cons in Hin as [Heq | Hin]; [congruence |].
    apply elem_of_cons in Hin as [Heq | Hin]; [congruence | inversion Hin]. }
  split; [| split; [| split; [| split]]].
  - rewrite get_drop_cols, Hnot by discriminate. exact Hlabel.
  - rewrite get_drop_cols, bool_decide_eq_true_2 by left. reflexivity.
  - rewrite get_drop_cols, bool_decide_eq_true_2 by (right; left). reflexivity.
  - intros name H1 H2 H3. rewrite get_drop_cols, Hnot by assumption.
    apply Hother; assumption.
  - rewrite get_drop_cols, Hnot by (intros Heq; vm_compute in Heq; discriminate).
    rewrite Hother by (intros Heq; vm_compute in Heq; discriminate). exact Hcol.
Qed.

End FrameShape.

(** A statement without a description column: the function fails. *)
Lemma apply_rules_vectorized_fails_iff_witness :
  apply_rules_vectorized (Frame 1 {[ "Monto"%string := [CInt 5] ]}) DESCRIPTION_COL
  = inl (KeyError DESCRIPTION_COL).
Proof.
  apply (proj2 (apply_rules_vectorized_fails_iff _ _)).
  split; [discriminate | vm_compute; reflexivity].
Defined.

(** A statement of two records with a column of amounts: the amounts are
    as they were. *)
Lemma apply_rules_vectorized_keeps_columns_witness :
  ∃ df1,
    apply_rules_vectorized
      (Frame 2 {[ DESCRIPTION_COL := [CStr (u "Comision por administracion"); CNone];
                  "Monto"%string := [CInt 5; CInt 7] ]}) DESCRIPTION_COL = inr df1
    ∧ nrows df1 = 2%nat
    ∧ get_col "Monto" df1 = Some [CInt 5; CInt 7].
Proof.
  destruct (apply_rules_vectorized
              (Frame 2 {[ DESCRIPTION_COL := [CStr (u "Comision por administracion"); CNone];
                          "Monto"%string := [CInt 5; CInt 7] ]}) DESCRIPTION_COL)
    as [e|df1] eqn:Happ; [vm_compute in Happ; discriminate |].
  exists df1. split; [reflexivity |].
  destruct (apply_rules_vectorized_keeps_columns _ _ _ Happ) as (Hrows & Hother & _).
  split; [rewrite Hrows; reflexivity |].
  rewrite Hother by discriminate. vm_compute. reflexivity.
Defined.

(** A frame whose label column holds descriptions, classified on that
    column. *)
Lemma label_column_as_descriptions_witness :
  ∃ df1,
    apply_rules_vectorized
      (Frame 2 {[ "label"%string := [CStr (u "Comision por administracion");
                                     CStr (u "Pago de nomina")] ]}) "label" = inr df1
    ∧ get_col "label" df1 = Some [CStr (u "UNKNOWN"); CStr (u "UNKNOWN")].
Proof.
  destruct (apply_rules_vectorized
              (Frame 2 {[ "label"%string := [CStr (u "Comision por administracion");
                                             CStr (u "Pago de nomina")] ]}) "label")
    as [e|df1] eqn:Happ; [vm_compute in Happ; discriminate |].
  exists df1. split; [reflexivity |].
  assert (Hn : nfkd [] = []) by (vm_compute; reflexivity).
  assert (Hl : str_lower [] = []) by (vm_compute; reflexivity).
  rewrite (label_column_as_descriptions _ df1 Hn Hl Happ). reflexivity.
Defined.

(** A statement without a description column, and a file that cannot be
    read: the script stops with its message, respectively with the
    exception of [read_csv]. *)
Lemma main_fails_iff_witness :
  main (World (inr (Frame 1 {[ "Monto"%string := [CInt 5] ]})) (fun _ => None) None)
  = inl (ValueError "La columna 'Descripción' no existe en el archivo CSV")
  ∧ main (World (inl (OtherError "FileNotFoundError")) (fun _ => None) None)
    = inl (OtherError "FileNotFoundError").
Proof.
  split.
  - apply (proj2 (main_fails_iff _ _)). right. eexists. split; [reflexivity |].
    left. split; [vm_compute; reflexivity | reflexivity].
  - apply (proj2 (main_fails_iff _ _)). left. reflexivity.
Defined.

(** A statement of two records that already has a column with the name of
    a working column, written without an exception: the labels are
    written, the amounts are kept, the working columns are dropped. *)
Lemma main_output_witness :
  ∃ out,
    main (World
            (inr (Frame 2
                    {[ DESCRIPTION_COL := [CStr (u "Comision por administracion"); CNone];
                       "Monto"%string := [CInt 5; CInt 7];
                       (DESCRIPTION_COL +:+ "_raw")%string := [CInt 1; CInt 2] ]}))
            (fun _ => None) None)
    = inr out
    ∧ get_col "label" out = Some [CStr (u "Comisión"); CStr (u "UNKNOWN")]
    ∧ get_col "Monto" out = Some [CInt 5; CInt 7]
    ∧ get_col (DESCRIPTION_COL +:+ "_raw") out = None.
Proof.
  destruct (main_output
              (World
                 (inr (Frame 2
                         {[ DESCRIPTION_COL :=
                              [CStr (u "Comision por administracion"); CNone];
                            "Monto"%string := [CInt 5; CInt 7];
                            (DESCRIPTION_COL +:+ "_raw")%string := [CInt 1; CInt 2] ]}))
                 (fun _ => None) None)
              _ [CStr (u "Comision por administracion"); CNone] eq_refl)
    as (out & Hmain & _ & Hlabel & _ & Hraw & Hother & _).
  - vm_compute. reflexivity.
  - repeat constructor.
  - exists out. split; [exact Hmain |]. split; [| split; [| exact Hraw]].
    + rewrite Hlabel. vm_compute. reflexivity.
    + rewrite Hother by discriminate. vm_compute. reflexivity.
Defined.

(** *** The shape of cleaned texts *)

Section ShapeFacts.
Context `{UnicodeDB}.
Implicit Types (s t pre post : text) (c x : char) (b : bool).

Lemma lstrip_split s :
  ∃ pre, s = pre ++ lstrip s ∧ Forall (fun c => isspace c = true) pre.
Proof.
  induction s as [|c s (pre & Hs & Hpre)]; simpl.
  - exists []. split; [reflexivity | constructor].
  - destruct (isspace c) eqn:Hc.
    + exists (c :: pre). split; [simpl; congruence | constructor; assumption].
    + exists []. split; [reflexivity | constructor].
Qed.

Lemma lstrip_tight s : starts_tight (lstrip s) = true.
Proof.
  induction s as [|c s IH]; simpl; [reflexivity |].
  destruct (isspace c) eqn:Hc; [exact IH |]. simpl. rewrite Hc. reflexivity.
Qed.

Lemma lstrip_id s : starts_tight s = true → lstrip s = s.
Proof.
  destruct s as [|c s]; simpl; [reflexivity |].
  destruct (isspace c); [discriminate | reflexivity].
Qed.

(** Trimming takes a piece out of the middle of the text. *)
Lemma strip_split s : ∃ pre post, s = pre ++ strip s ++ post.
Proof.
  destruct (lstrip_split s) as (pre & Hs & _).
  destruct (lstrip_split (rev (lstrip s))) as (post & Hr & _).
  exists pre, (rev post). unfold strip, rstrip.
  rewrite <- rev_app_distr, <- Hr, rev_involutive. exact Hs.
Qed.

Lemma starts_tight_app s t :
  s ≠ [] → starts_tight (s ++ t) = starts_tight s.
Proof. destruct s; [congruence | reflexivity]. Qed.

Lemma strip_tight s : tight (strip s) = true.
Proof.
  unfold tight, strip, rstrip. rewrite rev_involutive, lstrip_tight, andb_true_r.
  destruct (lstrip_split (rev (lstrip s))) as (post & Hr & _).
  destruct (lstrip (rev (lstrip s))) as [|c t] eqn:Ht; [reflexivity |].
  assert (Hs : lstrip s = rev (c :: t) ++ rev post).
  { rewrite <- rev_app_distr, <- Hr, rev_involutive. reflexivity. }
  rewrite <- (starts_tight_app (rev (c :: t)) (rev post)).
  - rewrite <- Hs. apply lstrip_tight.
  - simpl. intros Hnil. apply app_eq_nil in Hnil as [_ [=]].
Qed.

Lemma strip_id s : tight s = true → strip s = s.
Proof.
  unfold tight. intros Ht. apply andb_true_iff in Ht as [H1 H2].
  unfold strip, rstrip. rewrite (lstrip_id s H1), (lstrip_id (rev s) H2).
  apply rev_involutive.
Qed.

Lemma spaced_app s t : spaced (s ++ t) = true → spaced s = true ∧ spaced t = true.
Proof.
  induction s as [|a s IH]; simpl; [auto |].
  intros Hsp. apply andb_true_iff in Hsp as [Hab Hrest].
  destruct (IH Hrest) as [Hs Ht]. split; [| exact Ht].
  rewrite Hs, andb_true_r. destruct s; [reflexivity | exact Hab].
Qed.

Lemma strip_spaced s : spaced s = true → spaced (strip s) = true.
Proof.
  intros Hsp. destruct (strip_split s) as (pre & post & Hs).
  rewrite Hs in Hsp. apply spaced_app in Hsp as [_ Hsp].
  apply spaced_app in Hsp as [Hsp _]. exact Hsp.
Qed.

Lemma strip_elem_of s x : x ∈ strip s → x ∈ s.
Proof.
  intros Hx. destruct (strip_split s) as (pre & post & Hs). rewrite Hs.
  apply elem_of_app. right. apply elem_of_app. left. exact Hx.
Qed.

(** Collapsing leaves no two whitespace characters in a row, and no
    whitespace at the start when a run is under way. *)
Lemma collapse_shape b s :
  spaced (collapse_from b s) = true
  ∧ (b = true → starts_tight (collapse_from b s) = true).
Proof.
  revert b. induction s as [|c s IH]; intros b; simpl; [auto |].
  destruct (isspace c) eqn:Hc.
  - destruct b.
    + apply IH.
    + split; [| discriminate]. destruct (IH true) as [Hsp Ht].
      simpl. rewrite Hsp, andb_true_r.
      specialize (Ht eq_refl). destruct (collapse_from true s) as [|d t]; [reflexivity |].
      simpl in Ht. apply negb_true_iff in Ht. rewrite Ht, andb_false_r. reflexivity.
  - destruct (IH false) as [Hsp _]. split.
    + simpl. rewrite Hsp, andb_true_r, Hc.
      destruct (collapse_from false s); reflexivity.
    + intros _. simpl. rewrite Hc. reflexivity.
Qed.

(** Collapsing keeps the characters that are not whitespace and adds only
    spaces. *)
Lemma collapse_elem_of b s x :
  x ∈ collapse_from b s → x = 32 ∨ (x ∈ s ∧ isspace x = false).
Proof.
  revert b. induction s as [|c s IH]; intros b; simpl; [inversion 1 |].
  destruct (isspace c) eqn:Hc.
  - destruct b.
    + intros Hx. destruct (IH _ Hx) as [-> | [Hin Hsp]]; [auto |].
      right. split; [right |]; assumption.
    + intros Hx. apply elem_of_cons in Hx as [-> | Hx]; [auto |].
      destruct (IH _ Hx) as [-> | [Hin Hsp]]; [auto |].
      right. split; [right |]; assumption.
  - intros Hx. apply elem_of_cons in Hx as [-> | Hx].
    + right. split; [left | exact Hc].
    + destruct (IH _ Hx) as [-> | [Hin Hsp]]; [auto |].
      right. split; [right |]; assumption.
Qed.

(** A text of that shape whose whitespace is spaces is left as it is. *)
Lemma collapse_id s :
  spaced s = true → (∀ x, x ∈ s → isspace x = true → x = 32) →
  collapse_from false s = s
  ∧ (starts_tight s = true → collapse_from true s = s).
Proof.
  induction s as [|c s IH]; intros Hsp Hws; [auto |].
  simpl in Hsp. apply andb_true_iff in Hsp as [Hpair Hrest].
  destruct IH as [IH1 IH2]; [exact Hrest | intros x Hx; apply Hws; right; exact Hx |].
  simpl. destruct (isspace c) eqn:Hc.
  - split; [| discriminate].
    rewrite (Hws c) by (left || assumption). f_equal. apply IH2.
    destruct s as [|d t]; [reflexivity |]. exact Hpair.
  - rewrite IH1. auto.
Qed.

End ShapeFacts.

(** *** What a match consumes, and the fragments of the labels *)

Section FragmentFacts.
Context `{UnicodeDB}.
Implicit Types (m : mstate → cont → option mstate) (k : cont) (r : regex).
Implicit Types (p : pattern) (g repl bef rst : text).

Lemma one_result test (s : mstate) k e :
  one test s k = Some e →
  ∃ s', k s' = Some e ∧ (List.length (rest s') < List.length (rest s))%nat.
Proof.
  unfold one. destruct (rest s) as [|c t] eqn:Hr; [discriminate |].
  destruct (test c); [| discriminate]. intros Hk.
  eexists. split; [exact Hk |]. simpl. lia.
Qed.

(** The result of a repetition is the result of its continuation at a
    position not before the start, and after it when an iteration had to
    be made and every iteration consumes ([strict]). *)
Lemma rep_loop_result m greedy lo fuel cnt (strict : bool) :
  (∀ (s : mstate) k e, m s k = Some e →
     ∃ s', k s' = Some e ∧ (List.length (rest s') ≤ List.length (rest s))%nat
           ∧ (strict = true → (List.length (rest s') < List.length (rest s))%nat)) →
  ∀ (s : mstate) k e, rep_loop m greedy lo fuel cnt s k = Some e →
     ∃ s', k s' = Some e ∧ (List.length (rest s') ≤ List.length (rest s))%nat
           ∧ (strict = true → (cnt < lo)%nat →
              (List.length (rest s') < List.length (rest s))%nat).
Proof.
  intros Hm. revert cnt. induction fuel as [|fuel IH]; intros cnt s k e.
  - simpl. destruct (lo <=? cnt)%nat eqn:Hlo; [| discriminate]. intros Hk.
    apply Nat.leb_le in Hlo. exists s. split; [exact Hk |]. split; [lia |]. lia.
  - assert (Hstop : (if (lo <=? cnt)%nat then k s else None) = Some e →
        ∃ s', k s' = Some e ∧ (List.length (rest s') ≤ List.length (rest s))%nat
              ∧ (strict = true → (cnt < lo)%nat →
                 (List.length (rest s') < List.length (rest s))%nat)).
    { destruct (lo <=? cnt)%nat eqn:Hlo; [| discriminate]. intros Hk.
      apply Nat.leb_le in Hlo. exists s. split; [exact Hk |]. split; [lia |]. lia. }
    assert (Hgo : m s (fun s' => rep_loop m greedy lo fuel (S cnt) s' k) = Some e →
        ∃ s', k s' = Some e ∧ (List.length (rest s') ≤ List.length (rest s))%nat
              ∧ (strict = true → (cnt < lo)%nat →
                 (List.length (rest s') < List.length (rest s))%nat)).
    { intros Hms. apply Hm in Hms as (s1 & Hk1 & Hle & Hlt).
      apply IH in Hk1 as (s' & Hk & Hle' & _).
      exists s'. split; [exact Hk |]. split; [lia |].
      intros Hs _. specialize (Hlt Hs). lia. }
    simpl. destruct greedy.
    + destruct (m s _) as [e'|] eqn:Hms.
      * intros [= ->]. apply Hgo. reflexivity.
      * exact Hstop.
    + destruct (if (lo <=? cnt)%nat then k s else None) as [e'|] eqn:Hks.
      * intros [= ->]. apply Hstop. reflexivity.
      * exact Hgo.
Qed.

(** The result of a match is the result of its continuation at a position
    not before the start, and after it for a consuming expression. *)
Lemma mtch_result ic fl r (s : mstate) k e :
  mtch ic fl r s k = Some e →
  ∃ s', k s' = Some e ∧ (List.length (rest s') ≤ List.length (rest s))%nat
        ∧ (consuming r = true → (List.length (rest s') < List.length (rest s))%nat).
Proof.
  revert s k e. induction r; intros s k e; simpl;
    try (intros Hk; apply one_result in Hk as (s' & Hk & Hlt);
         exists s'; split; [exact Hk |]; split; [lia | intros _; exact Hlt]).
  - intros Hk. exists s. split; [exact Hk |]. split; [lia | discriminate].
  - destruct (before s); [| discriminate]. intros Hk.
    exists s. split; [exact Hk |]. split; [lia | discriminate].
  - destruct (xorb _ _); [| discriminate]. intros Hk.
    exists s. split; [exact Hk |]. split; [lia | discriminate].
  - intros Hm. apply IHr1 in Hm as (s1 & Hm & Hle1 & Hlt1).
    apply IHr2 in Hm as (s' & Hk & Hle2 & Hlt2).
    exists s'. split; [exact Hk |]. split; [lia |].
    intros Hc. apply orb_true_iff in Hc as [Hc | Hc];
      [specialize (Hlt1 Hc) | specialize (Hlt2 Hc)]; lia.
  - intros Hm.
    apply (rep_loop_result _ _ _ _ _ (consuming r) IHr) in Hm as (s' & Hk & Hle & Hlt).
    exists s'. split; [exact Hk |]. split; [exact Hle |].
    intros Hc. apply andb_true_iff in Hc as [Hlo Hc]. apply Nat.ltb_lt in Hlo. auto.
  - intros Hm. apply IHr in Hm as (s1 & Hk & Hle & Hlt).
    exists (set_cap n (consumed s s1) s1). split; [exact Hk |]. exact (conj Hle Hlt).
Qed.

(** A match of a consuming pattern ends after its start. *)
Lemma match_at_shorter p bef rst e :
  consuming (re p) = true → match_at p bef rst = Some e →
  (List.length (rest e) < List.length rst)%nat.
Proof.
  intros Hc Hm. apply mtch_result in Hm as (s' & [= ->] & _ & Hlt).
  exact (Hlt Hc).
Qed.

(** A repetition that may stop where it is matches when what follows does. *)
Lemma rep_loop_stops m greedy lo fuel cnt (s : mstate) k :
  (lo ≤ cnt)%nat → is_Some (k s) → is_Some (rep_loop m greedy lo fuel cnt s k).
Proof.
  intros Hlo [e He]. apply Nat.leb_le in Hlo.
  destruct fuel as [|fuel]; simpl; rewrite Hlo, He; [eauto |].
  destruct greedy; [| eauto]. destruct (m s _); eauto.
Qed.

(** Substitution of a consuming pattern that matches wherever the
    character [c0] stands leaves no [c0], unless the replacement has one. *)
Lemma sub_from_avoids p repl (c0 : char) :
  consuming (re p) = true →
  (∀ bef rst, is_Some (match_at p bef (c0 :: rst))) →
  c0 ∉ repl →
  ∀ rst skip bef, c0 ∉ sub_from p repl skip bef rst.
Proof.
  intros Hc Hm Hrepl. induction rst as [|c rst IH]; intros skip bef.
  - destruct skip; simpl; [| apply not_elem_of_nil].
    destruct (match_at p bef []); [exact Hrepl | apply not_elem_of_nil].
  - destruct skip as [|n]; [| apply IH].
    rewrite sub_from_O. destruct (match_at p bef (c :: rst)) as [e|] eqn:Hme.
    + pose proof (match_at_shorter _ _ _ _ Hc Hme) as Hlt.
      destruct (List.length (c :: rst) - List.length (rest e))%nat eqn:Hd; [lia |].
      rewrite not_elem_of_app. split; [exact Hrepl | apply IH].
    + rewrite not_elem_of_cons. split; [| apply IH].
      intros <-. destruct (Hm bef rst) as [e He]. congruence.
Qed.

Lemma re_pipe_eq :
  re_pipe = Pattern "\s*\|\s*" false false
              (Cat (Rep true 0 None Space)
                 (Cat (Lit 124) (Cat (Rep true 0 None Space) Empty))).
Proof. vm_compute. reflexivity. Qed.

(** The separator pattern matches wherever a pipe stands. *)
Lemma match_at_pipe bef rst : is_Some (match_at re_pipe bef (124 :: rst)).
Proof.
  rewrite re_pipe_eq. unfold match_at. cbn [re ignorecase dotall mtch].
  apply rep_loop_stops; [lia |].
  unfold one. cbn [rest before caps lit_test]. change (124 =? 124) with true. cbv iota.
  apply rep_loop_stops; [lia |]. eauto.
Qed.

Lemma sub_pipe_no_pipe g : 124 ∉ sub re_pipe (u " ") g.
Proof.
  apply sub_from_avoids.
  - rewrite re_pipe_eq. reflexivity.
  - apply match_at_pipe.
  - change (u " ") with [32]. rewrite not_elem_of_cons. split; [discriminate |].
    apply not_elem_of_nil.
Qed.

(** X8.  The fragment that [build_label] puts into a label, whatever was
    captured: it has no pipe, it neither starts nor ends with whitespace, it
    has no two whitespace characters in a row, and its only whitespace is
    the space.  [build_label] builds the label from its template and this
    fragment alone. *)
Theorem fragment_is_clean (label g : text) :
  build_label label (Some g) = label_of label (clean_fragment g)
  ∧ (124 ∉ clean_fragment g)
  ∧ tight (clean_fragment g) = true
  ∧ spaced (clean_fragment g) = true
  ∧ ∀ x, x ∈ clean_fragment g → isspace x = true → x = 32.
Proof.
  split; [apply build_label_spec |].
  unfold clean_fragment. rewrite sub_spaces. unfold collapse_ws.
  split; [| split; [| split]].
  - intros Hin. apply strip_elem_of, collapse_elem_of in Hin as [[=] | [Hin _]].
    exact (sub_pipe_no_pipe _ Hin).
  - apply strip_tight.
  - apply strip_spaced, collapse_shape.
  - intros x Hin Hx. apply strip_elem_of, collapse_elem_of in Hin as [-> | [_ Hsp]];
      [reflexivity | congruence].
Qed.

End FragmentFacts.

(** *** Normalisation of Latin-1 descriptions *)

Section MapFacts.
Context `{UnicodeDB}.
Variable f : char → char.
Hypothesis f_space : f 32 = 32.
Implicit Types (s t : text) (d x : char) (b : bool).

Lemma keeps_space : keeps f 32.
Proof. unfold keeps. rewrite f_space. auto. Qed.

Lemma fmap_rev s : f <$> rev s = rev (f <$> s).
Proof.
  induction s as [|c s IH]; [reflexivity |]. simpl.
  rewrite fmap_app, IH. reflexivity.
Qed.

Lemma fmap_lstrip s : Forall (keeps f) s → f <$> lstrip s = lstrip (f <$> s).
Proof.
  induction 1 as [|c s [Hc _] _ IH]; [reflexivity |]. simpl.
  change (f <$> c :: s) with (f c :: (f <$> s)). rewrite Hc.
  destruct (isspace c); [exact IH | reflexivity].
Qed.

Lemma lstrip_Forall (P : char → Prop) s : Forall P s → Forall P (lstrip s).
Proof.
  induction 1 as [|c s Hc Hs IH]; [constructor |]. simpl.
  destruct (isspace c); [exact IH | constructor; assumption].
Qed.

Lemma rev_Forall (P : char → Prop) s : Forall P s → Forall P (rev s).
Proof.
  rewrite !Forall_forall. intros HP x Hx. apply HP, elem_of_rev, Hx.
Qed.

Lemma fmap_strip s : Forall (keeps f) s → f <$> strip s = strip (f <$> s).
Proof.
  intros Hs. unfold strip, rstrip.
  rewrite fmap_rev, fmap_lstrip, fmap_rev, fmap_lstrip; [reflexivity | exact Hs |].
  apply rev_Forall, lstrip_Forall, Hs.
Qed.

Lemma fmap_collapse b s :
  Forall (keeps f) s → f <$> collapse_from b s = collapse_from b (f <$> s).
Proof.
  intros Hs. revert b. induction Hs as [|c s [Hc _] _ IH]; intros b; [reflexivity |].
  change (f <$> c :: s) with (f c :: (f <$> s)). simpl. rewrite Hc.
  destruct (isspace c); [destruct b |]; rewrite ?fmap_cons, ?IH, ?f_space; reflexivity.
Qed.

Lemma fmap_replace_colons s :
  Forall (keeps f) s → f <$> replace_colons s = replace_colons (f <$> s).
Proof.
  induction 1 as [|c s [_ Hc] _ IH]; [reflexivity |].
  unfold replace_colons in *. rewrite !fmap_cons, IH, Hc.
  destruct (c =? 58); rewrite ?f_space; reflexivity.
Qed.

Lemma replace_colons_Forall (P : char → Prop) s :
  P 32 → Forall P s → Forall P (replace_colons s).
Proof.
  intros H32. induction 1 as [|c s Hc _ IH]; [constructor |].
  unfold replace_colons in *. rewrite fmap_cons. constructor; [| exact IH].
  destruct (c =? 58); assumption.
Qed.

Lemma collapse_Forall (P : char → Prop) b s :
  P 32 → Forall P s → Forall P (collapse_from b s).
Proof.
  intros H32 Hs. rewrite Forall_forall in *. intros x Hx.
  apply collapse_elem_of in Hx as [-> | [Hx _]]; auto.
Qed.

Lemma strip_Forall (P : char → Prop) s : Forall P s → Forall P (strip s).
Proof.
  rewrite !Forall_forall. intros HP x Hx. apply HP, strip_elem_of, Hx.
Qed.

(** The cleaning steps commute with such a function. *)
Lemma fmap_clean s :
  Forall (keeps f) s →
  f <$> strip (collapse_ws (replace_colons s))
  = strip (collapse_ws (replace_colons (f <$> s))).
Proof.
  intros Hs. unfold collapse_ws.
  rewrite fmap_strip, fmap_collapse, fmap_replace_colons; [reflexivity | exact Hs | |].
  - apply replace_colons_Forall; [apply keeps_space | exact Hs].
  - apply collapse_Forall; [apply keeps_space |].
    apply replace_colons_Forall; [apply keeps_space | exact Hs].
Qed.

End MapFacts.

Section CleanFacts.
Context `{UnicodeDB}.
Implicit Types (s t : text) (x : char).

Lemma replace_colons_elem_of s x : x ∈ replace_colons s → x ≠ 58 ∧ (x = 32 ∨ x ∈ s).
Proof.
  unfold replace_colons. intros Hx. apply list_elem_of_fmap in Hx as (c & -> & Hc).
  destruct (c =? 58) eqn:E.
  - split; [discriminate | auto].
  - apply N.eqb_neq in E. auto.
Qed.

Lemma replace_colons_id s : 58 ∉ s → replace_colons s = s.
Proof.
  induction s as [|c s IH]; [reflexivity |]. rewrite not_elem_of_cons.
  intros [Hc Hs]. unfold replace_colons in *. rewrite fmap_cons, IH by exact Hs.
  destruct (c =? 58) eqn:E; [apply N.eqb_eq in E; congruence | reflexivity].
Qed.

(** The shape of a cleaned text: trimmed, single spaces for whitespace, no
    colon; and cleaning leaves a text of this shape as it is. *)
Lemma clean_shape s (t := strip (collapse_ws (replace_colons s))) :
  tight t = true ∧ spaced t = true
  ∧ (∀ x, x ∈ t → x ≠ 58 ∧ (isspace x = true → x = 32) ∧ (x = 32 ∨ x ∈ s))
  ∧ strip (collapse_ws (replace_colons t)) = t.
Proof.
  assert (Ht : tight t = true) by apply strip_tight.
  assert (Hsp : spaced t = true) by apply strip_spaced, collapse_shape.
  assert (Hel : ∀ x, x ∈ t → x ≠ 58 ∧ (isspace x = true → x = 32) ∧ (x = 32 ∨ x ∈ s)).
  { intros x Hx. apply strip_elem_of, collapse_elem_of in Hx as [-> | [Hx Hws]].
    - split; [discriminate |]. auto.
    - apply replace_colons_elem_of in Hx as [H58 Hin].
      split; [exact H58 |]. split; [congruence | exact Hin]. }
  split; [exact Ht |]. split; [exact Hsp |]. split; [exact Hel |].
  rewrite replace_colons_id by (intros Hin; apply Hel in Hin as [Hne _]; congruence).
  unfold collapse_ws.
  rewrite (proj1 (collapse_id t Hsp (fun x Hx => proj1 (proj2 (Hel x Hx))))).
  apply strip_id, Ht.
Qed.

End CleanFacts.

Section Latin1Facts.
Implicit Types (s t : text) (x d : char).

Lemma latin1_table :
  forallb (fun x =>
    forallb Latin1.stable (Latin1.unmarked x)
    && forallb Latin1.stable (Latin1.unmarked (Latin1.lower x))
    && bool_decide (Latin1.folded (Latin1.lower x) = Latin1.folded x))
    Latin1.chars = true.
Proof. vm_compute. reflexivity. Qed.

Lemma latin1_char x :
  x < 256 →
  (∀ d, d ∈ Latin1.unmarked x → Latin1.stable d = true)
  ∧ (∀ d, d ∈ Latin1.unmarked (Latin1.lower x) → Latin1.stable d = true)
  ∧ Latin1.folded (Latin1.lower x) = Latin1.folded x.
Proof.
  intros Hx. pose proof latin1_table as Htab. rewrite forallb_forall in Htab.
  assert (Hin : In x Latin1.chars).
  { apply list_elem_of_In. unfold Latin1.chars. apply list_elem_of_fmap.
    exists (N.to_nat x). split; [symmetry; apply N2Nat.id |].
    apply elem_of_seq. lia. }
  apply Htab in Hin. apply andb_true_iff in Hin as [Hin Hfold].
  apply andb_true_iff in Hin as [Hu Hl]. rewrite forallb_forall in Hu, Hl.
  split; [| split].
  - intros d Hd. apply Hu, list_elem_of_In, Hd.
  - intros d Hd. apply Hl, list_elem_of_In, Hd.
  - apply bool_decide_eq_true in Hfold. exact Hfold.
Qed.

Lemma stable_facts d (o := Latin1.lower d) :
  Latin1.stable d = true →
  Latin1.unmarked o = [o] ∧ Latin1.lower o = o
  ∧ keeps Latin1.lower d.
Proof.
  unfold Latin1.stable. fold o. intros Hs.
  apply andb_true_iff in Hs as [Hs H58]. apply andb_true_iff in Hs as [Hs Hsp].
  apply andb_true_iff in Hs as [Hu Hl].
  apply bool_decide_eq_true in Hu. apply N.eqb_eq in Hl.
  apply eqb_prop in Hsp, H58. repeat split; assumption.
Qed.

Lemma stable_space : Latin1.stable 32 = true.
Proof. vm_compute. reflexivity. Qed.

Lemma unmarked_bind s :
  filter (fun c => negb (combining c)) (nfkd s) = s ≫= Latin1.unmarked.
Proof.
  change (nfkd s) with (s ≫= Latin1.decompose Latin1.decompositions).
  induction s as [|c s IH]; [reflexivity |].
  rewrite !bind_cons. etransitivity; [apply filter_app |].
  apply (f_equal2 app); [reflexivity | exact IH].
Qed.

Lemma folded_bind s : Latin1.lower <$> (s ≫= Latin1.unmarked) = s ≫= Latin1.folded.
Proof.
  induction s as [|c s IH]; [reflexivity |].
  rewrite !bind_cons, fmap_app, IH. reflexivity.
Qed.

Lemma normalize_text_latin1 s :
  normalize_text (CStr s)
  = Latin1.lower <$> strip (collapse_ws (replace_colons (s ≫= Latin1.unmarked))).
Proof.
  unfold normalize_text. cbv zeta. change (str (CStr s)) with s.
  rewrite replace_colon, sub_spaces, unmarked_bind. reflexivity.
Qed.

(** The normalised text is the cleaning of the folded characters. *)
Lemma normalize_text_folded s :
  (∀ x d, x ∈ s → d ∈ Latin1.unmarked x → Latin1.stable d = true) →
  normalize_text (CStr s) = strip (collapse_ws (replace_colons (s ≫= Latin1.folded))).
Proof.
  intros Hs. rewrite normalize_text_latin1, <- folded_bind.
  apply fmap_clean; [reflexivity |].
  apply Forall_forall. intros d Hd.
  apply list_elem_of_bind in Hd as (x & Hd & Hx).
  apply (stable_facts d), (Hs x d Hx Hd).
Qed.

Lemma bind_id s : (∀ x, x ∈ s → Latin1.unmarked x = [x]) → s ≫= Latin1.unmarked = s.
Proof.
  induction s as [|c s IH]; intros Hs; [reflexivity |].
  rewrite bind_cons, Hs, IH; [reflexivity | | left].
  intros x Hx. apply Hs. right. exact Hx.
Qed.

Lemma fmap_lower_id s : (∀ x, x ∈ s → Latin1.lower x = x) → Latin1.lower <$> s = s.
Proof.
  induction s as [|c s IH]; intros Hs; [reflexivity |].
  rewrite fmap_cons, Hs, IH; [reflexivity | | left].
  intros x Hx. apply Hs. right. exact Hx.
Qed.

End Latin1Facts.

(** X9.  [normalize_text] on a description read from the file (a text of
    Latin-1 characters) gives a text in normal form: normalising it again
    changes nothing; it neither starts nor ends with whitespace, has no two
    whitespace characters in a row and no whitespace but the space, and has
    no colon, no combining mark and no character that lower-casing would
    change. *)
Theorem normalize_text_normal_form (s : text) :
  latin1_text s →
  normalize_text (CStr (normalize_text (CStr s))) = normalize_text (CStr s)
  ∧ tight (normalize_text (CStr s)) = true
  ∧ spaced (normalize_text (CStr s)) = true
  ∧ ∀ x, x ∈ normalize_text (CStr s) →
      x ≠ 58 ∧ (isspace x = true → x = 32) ∧ combining x = false
      ∧ str_lower [x] = [x].
Proof.
  intros Hs. unfold latin1_text in Hs. rewrite Forall_forall in Hs.
  set (t := normalize_text (CStr s)).
  assert (Hst : ∀ x d, x ∈ s → d ∈ Latin1.unmarked x → Latin1.stable d = true).
  { intros x d Hx Hd. exact (proj1 (latin1_char x (Hs x Hx)) d Hd). }
  assert (Ht : t = strip (collapse_ws (replace_colons (s ≫= Latin1.folded))))
    by apply normalize_text_folded, Hst.
  destruct (clean_shape (s ≫= Latin1.folded)) as (Htight & Hsp & Hel & Hid).
  rewrite <- Ht in Htight, Hsp, Hel, Hid.
  assert (Hch : ∀ x, x ∈ t → Latin1.unmarked x = [x] ∧ Latin1.lower x = x).
  { intros x Hx. destruct (Hel x Hx) as (_ & _ & [-> | Hin]).
    - split; vm_compute; reflexivity.
    - rewrite <- folded_bind in Hin. apply list_elem_of_fmap in Hin as (d & -> & Hd).
      apply list_elem_of_bind in Hd as (y & Hd & Hy).
      destruct (stable_facts d (Hst y d Hy Hd)) as (Hu & Hl & _). auto. }
  split; [| split; [exact Htight | split; [exact Hsp |]]].
  - rewrite normalize_text_latin1, bind_id by (intros x Hx; apply Hch, Hx).
    rewrite Hid. apply fmap_lower_id. intros x Hx. apply Hch, Hx.
  - intros x Hx. destruct (Hel x Hx) as (H58 & Hws & _).
    destruct (Hch x Hx) as [Hu Hl].
    split; [exact H58 |]. split; [exact Hws |]. split.
    + assert (Hin : x ∈ Latin1.unmarked x) by (rewrite Hu; left).
      apply list_elem_of_filter in Hin as [Hc _].
      apply negb_true_iff, Is_true_true, Hc.
    + change (str_lower [x]) with [Latin1.lower x]. rewrite Hl. reflexivity.
Qed.

Lemma normalize_text_normal_form_witness :
  latin1_text (u "  DEPÓSITO:  EN   Efectivo ")
  ∧ normalize_text (CStr (u "  DEPÓSITO:  EN   Efectivo ")) = u "deposito en efectivo"
  ∧ normalize_text (CStr (u "deposito en efectivo")) = u "deposito en efectivo".
Proof.
  assert (Hl : latin1_text (u "  DEPÓSITO:  EN   Efectivo ")).
  { unfold latin1_text. apply (bool_decide_unpack _). vm_compute. exact I. }
  split; [exact Hl |]. split; [vm_compute; reflexivity |].
  etransitivity;
    [| exact (proj1 (normalize_text_normal_form (u "  DEPÓSITO:  EN   Efectivo ") Hl))].
  vm_compute. reflexivity.
Defined.

(** X10.  [normalize_text] does not tell case or accents apart: two
    descriptions read from the file that agree character by character once
    each character is decomposed, stripped of its marks and lower-cased have
    the same normalised text; in particular a description and its
    lower-cased form have. *)
Theorem normalize_text_ignores_case_and_accents (s1 s2 : text) :
  latin1_text s1 → latin1_text s2 →
  (Forall2 (fun a b => Latin1.folded a = Latin1.folded b) s1 s2 →
   normalize_text (CStr s1) = normalize_text (CStr s2))
  ∧ normalize_text (CStr (str_lower s1)) = normalize_text (CStr s1).
Proof.
  intros H1 H2. unfold latin1_text in *. rewrite Forall_forall in H1, H2.
  assert (Hst : ∀ s : text, (∀ x, x ∈ s → x < 256) →
            ∀ x d, x ∈ s → d ∈ Latin1.unmarked x → Latin1.stable d = true).
  { intros s Hs x d Hx Hd. exact (proj1 (latin1_char x (Hs x Hx)) d Hd). }
  split.
  - intros Hagree.
    rewrite !normalize_text_folded by (apply Hst; assumption).
    do 3 f_equal. clear H1 H2.
    induction Hagree as [|a b s1 s2 Hab _ IH]; [reflexivity |].
    rewrite !bind_cons, Hab, IH. reflexivity.
  - change (str_lower s1) with (Latin1.lower <$> s1).
    rewrite !normalize_text_folded; [| apply Hst; assumption |].
    + do 3 f_equal. rewrite list_fmap_bind. clear Hst H2.
      induction s1 as [|c s1 IH]; [reflexivity |].
      rewrite !bind_cons, IH by (intros x Hx; apply H1; right; exact Hx).
      f_equal. apply (latin1_char c), H1. left.
    + intros x d Hx Hd. apply list_elem_of_fmap in Hx as (y & -> & Hy).
      exact (proj1 (proj2 (latin1_char y (H1 y Hy))) d Hd).
Qed.

Lemma normalize_text_ignores_case_and_accents_witness :
  normalize_text (CStr (u "DEPÓSITO en Efectivo"))
  = normalize_text (CStr (u "deposito EN efectivo")).
Proof.
  refine (proj1 (normalize_text_ignores_case_and_accents
                   (u "DEPÓSITO en Efectivo") (u "deposito EN efectivo") _ _) _).
  - unfold latin1_text. apply (bool_decide_unpack _). vm_compute. exact I.
  - unfold latin1_text. apply (bool_decide_unpack _). vm_compute. exact I.
  - apply (bool_decide_unpack _). vm_compute. exact I.
Defined.

(** *** The batch as a set of descriptions *)

Section BatchFacts.
Context `{UnicodeDB}.
Implicit Types (rule : pattern * text * text) (rules : list (pattern * text * text)).
Implicit Types (raw : list text) (labels : list cell) (i j : nat).

(** Whether the raw texts of the unset records give a rule nothing to
    capture is the same in two batches with the same raw texts whose label
    columns agree on them. *)
Lemma raw_pass_empty_agree p raw raw' labels labels' :
  (∀ r, r ∈ raw' → r ∈ raw) →
  (∀ i j r, raw !! i = Some r → raw' !! j = Some r → labels !! i = labels' !! j) →
  raw_pass_empty p raw labels = true → raw_pass_empty p raw' labels' = true.
Proof.
  intros Hsub Hag. rewrite !raw_pass_empty_true. intros Hall j r Hl Hr.
  assert (Hin : r ∈ raw) by (apply Hsub, list_elem_of_lookup; eauto).
  apply list_elem_of_lookup in Hin as [i Hi].
  apply (Hall i r); [| exact Hi]. rewrite (Hag i j r Hi Hr). exact Hl.
Qed.

Lemma apply_rule_agree rule raw raw' labels labels' :
  List.length labels = List.length raw → List.length labels' = List.length raw' →
  (∀ r, r ∈ raw ↔ r ∈ raw') →
  (∀ i j r, raw !! i = Some r → raw' !! j = Some r → labels !! i = labels' !! j) →
  ∀ i j r, raw !! i = Some r → raw' !! j = Some r →
    apply_rule rule ((fun r => normalize_text (CStr r)) <$> raw) raw labels !! i
    = apply_rule rule ((fun r => normalize_text (CStr r)) <$> raw') raw' labels' !! j.
Proof.
  intros Hlen Hlen' Hset Hag i j r Hi Hj.
  destruct (lookup_lt_is_Some_2 labels i) as [l Hl];
    [rewrite Hlen; eapply lookup_lt_Some, Hi |].
  destruct (lookup_lt_is_Some_2 labels' j) as [l' Hl'];
    [rewrite Hlen'; eapply lookup_lt_Some, Hj |].
  assert (l = l') as <-.
  { pose proof (Hag i j r Hi Hj) as Heq. rewrite Hl, Hl' in Heq. congruence. }
  rewrite (apply_rule_lookup rule _ raw labels i l (normalize_text (CStr r)) r Hl)
    by (rewrite ?list_lookup_fmap, ?Hi; reflexivity).
  rewrite (apply_rule_lookup rule _ raw' labels' j l (normalize_text (CStr r)) r Hl')
    by (rewrite ?list_lookup_fmap, ?Hj; reflexivity).
  assert (Hflag : raw_pass_empty rule.1.1 raw labels
                  = raw_pass_empty rule.1.1 raw' labels').
  { destruct (raw_pass_empty rule.1.1 raw labels) eqn:E1,
             (raw_pass_empty rule.1.1 raw' labels') eqn:E2; try reflexivity.
    - rewrite (raw_pass_empty_agree _ raw raw' labels labels') in E2;
        [discriminate | apply Hset | exact Hag | exact E1].
    - rewrite (raw_pass_empty_agree _ raw' raw labels' labels) in E1;
        [discriminate | apply Hset | | exact E2].
      intros i' j' r' Hi' Hj'. symmetry. eapply Hag; eauto. }
  rewrite Hflag. reflexivity.
Qed.

Lemma fold_rules_agree rules raw raw' labels labels' :
  List.length labels = List.length raw → List.length labels' = List.length raw' →
  (∀ r, r ∈ raw ↔ r ∈ raw') →
  (∀ i j r, raw !! i = Some r → raw' !! j = Some r → labels !! i = labels' !! j) →
  ∀ i j r, raw !! i = Some r → raw' !! j = Some r →
    fold_rules rules ((fun r => normalize_text (CStr r)) <$> raw) raw labels !! i
    = fold_rules rules ((fun r => normalize_text (CStr r)) <$> raw') raw' labels' !! j.
Proof.
  revert labels labels'. induction rules as [|rule rules IH];
    intros labels labels' Hlen Hlen' Hset Hag; [exact Hag |].
  change (fold_rules (rule :: rules) ?n ?r ?l)
    with (fold_rules rules n r (apply_rule rule n r l)).
  apply IH.
  - rewrite length_apply_rule; rewrite ?length_fmap; auto.
  - rewrite length_apply_rule; rewrite ?length_fmap; auto.
  - exact Hset.
  - apply apply_rule_agree; assumption.
Qed.

(** X11.  The label of a record depends on its raw text and on the set of
    raw texts of the batch, and on nothing else: not on the position of the
    record, on the order of the batch or on how often a description occurs
    in it.  In particular records of one batch with the same description
    have the same label. *)
Theorem labels_depend_on_the_set rules (ds ds' : list cell) i j d d' :
  (∀ r, r ∈ raw_text <$> ds ↔ r ∈ raw_text <$> ds') →
  ds !! i = Some d → ds' !! j = Some d' → raw_text d = raw_text d' →
  classify rules ds !! i = classify rules ds' !! j.
Proof.
  intros Hset Hi Hj Hraw. unfold classify, classify_columns, fillna.
  rewrite !run_rules_fold by (rewrite ?length_fmap, ?length_replicate; reflexivity).
  rewrite !list_lookup_fmap. f_equal.
  assert (Hnorm : ∀ es : list cell,
            norm_text <$> es
            = (fun r => normalize_text (CStr r)) <$> (raw_text <$> es)).
  { intros es. rewrite <- list_fmap_compose. reflexivity. }
  rewrite !Hnorm.
  apply (fold_rules_agree rules _ _ _ _) with (r := raw_text d).
  - rewrite length_replicate, length_fmap. reflexivity.
  - rewrite length_replicate, length_fmap. reflexivity.
  - exact Hset.
  - intros i' j' r Hi' Hj'.
    apply lookup_lt_Some in Hi', Hj'. rewrite length_fmap in Hi', Hj'.
    rewrite (lookup_replicate_2 _ CNone i' Hi'), (lookup_replicate_2 _ CNone j' Hj').
    reflexivity.
  - rewrite list_lookup_fmap, Hi. reflexivity.
  - rewrite list_lookup_fmap, Hj, Hraw. reflexivity.
Qed.

End BatchFacts.

(** The two cheque descriptions and a missing one, in two orders and with a
    repetition: the second record of the one batch and the fourth of the
    other, both "mxn numero de cheque | 5678 |", have the same label. *)
Lemma labels_depend_on_the_set_witness :
  classify compiled_rules
    [CStr (u "mxn número de cheque | 1234 |");
     CStr (u "mxn numero de cheque | 5678 |"); CNone] !! 1%nat
  = classify compiled_rules
      [CStr (u ""); CStr (u "mxn número de cheque | 1234 |");
       CStr (u "mxn número de cheque | 1234 |");
       CStr (u "mxn numero de cheque | 5678 |")] !! 3%nat.
Proof.
  refine (labels_depend_on_the_set compiled_rules _ _ 1%nat 3%nat _ _ _ _ _ _).
  - intros r. split; intros Hr; apply (bool_decide_unpack _);
      revert r Hr; apply Forall_forall; apply (bool_decide_unpack _);
      vm_compute; exact I.
  - reflexivity.
  - reflexivity.
  - reflexivity.
Defined.

(** *** The function on its own result *)

Section AgainFacts.
Context `{UnicodeDB}.
Implicit Types (df : frame) (name text_col : string).

Lemma frame_eq df df' :
  nrows df = nrows df' → (∀ name, get_col name df = get_col name df') → df = df'.
Proof.
  destruct df as [n m], df' as [n' m']. simpl. intros -> Hcols.
  f_equal. apply map_eq. exact Hcols.
Qed.

(** X12.  The function is idempotent on frames: run on the frame it has
    returned, it returns that frame again, with the same rows and the same
    contents in every column. *)
Theorem apply_rules_vectorized_again df text_col df1 :
  apply_rules_vectorized df text_col = inr df1 →
  apply_rules_vectorized df1 text_col = inr df1.
Proof.
  unfold apply_rules_vectorized. intros Happ.
  destruct (read_descriptions_after _ _ _ _ Happ) as (Hrows & Hread & [col Hcol]).
  pose proof (apply_rules_with_printable _ _ _ _ _ Happ Hcol) as Hpr.
  rewrite Hcol in Hread.
  rewrite (apply_rules_with_Some _ _ _ _ Hread Hpr), Hrows.
  rewrite (apply_rules_with_Some _ _ _ _ Hcol Hpr) in Happ. injection Happ as Hdf1.
  f_equal. apply frame_eq; [reflexivity |].
  intros name. subst df1. rewrite !get_set_col.
  repeat destruct (decide _); try reflexivity; congruence.
Qed.

End AgainFacts.

(** A statement of two records, classified and classified again. *)
Lemma apply_rules_vectorized_again_witness :
  ∃ df1,
    apply_rules_vectorized
      (Frame 2 {[ DESCRIPTION_COL := [CStr (u "Comision por administracion"); CNone];
                  "label"%string := [CInt 1; CInt 2] ]}) DESCRIPTION_COL = inr df1
    ∧ apply_rules_vectorized df1 DESCRIPTION_COL = inr df1.
Proof.
  destruct (apply_rules_vectorized
              (Frame 2 {[ DESCRIPTION_COL := [CStr (u "Comision por administracion"); CNone];
                          "label"%string := [CInt 1; CInt 2] ]}) DESCRIPTION_COL)
    as [e|df1] eqn:Happ; [vm_compute in Happ; discriminate |].
  exists df1. split; [reflexivity |].
  exact (apply_rules_vectorized_again _ _ _ Happ).
Defined.
